(** * Transaction execution core (execution/execution.go)

    A shallow embedding of the batch executor of [execution.go]: the
    dispatcher [Execute] with its four transaction families, the validation
    kernel ([checkInputPubKey], [validateInput], [validateInputs],
    [validateOutputs]), the account adjustment helpers, the permission
    lookup [HasPermission] and the commit controller.

    Conventions.
    - A Go [uint64] is a [Z]; every arithmetic operation of the source is
      followed by its wrap-around [uint64].
    - An address (a 20-byte array, compared by equality only) is the
      natural number its bytes encode.
    - A Go function returning [error] returns a [Res]: [Ok], [Err e] or
      [Panic msg] (the call does not return).
    - [Execute] mutates the block cache and the event cache of the executor:
      it is written in a state monad over [executor], so that every
      [UpdateAccount] of the source is a step of the model. *)

From Stdlib Require Import ZArith Lia String List.
From Stdlib Require Strings.Byte.
From stdpp Require Import base gmap strings fin_maps.

Local Open Scope Z_scope.

(** ** Machine integers *)

Definition uint64 (z : Z) : Z := z mod 2 ^ 64.

Definition is_uint64 (z : Z) : Prop := 0 <= z < 2 ^ 64.

#[global] Instance byte_eq_decision : EqDecision Byte.byte :=
  Strings.Byte.byte_eq_dec.

(** ** Data model *)

Abbreviation Address := N (only parsing).
Abbreviation Bytes := (list Byte.byte) (only parsing).

(** [acm.PublicKey]: [None] is the empty key, whose [Unwrap()] is nil. *)
Abbreviation PublicKey := (option (list Byte.byte)) (only parsing).

Record BasePermissions := mkBasePermissions {
  Perms : Z;
  SetBit : Z
}.

Record AccountPermissions := mkAccountPermissions {
  Base : BasePermissions;
  Roles : list string
}.

Definition ZeroAccountPermissions : AccountPermissions :=
  mkAccountPermissions (mkBasePermissions 0 0) [].

Record Account := mkAccount {
  acc_Address : Address;
  acc_PublicKey : PublicKey;
  acc_Sequence : Z;
  acc_Balance : Z;
  acc_Code : Bytes;
  acc_StorageRoot : Bytes;
  acc_Permissions : AccountPermissions
}.

Record NameRegEntry := mkNameRegEntry {
  entry_Name : string;
  entry_Owner : Address;
  entry_Data : string;
  entry_Expires : Z
}.

Record TxInput := mkTxInput {
  in_Address : Address;
  in_Amount : Z;
  in_Sequence : Z;
  in_Signature : Bytes;
  in_PubKey : PublicKey
}.

Record TxOutput := mkTxOutput {
  out_Address : Address;
  out_Amount : Z
}.

Record PermArgs := mkPermArgs {
  pa_PermFlag : Z;
  pa_Address : Address;
  pa_Permission : Z;
  pa_Value : bool;
  pa_Role : string
}.

Record SendTx := mkSendTx {
  send_Inputs : list TxInput;
  send_Outputs : list TxOutput
}.

Record CallTx := mkCallTx {
  call_Input : TxInput;
  call_Address : option Address;
  call_GasLimit : Z;
  call_Fee : Z;
  call_Data : Bytes
}.

Record NameTx := mkNameTx {
  name_Input : TxInput;
  name_Name : string;
  name_Data : string;
  name_Fee : Z
}.

Record PermissionsTx := mkPermissionsTx {
  perm_Input : TxInput;
  perm_PermArgs : PermArgs
}.

Inductive Tx :=
| TxSend (tx : SendTx)
| TxCall (tx : CallTx)
| TxName (tx : NameTx)
| TxPermissions (tx : PermissionsTx).

(** ** Errors *)

(** The [txs.ErrTx...] values and one constructor per [fmt.Errorf] site of
    [execution.go]. *)
Inductive Error :=
| ErrTxInvalidAddress
| ErrTxDuplicateAddress
| ErrTxInvalidAmount
| ErrTxInsufficientFunds
| ErrTxInvalidSignature
| ErrTxInvalidSequence (Got Expected : Z)
| ErrTxUnknownPubKey
| ErrTxInvalidPubKey
| ErrTxInvalidString
| ErrSendPermission
| ErrCreateAccountPermission
| ErrCreateContractPermission (a : Address)
| ErrCallPermission (a : Address)
| ErrNativeContract (a : Address)
| ErrNamePermission (a : Address)
| ErrNameNotOwner (a : Address) (name : string)
| ErrNameTooShort (min : Z)
| ErrModeratorPermission (a : Address) (flag : Z)
| ErrHasBaseFromTx
| ErrHasRoleFromTx
| ErrRoleExists (role : string) (a : Address)
| ErrRoleMissing (role : string) (a : Address)
| ErrAccountNotFound (a : Address)
| ErrOther (msg : string).

Inductive Res (A : Type) :=
| Ok (a : A)
| Err (e : Error)
| Panic (msg : string).

Arguments Ok {A} a.
Arguments Err {A} e.
Arguments Panic {A} msg.

Definition res_bind {A B} (r : Res A) (k : A -> Res B) : Res B :=
  match r with
  | Ok a => k a
  | Err e => Err e
  | Panic msg => Panic msg
  end.

(** [if err := f(); err != nil { return err }] *)
Definition check (e : option Error) : Res unit :=
  match e with
  | Some e => Err e
  | None => Ok tt
  end.

Declare Scope res_scope.
Delimit Scope res_scope with res.
Notation "x <- r ;; k" := (res_bind r (fun x => k))
  (at level 100, r at next level, right associativity) : res_scope.

(** ** Events *)

Inductive EventID :=
| EventStringAccInput (a : Address)
| EventStringAccOutput (a : Address)
| EventStringNameReg (name : string)
| EventStringPermissions (flag : Z).

(** [events.EventDataTx{tx, ret, exception}]; the exception string is
    represented by the error whose message it is ([None]: the empty
    string). *)
Record EventDataTx := mkEventDataTx {
  ev_Tx : Tx;
  ev_Return : Bytes;
  ev_Exception : option Error
}.

Inductive Event :=
| EventTx (id : EventID) (data : EventDataTx)
| EventVM (topic : string) (data : Bytes).

(** ** Caches *)

(** Modelled from the spec: the block cache (execution/block_cache.go is
    not among the sources), §4.1. It is represented by what its read
    interface returns: a miss loads from the backing state and caches the
    result, which changes no later read, so the three mappings below are
    the accounts, storage slots and name entries as [GetAccount],
    [GetStorage] and [GetNameRegEntry] see them. Accounts are handed out as
    working copies (§3) and written back by [UpdateAccount] only. *)
Record BlockCache := mkBlockCache {
  accounts : gmap N Account;
  storages : gmap (N * Z) Z;
  names : gmap string NameRegEntry
}.

Definition GetAccount (cache : BlockCache) (addr : Address) : option Account :=
  accounts cache !! addr.

Definition UpdateAccount (cache : BlockCache) (acc : Account) : BlockCache :=
  mkBlockCache (<[acc_Address acc := acc]> (accounts cache))
               (storages cache) (names cache).

Definition RemoveAccount (cache : BlockCache) (addr : Address) : BlockCache :=
  mkBlockCache (delete addr (accounts cache)) (storages cache) (names cache).

Definition GetStorage (cache : BlockCache) (addr : Address) (key : Z) : Z :=
  default 0 (storages cache !! (addr, key)).

Definition SetStorage (cache : BlockCache) (addr : Address) (key value : Z)
  : BlockCache :=
  mkBlockCache (accounts cache) (<[(addr, key) := value]> (storages cache))
               (names cache).

Definition GetNameRegEntry (cache : BlockCache) (name : string)
  : option NameRegEntry :=
  names cache !! name.

Definition UpdateNameRegEntry (cache : BlockCache) (entry : NameRegEntry)
  : BlockCache :=
  mkBlockCache (accounts cache) (storages cache)
               (<[entry_Name entry := entry]> (names cache)).

Definition RemoveNameRegEntry (cache : BlockCache) (name : string)
  : BlockCache :=
  mkBlockCache (accounts cache) (storages cache) (delete name (names cache)).

(** Modelled from the spec: the Tx cache (execution/tx_cache.go is not
    among the sources), §4.2: it buffers the writes of one VM invocation
    above the block cache; an account entry [None] is a removed account.
    [TxCache_Sync] promotes every buffered write. *)
Record TxCache := mkTxCache {
  tx_backend : BlockCache;
  tx_accounts : gmap N (option Account);
  tx_storages : gmap (N * Z) Z
}.

Definition NewTxCache (backend : BlockCache) : TxCache :=
  mkTxCache backend ∅ ∅.

Definition TxCache_UpdateAccount (cache : TxCache) (acc : Account) : TxCache :=
  mkTxCache (tx_backend cache)
            (<[acc_Address acc := Some acc]> (tx_accounts cache))
            (tx_storages cache).

Definition TxCache_Sync (cache : TxCache) (backend : BlockCache) : BlockCache :=
  mkBlockCache
    (merge (fun buffered stored =>
              match buffered with
              | Some (Some acc) => Some acc
              | Some None => None
              | None => stored
              end) (tx_accounts cache) (accounts backend))
    (tx_storages cache ∪ storages backend)
    (names backend).

(** ** Mutable accounts *)

(** Modelled from the spec: the mutators of [acm.MutableAccount] (package
    account is not among the sources): field updates on a working copy, in
    [uint64] arithmetic. *)
Definition IncSequence (acc : Account) : Account :=
  mkAccount (acc_Address acc) (acc_PublicKey acc)
            (uint64 (acc_Sequence acc + 1)) (acc_Balance acc)
            (acc_Code acc) (acc_StorageRoot acc) (acc_Permissions acc).

Definition SubtractFromBalance (acc : Account) (amount : Z) : Account :=
  mkAccount (acc_Address acc) (acc_PublicKey acc)
            (acc_Sequence acc) (uint64 (acc_Balance acc - amount))
            (acc_Code acc) (acc_StorageRoot acc) (acc_Permissions acc).

Definition AddToBalance (acc : Account) (amount : Z) : Account :=
  mkAccount (acc_Address acc) (acc_PublicKey acc)
            (acc_Sequence acc) (uint64 (acc_Balance acc + amount))
            (acc_Code acc) (acc_StorageRoot acc) (acc_Permissions acc).

Definition SetPublicKey (acc : Account) (key : PublicKey) : Account :=
  mkAccount (acc_Address acc) key
            (acc_Sequence acc) (acc_Balance acc)
            (acc_Code acc) (acc_StorageRoot acc) (acc_Permissions acc).

Definition SetCode (acc : Account) (code : Bytes) : Account :=
  mkAccount (acc_Address acc) (acc_PublicKey acc)
            (acc_Sequence acc) (acc_Balance acc)
            code (acc_StorageRoot acc) (acc_Permissions acc).

Definition SetPermissions (acc : Account) (perms : AccountPermissions)
  : Account :=
  mkAccount (acc_Address acc) (acc_PublicKey acc)
            (acc_Sequence acc) (acc_Balance acc)
            (acc_Code acc) (acc_StorageRoot acc) perms.

(** [acm.GetMutableAccount]: a working copy of the cached account, nil when
    there is none. *)
Definition GetMutableAccount (getter : BlockCache) (addr : Address)
  : option Account :=
  GetAccount getter addr.

(** ** Collaborators

    The packages [txs], [account], [permission] and [evm] are not among the
    sources; what [execution.go] uses of them is a parameter of the
    development. *)

(** Package [txs]: basic validation of inputs, outputs and name strings,
    and the constants of the name registry. *)
Class Txs := {
  TxInput_ValidateBasic : TxInput -> option Error;
  TxOutput_ValidateBasic : TxOutput -> option Error;
  NameTx_ValidateStrings : NameTx -> option Error;
  NameBaseCost : string -> string -> Z;
  NameByteCostMultiplier : Z;
  NameBlockCostMultiplier : Z;
  MinNameRegistrationPeriod : Z
}.

(** Package [account]: sign bytes, signature verification and the address
    of a public key. *)
Class Crypto := {
  SignBytes : string -> Tx -> Bytes;
  VerifyBytes : PublicKey -> Bytes -> Bytes -> bool;
  PubKey_Address : Bytes -> Address
}.

(** Package [permission]: the permission flags and the address of the global
    permissions account. *)
Class Permission := {
  permission_Send : Z;
  permission_Call : Z;
  permission_CreateContract : Z;
  permission_CreateAccount : Z;
  permission_Name : Z;
  permission_HasBase : Z;
  permission_SetBase : Z;
  permission_UnsetBase : Z;
  permission_SetGlobal : Z;
  permission_HasRole : Z;
  permission_AddRole : Z;
  permission_RemoveRole : Z;
  permission_AllPermFlags : Z;
  GlobalPermissionsAddress : Address
}.

Record Params := mkParams {
  BlockHeight : Z;
  BlockHash : Bytes;
  BlockTime : Z;
  params_GasLimit : Z
}.

(** What a VM call leaves behind: the Tx cache it wrote to, the caller and
    callee objects (the VM mutates them in place), the gas left, the events
    it fired (topic and payload), the return bytes and the error. *)
Record CallResult := mkCallResult {
  res_cache : TxCache;
  res_caller : Account;
  res_callee : Account;
  res_gas : Z;
  res_events : list (string * list Byte.byte);
  res_ret : Bytes;
  res_err : option Error
}.

(** Package [evm]: [vm_Call params origin txHash cache caller callee code
    input value gas] is [NewVM(cache, ..., params, origin, txHash).Call(caller,
    callee, code, input, value, &gas)]. *)
Class Evm := {
  RegisteredNativeContract : Address -> bool;
  NewContractAddress : Address -> Z -> Address;
  GasLimit : Z;
  TxHash : string -> Tx -> Bytes;
  vm_Call : Params -> Address -> Bytes -> TxCache -> Account -> Account ->
            Bytes -> Bytes -> Z -> Z -> CallResult
}.

(** ** The executor *)

Record Tip := mkTip {
  LastBlockHeight : Z;
  LastBlockHash : Bytes;
  LastBlockTime : Z
}.

(** [state] is the backing State, seen through the same read interface as
    the block cache; [fired] collects what [Commit] flushes to the event
    sink. *)
Record executor := mkExecutor {
  chainID : string;
  tip : Tip;
  runCall : bool;
  state : BlockCache;
  blockCache : BlockCache;
  eventCache : list Event;
  fired : list Event
}.

Definition NewBlockCache (backend : BlockCache) : BlockCache := backend.

Definition newExecutor (runCall : bool) (state : BlockCache) (chainID : string)
  (tip : Tip) : executor :=
  mkExecutor chainID tip runCall state (NewBlockCache state) [] [].

Definition NewBatchChecker (state : BlockCache) (chainID : string) (tip : Tip)
  : executor :=
  newExecutor false state chainID tip.

Definition NewBatchCommitter (state : BlockCache) (chainID : string) (tip : Tip)
  : executor :=
  newExecutor true state chainID tip.

Definition Reset (exe : executor) : executor :=
  mkExecutor (chainID exe) (tip exe) (runCall exe) (state exe)
             (NewBlockCache (state exe)) [] (fired exe).

(** [Commit]: sync the block cache into the state and flush the events. *)
Definition Commit (exe : executor) : executor :=
  mkExecutor (chainID exe) (tip exe) (runCall exe) (blockCache exe)
             (blockCache exe) [] (fired exe ++ eventCache exe).

Definition set_blockCache (exe : executor) (cache : BlockCache) : executor :=
  mkExecutor (chainID exe) (tip exe) (runCall exe) (state exe)
             cache (eventCache exe) (fired exe).

Definition Fire (exe : executor) (events : list Event) : executor :=
  mkExecutor (chainID exe) (tip exe) (runCall exe) (state exe)
             (blockCache exe) (eventCache exe ++ events) (fired exe).

(** The state monad of [Execute]. *)
Definition Exec (A : Type) : Type := executor -> Res A * executor.

Definition exec_ret {A} (a : A) : Exec A := fun exe => (Ok a, exe).

Definition exec_bind {A B} (m : Exec A) (k : A -> Exec B) : Exec B :=
  fun exe =>
    match m exe with
    | (Ok a, exe') => k a exe'
    | (Err e, exe') => (Err e, exe')
    | (Panic msg, exe') => (Panic msg, exe')
    end.

Definition lift {A} (r : Res A) : Exec A := fun exe => (r, exe).

Definition fail {A} (e : Error) : Exec A := lift (Err e).

Definition gets {A} (f : executor -> A) : Exec A := fun exe => (Ok (f exe), exe).

Definition modify (f : executor -> executor) : Exec unit :=
  fun exe => (Ok tt, f exe).

Declare Scope exec_scope.
Delimit Scope exec_scope with exec.
Notation "x <- m ;; k" := (exec_bind m (fun x => k))
  (at level 100, m at next level, right associativity) : exec_scope.

Section Execution.

Context {txs : Txs} {crypto : Crypto} {permission : Permission} {evm : Evm}.

(** ** Validation kernel *)

Definition checkInputPubKey (acc : Account) (i : TxInput)
  : Res (Account * TxInput) :=
  match acc_PublicKey acc with
  | None =>
      match in_PubKey i with
      | None => Err ErrTxUnknownPubKey
      | Some key =>
          let addressFromPubKey := PubKey_Address key in
          let addressFromAccount := acc_Address acc in
          if decide (addressFromPubKey = addressFromAccount)
          then Ok (SetPublicKey acc (in_PubKey i), i)
          else Err ErrTxInvalidPubKey
      end
  | Some _ =>
      Ok (acc, mkTxInput (in_Address i) (in_Amount i) (in_Sequence i)
                         (in_Signature i) None)
  end.

Definition validateInput (acc : Account) (signBytes : Bytes) (i : TxInput)
  : option Error :=
  match TxInput_ValidateBasic i with
  | Some err => Some err
  | None =>
      if negb (VerifyBytes (acc_PublicKey acc) signBytes (in_Signature i))
      then Some ErrTxInvalidSignature
      else if negb (uint64 (acc_Sequence acc + 1) =? in_Sequence i)
      then Some (ErrTxInvalidSequence (in_Sequence i)
                                      (uint64 (acc_Sequence acc + 1)))
      else if acc_Balance acc <? in_Amount i
      then Some ErrTxInsufficientFunds
      else None
  end.

Fixpoint validateInputs_from (total : Z) (accs : gmap N Account)
  (signBytes : Bytes) (ins : list TxInput) : Res Z :=
  match ins with
  | [] => Ok total
  | i :: ins' =>
      match accs !! in_Address i with
      | None => Panic "validateInputs() expects account in accounts"
      | Some acc =>
          match validateInput acc signBytes i with
          | Some err => Err err
          | None =>
              validateInputs_from (uint64 (total + in_Amount i)) accs
                                  signBytes ins'
          end
      end
  end.

Definition validateInputs (accs : gmap N Account) (signBytes : Bytes)
  (ins : list TxInput) : Res Z :=
  validateInputs_from 0 accs signBytes ins.

Fixpoint validateOutputs_from (total : Z) (outs : list TxOutput) : Res Z :=
  match outs with
  | [] => Ok total
  | o :: outs' =>
      match TxOutput_ValidateBasic o with
      | Some err => Err err
      | None => validateOutputs_from (uint64 (total + out_Amount o)) outs'
      end
  end.

Definition validateOutputs (outs : list TxOutput) : Res Z :=
  validateOutputs_from 0 outs.

Fixpoint adjustByInputs (accs : gmap N Account) (ins : list TxInput)
  : Res (gmap N Account) :=
  match ins with
  | [] => Ok accs
  | i :: ins' =>
      match accs !! in_Address i with
      | None => Panic "adjustByInputs() expects account in accounts"
      | Some acc =>
          if acc_Balance acc <? in_Amount i
          then Panic "adjustByInputs() expects sufficient funds"
          else
            adjustByInputs
              (<[in_Address i :=
                   IncSequence (SubtractFromBalance acc (in_Amount i))]> accs)
              ins'
      end
  end.

Fixpoint adjustByOutputs (accs : gmap N Account) (outs : list TxOutput)
  : Res (gmap N Account) :=
  match outs with
  | [] => Ok accs
  | o :: outs' =>
      match accs !! out_Address o with
      | None => Panic "adjustByOutputs() expects account in accounts"
      | Some acc =>
          adjustByOutputs
            (<[out_Address o := AddToBalance acc (out_Amount o)]> accs) outs'
      end
  end.

(** ** Permission engine *)

(** Modelled from the spec: [BasePermissions.Get], [Set] and [Unset]
    (permission/types is not among the sources), §4.3: a flag has a value
    only when it is set in the mask [SetBit]; [None] is [ErrValueNotSet]. *)
Definition Base_Get (p : BasePermissions) (ty : Z) : option bool :=
  if Z.land (SetBit p) ty =? 0 then None
  else Some (0 <? Z.land (Perms p) ty).

Definition Base_Set (p : BasePermissions) (ty : Z) (value : bool)
  : BasePermissions :=
  mkBasePermissions
    (if value then Z.lor (Perms p) ty else Z.ldiff (Perms p) ty)
    (Z.lor (SetBit p) ty).

Definition Base_Unset (p : BasePermissions) (ty : Z) : BasePermissions :=
  mkBasePermissions (Perms p) (Z.ldiff (SetBit p) ty).

(** Modelled from the spec: [AccountPermissions.AddRole] and [RmRole],
    §4.3: set insertion and removal, [None] when the role is already there
    (respectively missing). *)
Definition AccountPermissions_AddRole (perms : AccountPermissions)
  (role : string) : option AccountPermissions :=
  if decide (role ∈ Roles perms) then None
  else Some (mkAccountPermissions (Base perms) (Roles perms ++ [role])).

Definition AccountPermissions_RmRole (perms : AccountPermissions)
  (role : string) : option AccountPermissions :=
  if decide (role ∈ Roles perms)
  then Some (mkAccountPermissions
               (Base perms)
               (filter (fun r => r ≠ role) (Roles perms)))
  else None.

(** Modelled from the spec: [permission.GlobalPermissionsAccount], §7: a
    missing global permissions account is fatal. *)
Definition GlobalPermissionsAccount (getter : BlockCache) : Res Account :=
  match GetAccount getter GlobalPermissionsAddress with
  | Some acc => Ok acc
  | None => Panic "Could not get GlobalPermission account"
  end.

Definition GlobalAccountPermissions (getter : BlockCache)
  : Res AccountPermissions :=
  (acc <- GlobalPermissionsAccount getter ;; Ok (acc_Permissions acc))%res.

(** [HasPermission] recurses once, with a nil [accountGetter], on the global
    permissions account: [HasPermission_nil] is that inner call. *)
Definition HasPermission_nil (acc : Account) (perm : Z) : Res bool :=
  if permission_AllPermFlags <? perm
  then Panic "Checking an unknown permission in state should never happen"
  else
    match Base_Get (Base (acc_Permissions acc)) perm with
    | None => Panic "All known global permissions should be set!"
    | Some v => Ok v
    end.

Definition HasPermission (accountGetter : BlockCache) (acc : Account)
  (perm : Z) : Res bool :=
  if permission_AllPermFlags <? perm
  then Panic "Checking an unknown permission in state should never happen"
  else
    match Base_Get (Base (acc_Permissions acc)) perm with
    | None =>
        (global <- GlobalPermissionsAccount accountGetter ;;
         HasPermission_nil global perm)%res
    | Some v => Ok v
    end.

(** [for _, acc := range accs { if !HasPermission(...) { return false } }]:
    Go leaves the order of a map range open; the model takes the order of
    [map_to_list]. *)
Fixpoint allHavePermission (accountGetter : BlockCache)
  (accs : list (N * Account)) (perm : Z) : Res bool :=
  match accs with
  | [] => Ok true
  | (_, acc) :: accs' =>
      (has <- HasPermission accountGetter acc perm ;;
       if negb has then Ok false
       else allHavePermission accountGetter accs' perm)%res
  end.

Definition hasSendPermission (accountGetter : BlockCache)
  (accs : gmap N Account) : Res bool :=
  allHavePermission accountGetter (map_to_list accs) permission_Send.

Definition hasNamePermission (accountGetter : BlockCache) (acc : Account)
  : Res bool :=
  HasPermission accountGetter acc permission_Name.

Definition hasCallPermission (accountGetter : BlockCache) (acc : Account)
  : Res bool :=
  HasPermission accountGetter acc permission_Call.

Definition hasCreateContractPermission (accountGetter : BlockCache)
  (acc : Account) : Res bool :=
  HasPermission accountGetter acc permission_CreateContract.

Definition hasCreateAccountPermission (accountGetter : BlockCache)
  (accs : gmap N Account) : Res bool :=
  allHavePermission accountGetter (map_to_list accs) permission_CreateAccount.

(** ** Inputs and outputs of a SendTx *)

(** [getInputs]: the accounts of the inputs, by address, and the inputs as
    [checkInputPubKey] leaves them (it clears [PubKey] in place). *)
Fixpoint getInputs_from (accounts : gmap N Account) (accountGetter : BlockCache)
  (ins : list TxInput) : Res (gmap N Account * list TxInput) :=
  match ins with
  | [] => Ok (accounts, [])
  | i :: ins' =>
      match accounts !! in_Address i with
      | Some _ => Err ErrTxDuplicateAddress
      | None =>
          match GetMutableAccount accountGetter (in_Address i) with
          | None => Err ErrTxInvalidAddress
          | Some acc =>
              (bound <- checkInputPubKey acc i ;;
               rest <- getInputs_from (<[in_Address i := bound.1]> accounts)
                                      accountGetter ins' ;;
               Ok (rest.1, bound.2 :: rest.2))%res
          end
      end
  end.

Definition getInputs (accountGetter : BlockCache) (ins : list TxInput)
  : Res (gmap N Account * list TxInput) :=
  getInputs_from ∅ accountGetter ins.

Fixpoint getOrMakeOutputs_from (checkedCreatePerms : bool)
  (accountGetter : BlockCache) (accs : gmap N Account) (outs : list TxOutput)
  : Res (gmap N Account) :=
  match outs with
  | [] => Ok accs
  | o :: outs' =>
      match accs !! out_Address o with
      | Some _ => Err ErrTxDuplicateAddress
      | None =>
          match GetMutableAccount accountGetter (out_Address o) with
          | Some acc =>
              getOrMakeOutputs_from checkedCreatePerms accountGetter
                                    (<[out_Address o := acc]> accs) outs'
          | None =>
              (can <- (if checkedCreatePerms then Ok true
                       else hasCreateAccountPermission accountGetter accs) ;;
               if negb can then Err ErrCreateAccountPermission
               else
                 getOrMakeOutputs_from true accountGetter
                   (<[out_Address o :=
                        mkAccount (out_Address o) None 0 0 [] []
                                  ZeroAccountPermissions]> accs) outs')%res
          end
      end
  end.

Definition getOrMakeOutputs (accountGetter : BlockCache)
  (accs : gmap N Account) (outs : list TxOutput) : Res (gmap N Account) :=
  getOrMakeOutputs_from false accountGetter accs outs.

(** ** The dispatcher *)

Local Open Scope exec_scope.

Definition updateAccount (acc : Account) : Exec unit :=
  modify (fun exe => set_blockCache exe (UpdateAccount (blockCache exe) acc)).

Definition fire (events : list Event) : Exec unit :=
  modify (fun exe => Fire exe events).

(** *** SendTx

    The result is the local variable [fees], which [Execute] drops. *)
Definition ExecuteSendTx (tx : SendTx) : Exec Z :=
  let fees := 0 in
  cache <- gets blockCache ;;
  got <- lift (getInputs cache (send_Inputs tx)) ;;
  let accounts := got.1 in
  (* [getInputs] has modified the inputs of [tx] in place *)
  let tx := mkSendTx got.2 (send_Outputs tx) in
  has <- lift (hasSendPermission cache accounts) ;;
  if negb has then fail ErrSendPermission else
  accounts <- lift (getOrMakeOutputs cache accounts (send_Outputs tx)) ;;
  chain <- gets chainID ;;
  let signBytes := SignBytes chain (TxSend tx) in
  inTotal <- lift (validateInputs accounts signBytes (send_Inputs tx)) ;;
  outTotal <- lift (validateOutputs (send_Outputs tx)) ;;
  if inTotal <? outTotal then fail ErrTxInsufficientFunds else
  let fee := uint64 (inTotal - outTotal) in
  let fees := uint64 (fees + fee) in
  accounts <- lift (adjustByInputs accounts (send_Inputs tx)) ;;
  accounts <- lift (adjustByOutputs accounts (send_Outputs tx)) ;;
  _ <- modify (fun exe =>
         set_blockCache exe
           (map_fold (fun _ acc cache => UpdateAccount cache acc)
                     (blockCache exe) accounts)) ;;
  _ <- fire (map (fun i => EventTx (EventStringAccInput (in_Address i))
                                   (mkEventDataTx (TxSend tx) [] None))
                 (send_Inputs tx)) ;;
  _ <- fire (map (fun o => EventTx (EventStringAccOutput (out_Address o))
                                   (mkEventDataTx (TxSend tx) [] None))
                 (send_Outputs tx)) ;;
  exec_ret fees.

(** *** CallTx *)

(** Modelled from the spec: [binary.LeftPadWord256], §4.5 step 8: the
    block hash left-padded to 32 bytes. *)
Definition LeftPadWord256 (bz : Bytes) : Bytes :=
  repeat Byte.x00 (32 - length bz)%nat ++ bz.

(** Modelled from the spec: [evm.DeriveNewAccount], §6: it increments the
    sequence of the creator, derives the address of the new account from
    the creator's address and its sequence before the increment, and gives
    the new account the given permissions. The result is the creator as the
    call leaves it, and the new account. *)
Definition DeriveNewAccount (creator : Account)
  (permissions : AccountPermissions) : Account * Account :=
  let sequence := acc_Sequence creator in
  (IncSequence creator,
   mkAccount (NewContractAddress (acc_Address creator) sequence) None 0 0
             [] [] permissions).

(** The block [if exe.runCall { ... }] of the CallTx case. [inAcc] has been
    debited and written to the block cache. The Tx cache stores the caller
    and callee objects themselves, so that the entries it syncs for their
    addresses are these objects as the VM and [SetCode] leave them. *)
Definition runCallTx (tx : CallTx) (inAcc : Account) (outAcc : option Account)
  (value : Z) : Exec unit :=
  let createContract := bool_decide (call_Address tx = None) in
  let gas := call_GasLimit tx in
  let caller := inAcc in
  cache <- gets blockCache ;;
  let txCache := NewTxCache cache in
  t <- gets tip ;;
  let params := mkParams (LastBlockHeight t) (LeftPadWord256 (LastBlockHash t))
                         (LastBlockTime t) GasLimit in
  completed <-
    (if negb createContract &&
        match outAcc with
        | None => true
        | Some acc => bool_decide (length (acc_Code acc) = 0%nat)
        end
     then exec_ret ([], Some ErrTxInvalidAddress)
     else
       pair <-
         (if createContract
          then
            st <- gets state ;;
            perms <- lift (GlobalAccountPermissions st) ;;
            exec_ret (DeriveNewAccount caller perms, call_Data tx)
          else
            match outAcc with
            | Some acc => exec_ret ((caller, acc), acc_Code acc)
            | None => lift (Panic "nil callee")
            end) ;;
       let caller := pair.1.1 in
       let callee := pair.1.2 in
       let code := pair.2 in
       let txCache := TxCache_UpdateAccount txCache caller in
       let txCache := TxCache_UpdateAccount txCache callee in
       chain <- gets chainID ;;
       let r := vm_Call params (acc_Address caller) (TxHash chain (TxCall tx))
                        txCache caller callee code (call_Data tx) value gas in
       _ <- fire (map (fun ev => EventVM ev.1 ev.2) (res_events r)) ;;
       match res_err r with
       | Some err => exec_ret (res_ret r, Some err)
       | None =>
           let callee := if createContract
                         then SetCode (res_callee r) (res_ret r)
                         else res_callee r in
           let txCache :=
             TxCache_UpdateAccount
               (TxCache_UpdateAccount (res_cache r) (res_caller r)) callee in
           _ <- modify (fun exe =>
                  set_blockCache exe (TxCache_Sync txCache (blockCache exe))) ;;
           exec_ret (res_ret r, None)
       end) ;;
  (* CALL_COMPLETE *)
  let ret := completed.1 in
  let exception := completed.2 in
  _ <- fire [EventTx (EventStringAccInput (in_Address (call_Input tx)))
                     (mkEventDataTx (TxCall tx) ret exception)] ;;
  match call_Address tx with
  | Some address =>
      fire [EventTx (EventStringAccOutput address)
                    (mkEventDataTx (TxCall tx) ret exception)]
  | None => exec_ret tt
  end.

Definition ExecuteCallTx (tx : CallTx) : Exec unit :=
  cache <- gets blockCache ;;
  match GetMutableAccount cache (in_Address (call_Input tx)) with
  | None => fail ErrTxInvalidAddress
  | Some inAcc =>
      let createContract := bool_decide (call_Address tx = None) in
      has <- lift (if createContract
                   then hasCreateContractPermission cache inAcc
                   else hasCallPermission cache inAcc) ;;
      if negb has
      then fail (if createContract
                 then ErrCreateContractPermission (in_Address (call_Input tx))
                 else ErrCallPermission (in_Address (call_Input tx)))
      else
      bound <- lift (checkInputPubKey inAcc (call_Input tx)) ;;
      let inAcc := bound.1 in
      (* [checkInputPubKey] has modified [tx.Input] in place *)
      let tx := mkCallTx bound.2 (call_Address tx) (call_GasLimit tx)
                         (call_Fee tx) (call_Data tx) in
      chain <- gets chainID ;;
      let signBytes := SignBytes chain (TxCall tx) in
      _ <- lift (check (validateInput inAcc signBytes (call_Input tx))) ;;
      if in_Amount (call_Input tx) <? call_Fee tx
      then fail ErrTxInsufficientFunds
      else
      outAcc <-
        match call_Address tx with
        | Some address =>
            if RegisteredNativeContract address
            then fail (ErrNativeContract address)
            else exec_ret (GetAccount cache address)
        | None => exec_ret None
        end ;;
      let value := uint64 (in_Amount (call_Input tx) - call_Fee tx) in
      let inAcc := SubtractFromBalance (IncSequence inAcc) (call_Fee tx) in
      _ <- updateAccount inAcc ;;
      run <- gets runCall ;;
      if run then runCallTx tx inAcc outAcc value
      else
        let inAcc := SubtractFromBalance inAcc value in
        let inAcc := if createContract then IncSequence inAcc else inAcc in
        updateAccount inAcc
  end.

(** *** NameTx *)

(** Modelled from the spec: [txs.NameCostPerBlock], glossary: the base cost
    times the two cost multipliers. *)
Definition NameCostPerBlock (baseCost : Z) : Z :=
  uint64 (NameBlockCostMultiplier * NameByteCostMultiplier * baseCost).

(** Integer division of the source; Go panics on a zero divisor. *)
Definition divide (a b : Z) : Res Z :=
  if b =? 0 then Panic "integer divide by zero" else Ok (a / b).

Definition updateNameRegEntry (entry : NameRegEntry) : Exec unit :=
  modify (fun exe =>
    set_blockCache exe (UpdateNameRegEntry (blockCache exe) entry)).

Definition removeNameRegEntry (name : string) : Exec unit :=
  modify (fun exe =>
    set_blockCache exe (RemoveNameRegEntry (blockCache exe) name)).

Definition ExecuteNameTx (tx : NameTx) : Exec unit :=
  cache <- gets blockCache ;;
  match GetMutableAccount cache (in_Address (name_Input tx)) with
  | None => fail ErrTxInvalidAddress
  | Some inAcc =>
      has <- lift (hasNamePermission cache inAcc) ;;
      if negb has then fail (ErrNamePermission (in_Address (name_Input tx)))
      else
      bound <- lift (checkInputPubKey inAcc (name_Input tx)) ;;
      let inAcc := bound.1 in
      (* [checkInputPubKey] has modified [tx.Input] in place *)
      let tx := mkNameTx bound.2 (name_Name tx) (name_Data tx) (name_Fee tx) in
      chain <- gets chainID ;;
      let signBytes := SignBytes chain (TxName tx) in
      _ <- lift (check (validateInput inAcc signBytes (name_Input tx))) ;;
      if in_Amount (name_Input tx) <? name_Fee tx
      then fail ErrTxInsufficientFunds
      else
      _ <- lift (check (NameTx_ValidateStrings tx)) ;;
      let value := uint64 (in_Amount (name_Input tx) - name_Fee tx) in
      let costPerBlock :=
        NameCostPerBlock (NameBaseCost (name_Name tx) (name_Data tx)) in
      expiresIn <- lift (divide value costPerBlock) ;;
      t <- gets tip ;;
      let lastBlockHeight := LastBlockHeight t in
      _ <-
        match GetNameRegEntry cache (name_Name tx) with
        | Some entry =>
            expired <-
              (if lastBlockHeight <? entry_Expires entry
               then
                 if decide (entry_Owner entry ≠ in_Address (name_Input tx))
                 then fail (ErrNameNotOwner (in_Address (name_Input tx))
                                            (name_Name tx))
                 else exec_ret false
               else exec_ret true) ;;
            if (value =? 0) && bool_decide (String.length (name_Data tx) = 0%nat)
            then removeNameRegEntry (entry_Name entry)
            else
              entry <-
                (if expired : bool
                 then
                   if expiresIn <? MinNameRegistrationPeriod
                   then fail (ErrNameTooShort MinNameRegistrationPeriod)
                   else exec_ret
                          (mkNameRegEntry
                             (entry_Name entry)
                             (in_Address (name_Input tx))
                             (entry_Data entry)
                             (uint64 (lastBlockHeight + expiresIn)))
                 else
                   let oldCredit :=
                     uint64 (uint64 (entry_Expires entry - lastBlockHeight) *
                             NameBaseCost (entry_Name entry)
                                          (entry_Data entry)) in
                   let credit := uint64 (oldCredit + value) in
                   expiresIn <- lift (divide credit costPerBlock) ;;
                   if expiresIn <? MinNameRegistrationPeriod
                   then fail (ErrNameTooShort MinNameRegistrationPeriod)
                   else exec_ret
                          (mkNameRegEntry
                             (entry_Name entry)
                             (entry_Owner entry)
                             (entry_Data entry)
                             (uint64 (lastBlockHeight + expiresIn)))) ;;
              let entry := mkNameRegEntry (entry_Name entry) (entry_Owner entry)
                                          (name_Data tx) (entry_Expires entry) in
              updateNameRegEntry entry
        | None =>
            if expiresIn <? MinNameRegistrationPeriod
            then fail (ErrNameTooShort MinNameRegistrationPeriod)
            else
              updateNameRegEntry
                (mkNameRegEntry (name_Name tx) (in_Address (name_Input tx))
                                (name_Data tx)
                                (uint64 (lastBlockHeight + expiresIn)))
        end ;;
      let inAcc := IncSequence inAcc in
      let inAcc := SubtractFromBalance inAcc value in
      _ <- updateAccount inAcc ;;
      _ <- fire [EventTx (EventStringAccInput (in_Address (name_Input tx)))
                         (mkEventDataTx (TxName tx) [] None)] ;;
      fire [EventTx (EventStringNameReg (name_Name tx))
                    (mkEventDataTx (TxName tx) [] None)]
  end.

(** *** PermissionsTx *)

(** [mutatePermissions]: the account at [address] with its permissions
    mutated, and the error of the mutator. The account is returned also
    when the mutator fails; the dispatcher then returns the error. *)
Definition mutatePermissions (stateReader : BlockCache) (address : Address)
  (mutator : AccountPermissions -> Res AccountPermissions)
  : Res Account :=
  match GetAccount stateReader address with
  | None => Err (ErrAccountNotFound address)
  | Some account =>
      (perms <- mutator (acc_Permissions account) ;;
       Ok (SetPermissions account perms))%res
  end.

Definition ExecutePermissionsTx (tx : PermissionsTx) : Exec unit :=
  cache <- gets blockCache ;;
  match GetMutableAccount cache (in_Address (perm_Input tx)) with
  | None => fail ErrTxInvalidAddress
  | Some inAcc =>
      let permFlag := pa_PermFlag (perm_PermArgs tx) in
      has <- lift (HasPermission cache inAcc permFlag) ;;
      if negb has
      then fail (ErrModeratorPermission (in_Address (perm_Input tx)) permFlag)
      else
      bound <- lift (checkInputPubKey inAcc (perm_Input tx)) ;;
      let inAcc := bound.1 in
      (* [checkInputPubKey] has modified [tx.Input] in place *)
      let tx := mkPermissionsTx bound.2 (perm_PermArgs tx) in
      chain <- gets chainID ;;
      let signBytes := SignBytes chain (TxPermissions tx) in
      _ <- lift (check (validateInput inAcc signBytes (perm_Input tx))) ;;
      let value := in_Amount (perm_Input tx) in
      let args := perm_PermArgs tx in
      permAcc <- lift
        (if decide (permFlag = permission_HasBase) then Err ErrHasBaseFromTx
         else if decide (permFlag = permission_SetBase) then
           mutatePermissions cache (pa_Address args) (fun perms =>
             Ok (mkAccountPermissions
                   (Base_Set (Base perms) (pa_Permission args) (pa_Value args))
                   (Roles perms)))
         else if decide (permFlag = permission_UnsetBase) then
           mutatePermissions cache (pa_Address args) (fun perms =>
             Ok (mkAccountPermissions
                   (Base_Unset (Base perms) (pa_Permission args))
                   (Roles perms)))
         else if decide (permFlag = permission_SetGlobal) then
           mutatePermissions cache GlobalPermissionsAddress (fun perms =>
             Ok (mkAccountPermissions
                   (Base_Set (Base perms) (pa_Permission args) (pa_Value args))
                   (Roles perms)))
         else if decide (permFlag = permission_HasRole) then Err ErrHasRoleFromTx
         else if decide (permFlag = permission_AddRole) then
           mutatePermissions cache (pa_Address args) (fun perms =>
             match AccountPermissions_AddRole perms (pa_Role args) with
             | Some perms' => Ok perms'
             | None => Err (ErrRoleExists (pa_Role args) (pa_Address args))
             end)
         else if decide (permFlag = permission_RemoveRole) then
           mutatePermissions cache (pa_Address args) (fun perms =>
             match AccountPermissions_RmRole perms (pa_Role args) with
             | Some perms' => Ok perms'
             | None => Err (ErrRoleMissing (pa_Role args) (pa_Address args))
             end)
         else Panic "invalid permission function") ;;
      let inAcc := IncSequence inAcc in
      let inAcc := SubtractFromBalance inAcc value in
      _ <- updateAccount inAcc ;;
      _ <- updateAccount permAcc ;;
      _ <- fire [EventTx (EventStringAccInput (in_Address (perm_Input tx)))
                         (mkEventDataTx (TxPermissions tx) [] None)] ;;
      fire [EventTx (EventStringPermissions permFlag)
                    (mkEventDataTx (TxPermissions tx) [] None)]
  end.

(** *** Execute *)

Definition Execute_ (tx : Tx) : Exec unit :=
  match tx with
  | TxSend tx => _ <- ExecuteSendTx tx ;; exec_ret tt
  | TxCall tx => ExecuteCallTx tx
  | TxName tx => ExecuteNameTx tx
  | TxPermissions tx => ExecutePermissionsTx tx
  end.

(** [Execute exe tx]: what the call returns ([Ok tt] is a nil error) and the
    executor afterwards. *)
Definition Execute (exe : executor) (tx : Tx) : Res unit * executor :=
  Execute_ tx exe.

End Execution.

(** ** A concrete set of collaborators

    Used to run the model on concrete transactions: an input is valid when
    its amount is not zero, a signature verifies when it equals the key,
    the address of a key is its length, the cost of a name for one block is
    [len(data) + 32] with both multipliers 1, and the VM moves the value and
    returns the code it ran, unless the code starts with the byte [0xfe]. *)
Module Example.

#[export] Instance example_txs : Txs := {|
  TxInput_ValidateBasic i :=
    if in_Amount i =? 0 then Some ErrTxInvalidAmount else None;
  TxOutput_ValidateBasic o :=
    if out_Amount o =? 0 then Some ErrTxInvalidAmount else None;
  NameTx_ValidateStrings tx :=
    if bool_decide (String.length (name_Name tx) = 0%nat)
    then Some ErrTxInvalidString else None;
  NameBaseCost name data := Z.of_nat (String.length data) + 32;
  NameByteCostMultiplier := 1;
  NameBlockCostMultiplier := 1;
  MinNameRegistrationPeriod := 5
|}.

#[export] Instance example_crypto : Crypto := {|
  SignBytes chain tx := [];
  VerifyBytes key signBytes signature :=
    match key with
    | Some k => bool_decide (signature = k)
    | None => false
    end;
  PubKey_Address key := N.of_nat (length key)
|}.

#[export] Instance example_permission : Permission := {|
  permission_Send := 2;
  permission_Call := 4;
  permission_CreateContract := 8;
  permission_CreateAccount := 16;
  permission_Name := 64;
  permission_HasBase := 128;
  permission_SetBase := 256;
  permission_UnsetBase := 512;
  permission_SetGlobal := 1024;
  permission_HasRole := 2048;
  permission_AddRole := 4096;
  permission_RemoveRole := 8192;
  permission_AllPermFlags := 16383;
  GlobalPermissionsAddress := 0%N
|}.

Definition example_call (params : Params) (origin : N) (txHash : list Byte.byte)
  (cache : TxCache) (caller callee : Account) (code input : list Byte.byte)
  (value gas : Z) : CallResult :=
  if acc_Balance caller <? value
  then mkCallResult cache caller callee gas [] [] (Some ErrTxInsufficientFunds)
  else
    match code with
    | Byte.xfe :: _ =>
        mkCallResult cache caller callee gas [] []
                     (Some (ErrOther "invalid opcode"))
    | _ =>
        mkCallResult cache (SubtractFromBalance caller value)
                     (AddToBalance callee value) gas [] code None
    end.

#[export] Instance example_evm : Evm := {|
  RegisteredNativeContract a := false;
  NewContractAddress a sequence := (a + 1000 + Z.to_N sequence)%N;
  GasLimit := 1000000;
  TxHash chain tx := [];
  vm_Call := example_call
|}.

(** Every permission set and granted. *)
Definition allPermissions : AccountPermissions :=
  mkAccountPermissions (mkBasePermissions 16383 16383) [].

(** An account known by address only: no public key yet. *)
Definition stub (addr : N) (balance : Z) : Account :=
  mkAccount addr None 0 balance [] [] allPermissions.

(** The key of length [n], whose address is [n]. *)
Definition key (n : nat) : list Byte.byte := repeat Byte.x01 n.

Definition account (n : nat) (sequence balance : Z) : Account :=
  mkAccount (N.of_nat n) (Some (key n)) sequence balance [] [] allPermissions.

Definition input (n : nat) (amount sequence : Z) : TxInput :=
  mkTxInput (N.of_nat n) amount sequence (key n) None.

Definition cache_of (accs : list Account) (entries : list NameRegEntry)
  : BlockCache :=
  mkBlockCache (list_to_map (map (fun acc => (acc_Address acc, acc)) accs)) ∅
               (list_to_map (map (fun e => (entry_Name e, e)) entries)).

Definition global : Account := stub 0 0.

Definition executor_of (runCall : bool) (height : Z) (cache : BlockCache)
  : executor :=
  mkExecutor "chain" (mkTip height [] 0) runCall cache cache [] [].

End Example.

(** ** Well-formed data and auxiliary notions *)

(** An account holds [uint64] fields, and its sequence is not about to wrap
    around: a transaction increments it at most twice. *)
Definition wf_account (acc : Account) : Prop :=
  is_uint64 (acc_Balance acc) /\
  0 <= acc_Sequence acc /\ acc_Sequence acc + 2 < 2 ^ 64.

(** Every cached account is well formed and stored under its own address. *)
Definition wf_cache (cache : BlockCache) : Prop :=
  map_Forall (fun addr acc => acc_Address acc = addr /\ wf_account acc)
             (accounts cache).

(** The amounts of the inputs of a SendTx are [uint64] values. *)
Definition wf_SendTx (tx : SendTx) : Prop :=
  Forall (fun i => is_uint64 (in_Amount i)) (send_Inputs tx).

#[global] Instance is_uint64_dec (z : Z) : Decision (is_uint64 z).
Proof. unfold is_uint64. apply _. Defined.

#[global] Instance wf_account_dec (acc : Account) : Decision (wf_account acc).
Proof. unfold wf_account. apply _. Defined.

#[global] Instance wf_cache_dec (cache : BlockCache) : Decision (wf_cache cache).
Proof. unfold wf_cache. apply _. Defined.

#[global] Instance wf_SendTx_dec (tx : SendTx) : Decision (wf_SendTx tx).
Proof. unfold wf_SendTx. apply _. Defined.

(** [checkInputPubKey] changes nothing of the account but its public key,
    and nothing of the input but its public key. *)
Definition same_funds (acc acc' : Account) : Prop :=
  acc_Address acc' = acc_Address acc /\
  acc_Sequence acc' = acc_Sequence acc /\
  acc_Balance acc' = acc_Balance acc /\
  acc_Code acc' = acc_Code acc /\
  acc_StorageRoot acc' = acc_StorageRoot acc /\
  acc_Permissions acc' = acc_Permissions acc.

Definition same_input (i i' : TxInput) : Prop :=
  in_Address i' = in_Address i /\
  in_Amount i' = in_Amount i /\
  in_Sequence i' = in_Sequence i /\
  in_Signature i' = in_Signature i.

(** The account [getOrMakeOutputs] makes for an unknown output address. *)
Definition newAccount (addr : N) : Account :=
  mkAccount addr None 0 0 [] [] ZeroAccountPermissions.

(** The same executor with another [runCall] flag: a checker and a
    committer over the same state differ in nothing else that [Execute]
    reads. *)
Definition set_runCall (exe : executor) (run : bool) : executor :=
  mkExecutor (chainID exe) (tip exe) run (state exe)
             (blockCache exe) (eventCache exe) (fired exe).

(** The exception an event of the executor carries, if any. *)
Definition exception_of (e : Event) : option Error :=
  match e with
  | EventTx _ data => ev_Exception data
  | EventVM _ _ => None
  end.

(** A call has failed when one of the events that [Execute] has fired for
    it carries an exception: at CALL_COMPLETE the executor fires the
    [AccInput] event of the caller with the error of the call, the VM error
    or [ErrTxInvalidAddress] for a callee without code. *)
Definition callFailed (exe exe' : executor) : Prop :=
  Exists (fun e => exception_of e <> None)
         (drop (length (eventCache exe)) (eventCache exe')).

#[global] Instance callFailed_dec (exe exe' : executor)
  : Decision (callFailed exe exe').
Proof. unfold callFailed. apply _. Defined.

(** The contract of the VM this development relies on for a successful
    call: it changes neither the address nor the sequence of the caller it
    is given, nor the address of the callee (it moves the value and runs the
    code). *)
Definition vm_keeps_caller `{Evm} : Prop :=
  forall params origin txHash cache caller callee code input value gas,
    let r := vm_Call params origin txHash cache caller callee code input
                     value gas in
    res_err r = None ->
    acc_Address (res_caller r) = acc_Address caller /\
    acc_Sequence (res_caller r) = acc_Sequence caller /\
    acc_Address (res_callee r) = acc_Address callee.

(** The callee of a CallTx as the block cache has it. *)
Definition callee_of (cache : BlockCache) (tx : CallTx) : option Account :=
  match call_Address tx with
  | Some address => GetAccount cache address
  | None => None
  end.

(** The caller, the callee and the code of the VM invocation of the commit
    path. *)
Definition call_parties `{Permission} `{Evm} (exe : executor) (tx : CallTx) (inAcc : Account)
  (outAcc : option Account) : Res (Account * Account * list Byte.byte) :=
  match call_Address tx with
  | None =>
      (perms <- GlobalAccountPermissions (state exe) ;;
       Ok (DeriveNewAccount inAcc perms, call_Data tx))%res
  | Some _ =>
      match outAcc with
      | Some acc => Ok ((inAcc, acc), acc_Code acc)
      | None => Panic "nil callee"
      end
  end.

(** The account whose permissions a PermissionsTx mutates: the global
    permissions account for [SetGlobal], the account of the arguments
    otherwise. *)
Definition perm_target `{Permission} (tx : PermissionsTx) : Address :=
  let args := perm_PermArgs tx in
  let permFlag := pa_PermFlag args in
  if decide (permFlag = permission_SetBase) then pa_Address args
  else if decide (permFlag = permission_UnsetBase) then pa_Address args
  else if decide (permFlag = permission_SetGlobal)
       then GlobalPermissionsAddress
       else pa_Address args.

(** The amounts a transaction carries are [uint64] values. *)
Definition wf_Tx (tx : Tx) : Prop :=
  match tx with
  | TxSend tx => wf_SendTx tx
  | TxCall tx => is_uint64 (call_Fee tx)
  | TxName tx => is_uint64 (name_Fee tx)
  | TxPermissions tx => is_uint64 (in_Amount (perm_Input tx))
  end.

#[global] Instance wf_Tx_dec (tx : Tx) : Decision (wf_Tx tx).
Proof. destruct tx; cbn; apply _. Defined.


(** The sums of the amounts, as mathematical integers. *)
Definition sum_inputs (ins : list TxInput) : Z :=
  foldr (fun i total => in_Amount i + total) 0 ins.

Definition sum_outputs (outs : list TxOutput) : Z :=
  foldr (fun o total => out_Amount o + total) 0 outs.

(** Proof steps for the state monad of [Execute]. *)
Ltac exec_unfold :=
  unfold updateAccount, fire, updateNameRegEntry, removeNameRegEntry, fail
    in *;
  unfold exec_bind, exec_ret, lift, gets, modify in *;
  cbv beta iota zeta in *.

(** Case analysis on the next step of a computation. *)
Ltac exec_step :=
  match goal with
  | |- context [match ?x with _ => _ end] =>
      lazymatch x with
      | context [match _ with _ => _ end] => fail
      | _ => destruct x eqn:?
      end
  end; cbv beta iota zeta; try discriminate.

(** A decidable proposition that evaluates to true. *)
Ltac decide_by_computation :=
  refine (bool_decide_unpack _ _); vm_compute; exact I.

(** ** Notions for the further properties *)

(** What [Execute] never writes: the chain id, the tip, the [runCall] flag,
    the backing state and the events already flushed. *)
Definition same_setting (exe exe' : executor) : Prop :=
  chainID exe' = chainID exe /\ tip exe' = tip exe /\
  runCall exe' = runCall exe /\ state exe' = state exe /\
  fired exe' = fired exe.



(** The panics of the permission lookup: [HasPermission] on an unknown
    permission flag or on a flag that neither the account nor the global
    permissions account sets, and [GlobalPermissionsAccount] without that
    account. *)
Definition permission_panics : list string :=
  ["Checking an unknown permission in state should never happen";
   "All known global permissions should be set!";
   "Could not get GlobalPermission account"]%string.

(** The balance the block cache holds at an address (0 where there is no
    account), and the sum of the balances at a list of addresses. *)
Definition balance_at (cache : BlockCache) (a : Address) : Z :=
  default 0 (acc_Balance <$> accounts cache !! a).

Definition total_balance (cache : BlockCache) (addrs : list Address) : Z :=
  foldr (fun a total => balance_at cache a + total) 0 addrs.

(** An input carries the sequence number that follows the one of its
    account in the block cache, and an amount the balance covers. *)
Definition input_in_order (cache : BlockCache) (i : TxInput) : Prop :=
  exists acc,
    accounts cache !! in_Address i = Some acc /\
    in_Sequence i = uint64 (acc_Sequence acc + 1) /\
    in_Amount i <= acc_Balance acc.

(** The inputs of a transaction. *)
Definition inputs_of (tx : Tx) : list TxInput :=
  match tx with
  | TxSend tx => send_Inputs tx
  | TxCall tx => [call_Input tx]
  | TxName tx => [name_Input tx]
  | TxPermissions tx => [perm_Input tx]
  end.

(** ** Sign and broadcast helpers (package rpc)

    [decodeAddressPermFlag] and [checkCommon] turn the strings of a command
    line into the parts of a transaction input. What they call outside the
    file is a parameter: [hex.DecodeString], [strconv.ParseUint] (base 10,
    64 bits), [permission.PermStringToFlag], [acm.AddressFromBytes] and
    [PublicKey.Address]. A Go call that returns [(value, err)] returns both
    here: the value is what the call returns beside its error. The text of
    a [fmt.Errorf] is kept up to its first verb. *)
Class Rpc := {
  hex_DecodeString : string -> Bytes * option Error;
  ParseUint : string -> Z * option Error;
  PermStringToFlag : string -> Z * option Error;
  AddressFromBytes : Bytes -> Address * option Error;
  PublicKey_Address : option Bytes -> Address
}.

(** [keys.KeyClient] and [client.NodeClient], as far as they are used. The
    node client is an interface value that may be nil; the account it
    returns may be nil too. *)
Record KeyClient := mkKeyClient {
  key_PublicKey : Address -> option Bytes * option Error
}.

Record NodeClient := mkNodeClient {
  node_GetAccount : Address -> option Account * option Error
}.

(** [copy(array[:], bz)] into a zeroed array of [n] bytes. *)
Definition copy_into (n : nat) (bz : Bytes) : Bytes :=
  take n bz ++ repeat Byte.x00 (n - length bz).

(** The address a 20-byte array stands for: the number its bytes encode. *)
Definition address_of_bytes (bz : Bytes) : Address :=
  fold_left (fun n b => (n * 256 + Byte.to_N b)%N) bz 0%N.

Definition ZeroAddress : Address := 0%N.

Section RpcHelpers.

Context {rpc : Rpc}.

Definition decodeAddressPermFlag (addrS permFlagS : string)
  : Address * Z * option Error :=
  let addr := ZeroAddress in
  let pFlag := 0 in
  let decoded := hex_DecodeString addrS in
  let addrBytes := decoded.1 in
  match decoded.2 with
  | Some err => (address_of_bytes (copy_into 20 addrBytes), pFlag, Some err)
  | None =>
      let parsed := PermStringToFlag permFlagS in
      let pFlag := parsed.1 in
      match parsed.2 with
      | Some err => (addr, pFlag, Some err)
      | None => (addr, pFlag, None)
      end
  end.

(** [checkCommon]: the public key, the amount, the nonce and the error it
    returns, or the panic of a method call on a nil client or account. *)
Definition checkCommon (nodeClient : option NodeClient) (keyClient : KeyClient)
  (pubkey addr amtS nonceS : string)
  : Res (option Bytes * Z * Z * option Error) :=
  let pub : option Bytes := None in
  let amt := 0 in
  let nonce := 0 in
  if bool_decide (amtS = EmptyString)
  then Ok (pub, amt, nonce,
           Some (ErrOther "input must specify an amount with the --amt flag"))
  else
  (* from [address = pub.Address()] on *)
  let finish (pub : option Bytes) (err : option Error) :=
    let address := PublicKey_Address pub in
    let parsed := ParseUint amtS in
    let amt := parsed.1 in
    let err := parsed.2 in
    let err := match err with
               | Some _ => Some (ErrOther "amt is misformatted")
               | None => err
               end in
    if bool_decide (nonceS = EmptyString)
    then
      match nodeClient with
      | None =>
          Ok (pub, amt, nonce,
              Some (ErrOther "input must specify a nonce with the --nonce flag or use --node-addr (or BURROW_CLIENT_NODE_ADDR) to fetch the nonce from a node"))
      | Some node =>
          let got := node_GetAccount node address in
          match got.2 with
          | Some err2 => Ok (pub, amt, nonce, Some err2)
          | None =>
              match got.1 with
              | None => Panic "nil pointer dereference"
              | Some account =>
                  let nonce := uint64 (acc_Sequence account + 1) in
                  Ok (pub, amt, nonce, err)
              end
          end
      end
    else
      let parsed := ParseUint nonceS in
      let nonce := parsed.1 in
      let err := parsed.2 in
      match err with
      | Some _ => Ok (pub, amt, nonce, Some (ErrOther "nonce is misformatted"))
      | None => Ok (pub, amt, nonce, err)
      end in
  if bool_decide (pubkey = EmptyString) && bool_decide (addr = EmptyString)
  then Ok (pub, amt, nonce,
           Some (ErrOther "at least one of --pubkey or --addr must be given"))
  else if negb (bool_decide (pubkey = EmptyString))
  then
    (* [nodeClient.Logger()] when both are given *)
    if negb (bool_decide (addr = EmptyString)) &&
       match nodeClient with None => true | Some _ => false end
    then Panic "nil pointer dereference"
    else
      let decoded := hex_DecodeString pubkey in
      let pubKeyBytes := decoded.1 in
      match decoded.2 with
      | Some _ => Ok (pub, amt, nonce, Some (ErrOther "pubkey is bad hex"))
      | None =>
          let pub := Some (copy_into 32 pubKeyBytes) in
          finish pub None
      end
  else
    let decoded := hex_DecodeString addr in
    let addressBytes := decoded.1 in
    match decoded.2 with
    | Some _ =>
        Ok (pub, amt, nonce, Some (ErrOther "Bad hex string for address"))
    | None =>
        let converted := AddressFromBytes addressBytes in
        let address := converted.1 in
        let err := match converted.2 with
                   | Some _ => Some (ErrOther "Could not convert bytes")
                   | None => None
                   end in
        let fetched := key_PublicKey keyClient address in
        let pub := fetched.1 in
        match fetched.2 with
        | Some _ =>
            Ok (pub, amt, nonce, Some (ErrOther "Failed to fetch pubkey for address"))
        | None => finish pub err
        end
    end.

End RpcHelpers.

(** A concrete set of the collaborators of the helpers, to run them: hex
    strings of lower-case digits, decimal numbers below [2^64], two
    permission names, and the key and node client of one account. *)
Module RpcExample.
Import Example.

Definition hex_digit (c : Ascii.ascii) : option N :=
  let n := Ascii.N_of_ascii c in
  if ((48 <=? n) && (n <=? 57))%N then Some (n - 48)%N
  else if ((97 <=? n) && (n <=? 102))%N then Some (n - 87)%N
  else None.

Fixpoint decode_hex (s : string) : Bytes * option Error :=
  match s with
  | EmptyString => ([], None)
  | String _ EmptyString => ([], Some (ErrOther "odd length hex string"))
  | String hi (String lo rest) =>
      match hex_digit hi, hex_digit lo with
      | Some h, Some l =>
          match Byte.of_N (h * 16 + l) with
          | Some b => let r := decode_hex rest in (b :: r.1, r.2)
          | None => ([], Some (ErrOther "invalid byte"))
          end
      | _, _ => ([], Some (ErrOther "invalid byte"))
      end
  end.

Fixpoint parse_digits (acc : Z) (s : string) : option Z :=
  match s with
  | EmptyString => Some acc
  | String c rest =>
      let n := Z.of_N (Ascii.N_of_ascii c) in
      if (48 <=? n) && (n <=? 57) then parse_digits (acc * 10 + (n - 48)) rest
      else None
  end.

Definition parse_uint (s : string) : Z * option Error :=
  match s with
  | EmptyString => (0, Some (ErrOther "invalid syntax"))
  | _ =>
      match parse_digits 0 s with
      | None => (0, Some (ErrOther "invalid syntax"))
      | Some n =>
          if n <? 2 ^ 64 then (n, None)
          else (2 ^ 64 - 1, Some (ErrOther "value out of range"))
      end
  end.

#[export] Instance example_rpc : Rpc := {|
  hex_DecodeString := decode_hex;
  ParseUint := parse_uint;
  PermStringToFlag s :=
    if bool_decide (s = "send"%string) then (2, None)
    else if bool_decide (s = "call"%string) then (4, None)
    else (0, Some (ErrOther "unknown permission"));
  AddressFromBytes bz :=
    if bool_decide (length bz = 20%nat) then (address_of_bytes bz, None)
    else (ZeroAddress, Some (ErrOther "wrong length"));
  PublicKey_Address pub :=
    match pub with
    | Some k => PubKey_Address k
    | None => ZeroAddress
    end
|}.

(** The key client knows the key of every address; the node knows
    account 1, at sequence 41. *)
Definition example_keys : KeyClient :=
  mkKeyClient (fun a => (Some (key 1), None)).

Definition example_node : NodeClient :=
  mkNodeClient (fun a =>
    if bool_decide (a = 1%N) then (Some (account 1 41 10000), None)
    else (None, Some (ErrAccountNotFound a))).

End RpcExample.

(** ** Concrete runs

    Executors and transactions over the collaborators of [Example], at
    height 10. Account 1 has a known key, sequence 0 and balance 10000;
    account 2 is known by address only. *)
Module Scenario.
Import Example.

Definition cache : BlockCache :=
  cache_of [global; account 1 0 10000; stub 2 0] [].

Definition committer : executor := executor_of true 10 cache.

Definition checker : executor := executor_of false 10 cache.

(** A transfer of 600 from account 1 to account 2. *)
Definition transfer : SendTx :=
  mkSendTx [input 1 600 1] [mkTxOutput 2 600].

(** The same transfer with a sequence number that is not the next one. *)
Definition stale_transfer : SendTx :=
  mkSendTx [input 1 600 7] [mkTxOutput 2 600].

(** An input of 1 and two outputs of [2^63] each: the outputs sum to
    [2^64], which is 0 in [uint64]. *)
Definition inflating_transfer : SendTx :=
  mkSendTx [input 1 1 1] [mkTxOutput 2 (2 ^ 63); mkTxOutput 3 (2 ^ 63)].

(** A call of amount 100 and fee 10 to address 9, where no account is. *)
Definition call_nobody : CallTx :=
  mkCallTx (input 1 100 1) (Some 9%N) 1000 10 [].




(** Scenario S3: the creation of a contract with amount 2000 and fee 1000
    by account 1, whose sequence is 0. *)
Definition create : CallTx :=
  mkCallTx (input 1 2000 1) None 100 1000 [Byte.x60; Byte.x01].

(** An account without a public key at address 3, and an input that brings
    the key. *)
Definition keyless : Account := stub 3 500.

Definition input_with_key : TxInput :=
  mkTxInput 3 100 1 (key 3) (Some (key 3)).

(** The entry [site] of account 1, registered at height 10 with value 360
    at 36 a block, and its extension with value 0. *)
Definition site : NameRegEntry :=
  mkNameRegEntry "site" 1 "data" (10 + 360 / 36).


(** The entry [old] of account 2, expired at height 3, and its deletion by
    account 1. *)
Definition old : NameRegEntry := mkNameRegEntry "old" 2 "x" 3.

Definition delete_old : NameTx := mkNameTx (input 1 7 1) "old" "" 7.

Definition registrar : executor :=
  executor_of true 10 (cache_of [global; account 1 0 10000] [site; old]).

(** Account 1 grants the Call permission to account 2, with amount 5. *)
Definition grant : PermissionsTx :=
  mkPermissionsTx (input 1 5 1) (mkPermArgs 256 2 4 true "").

End Scenario.

(** ** Further concrete runs *)
Module Cases.
Import Example Scenario.

(** A call whose fee exceeds the amount of its input. *)
Definition underpaid_call : CallTx :=
  mkCallTx (input 1 5 1) (Some 9%N) 1000 10 [].

(** A transfer of 600 from account 1 to address 7, where no account is. *)
Definition transfer_to_new : SendTx :=
  mkSendTx [input 1 600 1] [mkTxOutput 7 600].

(** An executor without a global permissions account, over an account
    that sets no permission of its own. *)
Definition lawless : executor :=
  executor_of true 10
    (cache_of [mkAccount 1 (Some (key 1)) 0 10000 [] []
                         ZeroAccountPermissions] []).

(** A VM for which address 77 is a native contract, and a call to it. *)
Definition native_evm : Evm := {|
  RegisteredNativeContract a := bool_decide (a = 77%N);
  NewContractAddress a sequence := (a + 1000 + Z.to_N sequence)%N;
  GasLimit := 1000000;
  TxHash chain tx := [];
  vm_Call := example_call
|}.

Definition call_native : CallTx :=
  mkCallTx (input 1 100 1) (Some 77%N) 1000 10 [].

(** A registry with the entries [site] of account 1, live, and [old] of
    account 2, expired, over accounts 1 and 2. *)
Definition registry : executor :=
  executor_of true 10
    (cache_of [global; account 1 0 10000; account 2 0 10000] [site; old]).

(** Account 2 on the live entry of account 1. *)
Definition poach_site : NameTx := mkNameTx (input 2 367 1) "site" "mine" 7.

(** Account 2 registers [blog] with value 360: 10 blocks at 36 a block. *)
Definition register_blog : NameTx :=
  mkNameTx (input 2 367 1) "blog" "data" 7.

(** Account 1 takes over the expired entry of account 2. *)
Definition reclaim_old : NameTx := mkNameTx (input 1 367 1) "old" "data" 7.

(** Account 1 extends [site] with value 360. *)
Definition prolong_site : NameTx := mkNameTx (input 1 367 1) "site" "data" 7.

(** Account 1 asks for [HasBase] by transaction, and grants the Call
    permission to itself. *)
Definition query : PermissionsTx :=
  mkPermissionsTx (input 1 5 1) (mkPermArgs 128 2 4 true "").

Definition grant_self : PermissionsTx :=
  mkPermissionsTx (input 1 5 1) (mkPermArgs 256 1 4 true "").

End Cases.

(** * Properties *)

(** ** Machine integers and well-formed data *)

Lemma uint64_id (z : Z) : is_uint64 z -> uint64 z = z.
Proof. unfold is_uint64, uint64. intros Hz. apply Z.mod_small. lia. Qed.

Lemma uint64_range (z : Z) : is_uint64 (uint64 z).
Proof. unfold is_uint64, uint64. apply Z.mod_pos_bound. lia. Qed.


Lemma wf_cache_lookup (cache : BlockCache) (addr : N) (acc : Account) :
  wf_cache cache -> accounts cache !! addr = Some acc ->
  acc_Address acc = addr /\ wf_account acc.
Proof. intros Hwf Hacc. exact (Hwf addr acc Hacc). Qed.

Lemma IncSequence_sequence (acc : Account) :
  0 <= acc_Sequence acc -> acc_Sequence acc + 1 < 2 ^ 64 ->
  acc_Sequence (IncSequence acc) = acc_Sequence acc + 1.
Proof. intros. cbn. apply uint64_id. unfold is_uint64. lia. Qed.

Lemma SubtractFromBalance_balance (acc : Account) (amount : Z) :
  is_uint64 (acc_Balance acc) -> 0 <= amount <= acc_Balance acc ->
  acc_Balance (SubtractFromBalance acc amount) = acc_Balance acc - amount.
Proof. unfold is_uint64. intros. cbn. apply uint64_id. unfold is_uint64. lia. Qed.

Section Properties.

Context {txs : Txs} {crypto : Crypto} {permission : Permission} {evm : Evm}.

(** ** The validation kernel *)

(** [validateInput] checks, in this order: the basic validity of the input,
    the signature, the sequence and the balance. *)
Lemma validateInput_cases (acc : Account) (signBytes : list Byte.byte)
  (i : TxInput) :
  validateInput acc signBytes i =
    match TxInput_ValidateBasic i with
    | Some err => Some err
    | None =>
        if VerifyBytes (acc_PublicKey acc) signBytes (in_Signature i)
        then if uint64 (acc_Sequence acc + 1) =? in_Sequence i
             then if acc_Balance acc <? in_Amount i
                  then Some ErrTxInsufficientFunds
                  else None
             else Some (ErrTxInvalidSequence (in_Sequence i)
                                             (uint64 (acc_Sequence acc + 1)))
        else Some ErrTxInvalidSignature
    end.
Proof.
  unfold validateInput.
  destruct (TxInput_ValidateBasic i); [reflexivity|].
  destruct (VerifyBytes _ _ _); [|reflexivity]. cbn.
  destruct (uint64 (acc_Sequence acc + 1) =? in_Sequence i); reflexivity.
Qed.

Lemma validateInput_None (acc : Account) (signBytes : list Byte.byte)
  (i : TxInput) :
  validateInput acc signBytes i = None <->
  TxInput_ValidateBasic i = None /\
  VerifyBytes (acc_PublicKey acc) signBytes (in_Signature i) = true /\
  in_Sequence i = uint64 (acc_Sequence acc + 1) /\
  in_Amount i <= acc_Balance acc.
Proof.
  rewrite validateInput_cases.
  destruct (TxInput_ValidateBasic i) as [err|];
    [split; [discriminate|intros [[=] _]]|].
  destruct (VerifyBytes _ _ _);
    [|split; [discriminate|intros (_ & [=] & _)]].
  destruct (Z.eqb_spec (uint64 (acc_Sequence acc + 1)) (in_Sequence i));
    [|split; [discriminate|intros (_ & _ & Hs & _); congruence]].
  destruct (Z.ltb_spec (acc_Balance acc) (in_Amount i)).
  - split; [discriminate|]. intros (_ & _ & _ & Hle). lia.
  - split; [|reflexivity]. intros _. repeat split; [congruence|lia].
Qed.

(** C7. [validateInput] returns nil exactly when the basic validation of
    the input passes, the signature verifies the sign bytes under the public
    key of the account, the sequence of the input is the sequence of the
    account plus one, and the balance covers the amount. The signature is
    checked before the sequence and the sequence before the balance: a bad
    signature yields [ErrTxInvalidSignature] whatever the sequence and the
    balance are, a sequence mismatch yields [ErrTxInvalidSequence] with the
    sequence got and the one expected whatever the balance is, and a short
    balance yields [ErrTxInsufficientFunds]. *)
Theorem validateInput_spec (acc : Account) (signBytes : list Byte.byte)
  (i : TxInput) :
  0 <= acc_Sequence acc -> acc_Sequence acc + 1 < 2 ^ 64 ->
  (validateInput acc signBytes i = None <->
     TxInput_ValidateBasic i = None /\
     VerifyBytes (acc_PublicKey acc) signBytes (in_Signature i) = true /\
     in_Sequence i = acc_Sequence acc + 1 /\
     acc_Balance acc >= in_Amount i) /\
  (TxInput_ValidateBasic i = None ->
   VerifyBytes (acc_PublicKey acc) signBytes (in_Signature i) = false ->
   validateInput acc signBytes i = Some ErrTxInvalidSignature) /\
  (TxInput_ValidateBasic i = None ->
   VerifyBytes (acc_PublicKey acc) signBytes (in_Signature i) = true ->
   in_Sequence i <> acc_Sequence acc + 1 ->
   validateInput acc signBytes i =
     Some (ErrTxInvalidSequence (in_Sequence i) (acc_Sequence acc + 1))) /\
  (TxInput_ValidateBasic i = None ->
   VerifyBytes (acc_PublicKey acc) signBytes (in_Signature i) = true ->
   in_Sequence i = acc_Sequence acc + 1 ->
   acc_Balance acc < in_Amount i ->
   validateInput acc signBytes i = Some ErrTxInsufficientFunds).
Proof.
  intros Hlo Hhi.
  assert (Hseq : uint64 (acc_Sequence acc + 1) = acc_Sequence acc + 1)
    by (apply uint64_id; unfold is_uint64; lia).
  split; [split|split; [|split]].
  - intros Hnil. apply validateInput_None in Hnil. rewrite Hseq in Hnil.
    intuition lia.
  - intros (Hb & Hv & Hs & Hbal). apply validateInput_None.
    rewrite Hseq. intuition lia.
  - intros Hb Hv. rewrite validateInput_cases, Hb, Hv. reflexivity.
  - intros Hb Hv Hs. rewrite validateInput_cases, Hb, Hv, Hseq.
    destruct (Z.eqb_spec (acc_Sequence acc + 1) (in_Sequence i)); [|reflexivity].
    congruence.
  - intros Hb Hv Hs Hbal. rewrite validateInput_cases, Hb, Hv, Hseq, Hs.
    rewrite Z.eqb_refl.
    destruct (Z.ltb_spec (acc_Balance acc) (in_Amount i)); [reflexivity|lia].
Qed.


Lemma checkInputPubKey_Ok (acc acc' : Account) (i i' : TxInput) :
  checkInputPubKey acc i = Ok (acc', i') ->
  same_funds acc acc' /\ same_input i i'.
Proof.
  unfold checkInputPubKey, same_funds, same_input.
  destruct (acc_PublicKey acc) as [known|].
  - intros [= <- <-]. cbn. auto 10.
  - destruct (in_PubKey i) as [key|]; [|discriminate].
    destruct (decide _); [|discriminate].
    intros [= <- <-]. cbn. auto 10.
Qed.

(** C4, as the code has it. When the account has no public key, the step
    succeeds exactly when the input carries a key whose address is the
    address of the account; the account then takes that key and the input
    keeps it: its [PubKey] field is not cleared. When the account already
    has a public key, the step succeeds, the account is unchanged and the
    [PubKey] field of the input is cleared. *)
Theorem checkInputPubKey_spec (acc : Account) (i : TxInput) :
  (acc_PublicKey acc = None ->
   ((exists r, checkInputPubKey acc i = Ok r) <->
    (exists key, in_PubKey i = Some key /\
                 PubKey_Address key = acc_Address acc)) /\
   (forall acc' i', checkInputPubKey acc i = Ok (acc', i') ->
      acc' = SetPublicKey acc (in_PubKey i) /\ i' = i /\
      in_PubKey i' <> None)) /\
  (acc_PublicKey acc <> None ->
   exists i', checkInputPubKey acc i = Ok (acc, i') /\
              in_PubKey i' = None /\ same_input i i').
Proof.
  unfold checkInputPubKey. split.
  - intros ->. split.
    + destruct (in_PubKey i) as [key|].
      * destruct (decide _) as [Heq|Hne].
        -- split; [eauto|]. intros _. eexists. reflexivity.
        -- split; [intros [r [=]]|]. intros (key' & [= <-] & Heq). contradiction.
      * split; [intros [r [=]]|]. intros (key' & [=] & _).
    + intros acc' i'. destruct (in_PubKey i) as [key|] eqn:Hkey; [|discriminate].
      destruct (decide _); [|discriminate].
      intros [= <- <-]. rewrite Hkey. auto.
  - destruct (acc_PublicKey acc) as [known|]; [|congruence]. intros _.
    eexists. split; [reflexivity|]. cbn. unfold same_input. cbn. auto.
Qed.

(** ** SendTx: the loops *)

Lemma getInputs_from_Ok (cache : BlockCache) (ins : list TxInput) :
  forall (accs0 accs : gmap N Account) (ins' : list TxInput),
  getInputs_from accs0 cache ins = Ok (accs, ins') ->
  NoDup (in_Address <$> ins) /\
  Forall (fun i => accs0 !! in_Address i = None) ins /\
  Forall2 same_input ins ins' /\
  (forall a, a ∉ in_Address <$> ins -> accs !! a = accs0 !! a) /\
  Forall (fun i => exists acc acc',
            accounts cache !! in_Address i = Some acc /\
            accs !! in_Address i = Some acc' /\ same_funds acc acc') ins.
Proof.
  induction ins as [|i ins IH]; intros accs0 accs ins'; cbn.
  - intros [= <- <-]. repeat split; auto using NoDup_nil_2.
  - destruct (accs0 !! in_Address i) eqn:Hfresh; [discriminate|].
    unfold GetMutableAccount, GetAccount.
    destruct (accounts cache !! in_Address i) as [acc|] eqn:Hacc; [|discriminate].
    destruct (checkInputPubKey acc i) as [[acc' i']| |] eqn:Hbind; cbn; try discriminate.
    destruct (getInputs_from _ cache ins) as [[accs1 ins1]| |] eqn:Hrest;
      cbn; try discriminate.
    intros [= <- <-].
    apply IH in Hrest as (Hnodup & Hnone & Hsame & Hother & Hins).
    apply checkInputPubKey_Ok in Hbind as [Hfunds Hinput].
    assert (Hnotin : in_Address i ∉ in_Address <$> ins).
    { intros (j & Hj & Hin)%list_elem_of_fmap.
      rewrite Forall_forall in Hnone. apply Hnone in Hin.
      rewrite <- Hj, lookup_insert_eq in Hin. discriminate. }
    repeat split.
    + apply NoDup_cons_2; assumption.
    + constructor; [assumption|].
      eapply Forall_impl; [exact Hnone|]. intros j Hj. cbn in Hj.
      destruct (decide (in_Address i = in_Address j)) as [Heq|Hne].
      * rewrite Heq, lookup_insert_eq in Hj. discriminate.
      * rewrite lookup_insert_ne in Hj; assumption.
    + constructor; assumption.
    + intros a Ha. rewrite not_elem_of_cons in Ha. destruct Ha as [Hne Ha].
      rewrite Hother by assumption. apply lookup_insert_ne. congruence.
    + constructor; [|assumption].
      exists acc, acc'. rewrite Hother by assumption.
      rewrite lookup_insert_eq. auto.
Qed.



Lemma getOrMakeOutputs_from_Ok (cache : BlockCache) (outs : list TxOutput) :
  forall (checked : bool) (accs accs' : gmap N Account),
  getOrMakeOutputs_from checked cache accs outs = Ok accs' ->
  NoDup (out_Address <$> outs) /\
  Forall (fun o => accs !! out_Address o = None) outs /\
  (forall a, a ∉ out_Address <$> outs -> accs' !! a = accs !! a) /\
  Forall (fun o => accs' !! out_Address o =
                     Some (default (newAccount (out_Address o))
                                   (accounts cache !! out_Address o))) outs.
Proof.
  induction outs as [|o outs IH]; intros checked accs accs'; cbn.
  - intros [= <-]. repeat split; auto using NoDup_nil_2.
  - destruct (accs !! out_Address o) eqn:Hfresh; [discriminate|].
    unfold GetMutableAccount, GetAccount. intros Hrest.
    assert (exists acc checked',
              acc = default (newAccount (out_Address o))
                            (accounts cache !! out_Address o) /\
              getOrMakeOutputs_from checked' cache
                (<[out_Address o := acc]> accs) outs = Ok accs')
      as (acc & checked' & Hacc & Hrest').
    { destruct (accounts cache !! out_Address o) as [acc|]; [eauto|].
      destruct (if checked then _ else _) as [[]| |]; cbn in Hrest;
        try discriminate.
      eexists _, true. split; [reflexivity|exact Hrest]. }
    clear Hrest. apply IH in Hrest' as (Hnodup & Hnone & Hother & Houts).
    assert (Hnotin : out_Address o ∉ out_Address <$> outs).
    { intros (j & Hj & Hin)%list_elem_of_fmap.
      rewrite Forall_forall in Hnone. apply Hnone in Hin.
      rewrite <- Hj, lookup_insert_eq in Hin. discriminate. }
    repeat split.
    + apply NoDup_cons_2; assumption.
    + constructor; [assumption|].
      eapply Forall_impl; [exact Hnone|]. intros j Hj. cbn in Hj.
      destruct (decide (out_Address o = out_Address j)) as [Heq|Hne].
      * rewrite Heq, lookup_insert_eq in Hj. discriminate.
      * rewrite lookup_insert_ne in Hj; assumption.
    + intros a Ha. rewrite not_elem_of_cons in Ha. destruct Ha as [Hne Ha].
      rewrite Hother by assumption. apply lookup_insert_ne. congruence.
    + constructor; [|assumption].
      rewrite Hother by assumption. rewrite lookup_insert_eq. congruence.
Qed.

Lemma validateInputs_from_Ok (accs : gmap N Account) (signBytes : list Byte.byte)
  (ins : list TxInput) :
  forall total total' : Z,
  validateInputs_from total accs signBytes ins = Ok total' ->
  Forall (fun i => exists acc, accs !! in_Address i = Some acc /\
                               validateInput acc signBytes i = None) ins.
Proof.
  induction ins as [|i ins IH]; intros total total'; cbn; [constructor|].
  destruct (accs !! in_Address i) as [acc|] eqn:Hacc; [|discriminate].
  destruct (validateInput acc signBytes i) eqn:Hvalid; [discriminate|].
  intros Hrest. constructor; [exists acc; auto|]. eapply IH, Hrest.
Qed.

Lemma adjustByInputs_Ok (ins : list TxInput) :
  forall accs accs' : gmap N Account,
  NoDup (in_Address <$> ins) ->
  adjustByInputs accs ins = Ok accs' ->
  (forall a, a ∉ in_Address <$> ins -> accs' !! a = accs !! a) /\
  Forall (fun i => exists acc,
            accs !! in_Address i = Some acc /\
            accs' !! in_Address i =
              Some (IncSequence (SubtractFromBalance acc (in_Amount i)))) ins.
Proof.
  induction ins as [|i ins IH]; intros accs accs' Hnodup; cbn.
  - intros [= <-]. split; [reflexivity|constructor].
  - destruct (accs !! in_Address i) as [acc|] eqn:Hacc; [|discriminate].
    destruct (acc_Balance acc <? in_Amount i); [discriminate|].
    intros Hrest. cbn in Hnodup. apply NoDup_cons in Hnodup as [Hnotin Hnodup].
    apply IH in Hrest as [Hother Hins]; [|assumption]. split.
    + intros a Ha. rewrite not_elem_of_cons in Ha. destruct Ha as [Hne Ha].
      rewrite Hother by assumption. apply lookup_insert_ne. congruence.
    + constructor.
      * exists acc. rewrite Hother by assumption.
        rewrite lookup_insert_eq. auto.
      * rewrite Forall_forall in Hins |- *. intros j Hj.
        destruct (Hins j Hj) as (accj & Hlook & Hadj).
        exists accj. split; [|assumption].
        rewrite lookup_insert_ne in Hlook; [assumption|].
        intros Heq. apply Hnotin. rewrite Heq.
        apply list_elem_of_fmap. eauto.
Qed.

Lemma adjustByOutputs_Ok (outs : list TxOutput) :
  forall accs accs' : gmap N Account,
  NoDup (out_Address <$> outs) ->
  adjustByOutputs accs outs = Ok accs' ->
  (forall a, a ∉ out_Address <$> outs -> accs' !! a = accs !! a) /\
  Forall (fun o => exists acc,
            accs !! out_Address o = Some acc /\
            accs' !! out_Address o =
              Some (AddToBalance acc (out_Amount o))) outs.
Proof.
  induction outs as [|o outs IH]; intros accs accs' Hnodup; cbn.
  - intros [= <-]. split; [reflexivity|constructor].
  - destruct (accs !! out_Address o) as [acc|] eqn:Hacc; [|discriminate].
    intros Hrest. cbn in Hnodup. apply NoDup_cons in Hnodup as [Hnotin Hnodup].
    apply IH in Hrest as [Hother Houts]; [|assumption]. split.
    + intros a Ha. rewrite not_elem_of_cons in Ha. destruct Ha as [Hne Ha].
      rewrite Hother by assumption. apply lookup_insert_ne. congruence.
    + constructor.
      * exists acc. rewrite Hother by assumption.
        rewrite lookup_insert_eq. auto.
      * rewrite Forall_forall in Houts |- *. intros j Hj.
        destruct (Houts j Hj) as (accj & Hlook & Hadj).
        exists accj. split; [|assumption].
        rewrite lookup_insert_ne in Hlook; [assumption|].
        intros Heq. apply Hnotin. rewrite Heq.
        apply list_elem_of_fmap. eauto.
Qed.

(** Writing back a map of accounts, each stored under its own address,
    overlays it on the cached accounts, whatever the order of the range. *)
Lemma UpdateAccount_fold (accs : gmap N Account) (cache : BlockCache) :
  map_Forall (fun a acc => acc_Address acc = a) accs ->
  map_fold (fun _ acc c => UpdateAccount c acc) cache accs =
    mkBlockCache (accs ∪ accounts cache) (storages cache) (names cache).
Proof.
  apply (map_fold_weak_ind
           (fun r m => map_Forall (fun a acc => acc_Address acc = a) m ->
                       r = mkBlockCache (m ∪ accounts cache)
                                        (storages cache) (names cache))).
  - intros _. rewrite (left_id_L ∅ (∪)). destruct cache; reflexivity.
  - intros a acc m r Hfresh IHr Hkeys.
    apply map_Forall_insert in Hkeys as [Haddr Hkeys]; [|assumption].
    rewrite (IHr Hkeys). unfold UpdateAccount. cbn.
    rewrite Haddr, insert_union_l. reflexivity.
Qed.



(** What a successful SendTx went through. *)
Lemma ExecuteSendTx_inv (exe exe' : executor) (tx : SendTx) (fees : Z) :
  ExecuteSendTx tx exe = (Ok fees, exe') ->
  exists (accs0 : gmap N Account) (ins' : list TxInput)
         (accs1 accs2 accs3 : gmap N Account) (inTotal outTotal : Z),
    let tx' := mkSendTx ins' (send_Outputs tx) in
    getInputs (blockCache exe) (send_Inputs tx) = Ok (accs0, ins') /\
    hasSendPermission (blockCache exe) accs0 = Ok true /\
    getOrMakeOutputs (blockCache exe) accs0 (send_Outputs tx) = Ok accs1 /\
    validateInputs accs1 (SignBytes (chainID exe) (TxSend tx')) ins'
      = Ok inTotal /\
    validateOutputs (send_Outputs tx) = Ok outTotal /\
    (inTotal <? outTotal) = false /\
    fees = uint64 (0 + uint64 (inTotal - outTotal)) /\
    adjustByInputs accs1 ins' = Ok accs2 /\
    adjustByOutputs accs2 (send_Outputs tx) = Ok accs3 /\
    blockCache exe' =
      map_fold (fun _ acc c => UpdateAccount c acc) (blockCache exe) accs3.
Proof.
  unfold ExecuteSendTx. exec_unfold.
  do 2 exec_step. destruct a as [accs0 ins']. cbn [fst snd].
  repeat exec_step.
  intros [= <- <-]. cbn [send_Inputs send_Outputs fst snd] in *.
  match goal with Hn : negb ?b = false |- _ => destruct b; [|discriminate] end.
  eexists accs0, ins', _, _, _, _, _. cbn. eauto 12.
Qed.


Lemma same_input_elem_of (ins ins' : list TxInput) (i : TxInput) :
  Forall2 same_input ins ins' -> i ∈ ins ->
  exists i', i' ∈ ins' /\ same_input i i'.
Proof.
  induction 1 as [|j j' l l' Hj _ IH]; intros Hi.
  - apply elem_of_nil in Hi as [].
  - apply elem_of_cons in Hi as [->|Hi].
    + exists j'. split; [apply list_elem_of_here|assumption].
    + destruct (IH Hi) as (i' & Hi' & Hsame).
      exists i'. split; [apply list_elem_of_further|]; assumption.
Qed.

Lemma same_input_addresses (ins ins' : list TxInput) :
  Forall2 same_input ins ins' -> in_Address <$> ins' = in_Address <$> ins.
Proof.
  induction 1 as [|i i' l l' (Ha & _) _ IH]; cbn; [reflexivity|].
  rewrite Ha, IH. reflexivity.
Qed.

(** The accounts a SendTx writes back: each input account, debited and with
    its sequence incremented; each output account, credited; no other. *)
Lemma sendTx_accounts (cache : BlockCache) (ins ins' : list TxInput)
  (outs : list TxOutput) (signBytes : list Byte.byte)
  (accs0 accs1 accs2 accs3 : gmap N Account) (inTotal : Z) :
  getInputs cache ins = Ok (accs0, ins') ->
  getOrMakeOutputs cache accs0 outs = Ok accs1 ->
  validateInputs accs1 signBytes ins' = Ok inTotal ->
  adjustByInputs accs1 ins' = Ok accs2 ->
  adjustByOutputs accs2 outs = Ok accs3 ->
  Forall (fun i => exists acc bound,
            accounts cache !! in_Address i = Some acc /\
            same_funds acc bound /\
            in_Amount i <= acc_Balance acc /\
            accs3 !! in_Address i =
              Some (IncSequence (SubtractFromBalance bound (in_Amount i))))
         ins /\
  Forall (fun o => accs3 !! out_Address o =
            Some (AddToBalance (default (newAccount (out_Address o))
                                        (accounts cache !! out_Address o))
                               (out_Amount o))) outs /\
  (forall a, a ∉ in_Address <$> ins -> a ∉ out_Address <$> outs ->
             accs3 !! a = None).
Proof.
  intros Hget Hout Hvalid Hadjin Hadjout.
  apply getInputs_from_Ok in Hget as (Hnodup & _ & Hsame & Hother0 & Hins).
  apply getOrMakeOutputs_from_Ok in Hout as (Hnodup' & Hfresh & Hother1 & Houts).
  apply validateInputs_from_Ok in Hvalid.
  pose proof (same_input_addresses _ _ Hsame) as Haddrs.
  apply adjustByInputs_Ok in Hadjin as [Hother2 Hadjin];
    [|rewrite Haddrs; assumption].
  apply adjustByOutputs_Ok in Hadjout as [Hother3 Hadjout]; [|assumption].
  rewrite Haddrs in Hother2.
  rewrite Forall_forall in Hfresh. rewrite Forall_forall in Hins.
  rewrite Forall_forall in Houts. rewrite Forall_forall in Hadjout.
  rewrite Forall_forall in Hadjin. rewrite Forall_forall in Hvalid.
  (* an input address is no output address *)
  assert (Hdisj : forall i, i ∈ ins -> in_Address i ∉ out_Address <$> outs).
  { intros i Hi (o & Heq & Ho)%list_elem_of_fmap.
    specialize (Hfresh o Ho). destruct (Hins i Hi) as (acc & acc' & _ & Hl & _).
    rewrite <- Heq in Hfresh. congruence. }
  split; [|split].
  - rewrite Forall_forall. intros i Hi.
    destruct (same_input_elem_of _ _ _ Hsame Hi) as (i' & Hi' & Ha & Hamt & _).
    destruct (Hins i Hi) as (acc & bound & Hc & Hl & Hf).
    destruct (Hadjin i' Hi') as (acc1 & Hacc1 & Hacc2).
    destruct (Hvalid i' Hi') as (acc1' & Hacc1' & Hval).
    rewrite Ha in *. rewrite Hamt in *.
    rewrite Hother1, Hl in Hacc1 by auto. injection Hacc1 as <-.
    rewrite Hother1, Hl in Hacc1' by auto. injection Hacc1' as <-.
    apply validateInput_None in Hval as (_ & _ & _ & Hbal).
    exists acc, bound. split; [assumption|]. split; [assumption|]. split.
    + destruct Hf as (_ & _ & <- & _). rewrite <- Hamt. assumption.
    + rewrite Hother3 by auto. assumption.
  - rewrite Forall_forall. intros o Ho.
    destruct (Hadjout o Ho) as (acc2 & Hacc2 & Hacc3).
    rewrite Hacc3. rewrite Hother2, (Houts o Ho) in Hacc2.
    + congruence.
    + intros (i & Heq & Hi)%list_elem_of_fmap.
      apply (Hdisj i Hi). rewrite <- Heq. apply list_elem_of_fmap. eauto.
  - intros a Hi Ho.
    rewrite Hother3, Hother2, Hother1, Hother0 by assumption.
    apply lookup_empty.
Qed.



(** The block cache after a successful SendTx: each input account is
    debited by its amount and its sequence is incremented, each output
    account (a new one with balance 0 when the address is unknown) is
    credited, in [uint64], and nothing else changes. *)
Lemma ExecuteSendTx_Ok (exe exe' : executor) (tx : SendTx) (fees : Z) :
  wf_cache (blockCache exe) -> wf_SendTx tx ->
  ExecuteSendTx tx exe = (Ok fees, exe') ->
  Forall (fun i => exists acc acc',
            accounts (blockCache exe) !! in_Address i = Some acc /\
            accounts (blockCache exe') !! in_Address i = Some acc' /\
            acc_Sequence acc' = acc_Sequence acc + 1 /\
            acc_Balance acc' = acc_Balance acc - in_Amount i)
         (send_Inputs tx) /\
  Forall (fun o => exists acc',
            accounts (blockCache exe') !! out_Address o = Some acc' /\
            acc_Balance acc' =
              uint64 (default 0 (acc_Balance <$>
                                   accounts (blockCache exe) !! out_Address o)
                      + out_Amount o))
         (send_Outputs tx) /\
  (forall a, a ∉ in_Address <$> send_Inputs tx ->
             a ∉ out_Address <$> send_Outputs tx ->
             accounts (blockCache exe') !! a = accounts (blockCache exe) !! a) /\
  storages (blockCache exe') = storages (blockCache exe) /\
  names (blockCache exe') = names (blockCache exe).
Proof.
  intros Hwf Htx Hexec.
  apply ExecuteSendTx_inv in Hexec
    as (accs0 & ins' & accs1 & accs2 & accs3 & inTotal & outTotal & Hget &
        _ & Hout & Hvalid & _ & _ & _ & Hadjin & Hadjout & ->).
  cbn [send_Inputs send_Outputs] in *.
  destruct (sendTx_accounts _ _ _ _ _ _ _ _ _ _ Hget Hout Hvalid Hadjin Hadjout)
    as (Hins & Houts & Hother).
  rewrite Forall_forall in Hins. rewrite Forall_forall in Houts.
  assert (Hkeys : map_Forall (fun a acc => acc_Address acc = a) accs3).
  { intros a acc Hacc.
    destruct (decide (a ∈ in_Address <$> send_Inputs tx)) as [Hi|Hi].
    - apply list_elem_of_fmap in Hi as (i & -> & Hi).
      destruct (Hins i Hi) as (acc0 & bound & Hc & Hf & _ & Hl).
      rewrite Hacc in Hl. injection Hl as ->. cbn.
      destruct Hf as (-> & _). apply (wf_cache_lookup _ _ _ Hwf Hc).
    - destruct (decide (a ∈ out_Address <$> send_Outputs tx)) as [Ho|Ho].
      + apply list_elem_of_fmap in Ho as (o & -> & Ho).
        rewrite (Houts o Ho) in Hacc. injection Hacc as <-. cbn.
        destruct (accounts (blockCache exe) !! out_Address o) as [acc0|] eqn:Hc;
          cbn; [|reflexivity].
        apply (wf_cache_lookup _ _ _ Hwf Hc).
      + rewrite Hother in Hacc by assumption. discriminate. }
  rewrite (UpdateAccount_fold _ _ Hkeys). cbn.
  split; [|split; [|split; [|split; reflexivity]]].
  - rewrite Forall_forall. intros i Hi.
    destruct (Hins i Hi) as (acc & bound & Hc & Hf & Hbal & Hl).
    exists acc, (IncSequence (SubtractFromBalance bound (in_Amount i))).
    split; [assumption|]. split; [apply lookup_union_Some_l; assumption|].
    destruct (wf_cache_lookup _ _ _ Hwf Hc) as (_ & Hb & Hs0 & Hs2).
    destruct Hf as (_ & Hseq & Hbalance & _).
    unfold wf_SendTx in Htx. rewrite Forall_forall in Htx.
    specialize (Htx i Hi). unfold is_uint64 in *.
    cbn. rewrite Hseq, Hbalance. split; apply uint64_id; unfold is_uint64; lia.
  - rewrite Forall_forall. intros o Ho.
    eexists. split; [apply lookup_union_Some_l, (Houts o Ho)|]. cbn.
    destruct (accounts (blockCache exe) !! out_Address o); reflexivity.
  - intros a Hi Ho. rewrite lookup_union_r; [reflexivity|auto].
Qed.

(** Nothing in the SendTx case reads [runCall], [state] or [fired]. *)

Lemma ExecuteSendTx_runCall (exe : executor) (tx : SendTx) (run : bool) :
  ExecuteSendTx tx (set_runCall exe run) =
    ((ExecuteSendTx tx exe).1, set_runCall (ExecuteSendTx tx exe).2 run).
Proof.
  unfold ExecuteSendTx. exec_unfold. unfold set_runCall.
  repeat (cbn [blockCache chainID fst snd]; exec_step); reflexivity.
Qed.

(** A SendTx that does not succeed leaves the executor as it was. *)
Lemma ExecuteSendTx_failure (exe exe' : executor) (tx : SendTx) (r : Res Z) :
  ExecuteSendTx tx exe = (r, exe') ->
  (forall fees, r <> Ok fees) -> exe' = exe.
Proof.
  unfold ExecuteSendTx. exec_unfold.
  repeat exec_step; intros [= <- <-] Hfail; try reflexivity.
  exfalso. eapply Hfail. reflexivity.
Qed.


(** ** SendTx: all or nothing, and the two paths *)

Lemma Execute_TxSend (exe : executor) (tx : SendTx) :
  Execute exe (TxSend tx) =
    match ExecuteSendTx tx exe with
    | (Ok _, exe') => (Ok tt, exe')
    | (Err e, exe') => (Err e, exe')
    | (Panic msg, exe') => (Panic msg, exe')
    end.
Proof. reflexivity. Qed.

(** C9. A SendTx that does not succeed has updated nothing: when [Execute]
    returns an error (or panics), the executor, hence its block cache, is
    as it was before the call. Every [UpdateAccount] of the SendTx case
    comes after the last check. *)
Theorem SendTx_failure_updates_nothing (exe exe' : executor) (tx : SendTx)
  (r : Res unit) :
  Execute exe (TxSend tx) = (r, exe') ->
  r <> Ok tt ->
  exe' = exe /\ blockCache exe' = blockCache exe.
Proof.
  rewrite Execute_TxSend.
  destruct (ExecuteSendTx tx exe) as [r0 exe0] eqn:Hexec.
  intros Hr Hfail.
  assert (Hsame : exe0 = exe).
  { eapply ExecuteSendTx_failure; [exact Hexec|].
    intros fees ->. injection Hr as <- _. contradiction. }
  assert (exe' = exe) as -> by (destruct r0; injection Hr; congruence).
  split; reflexivity.
Qed.

(** The checker and the committer over the same state differ in [runCall]
    only (the event sink is no part of the executor's own state). *)
Lemma NewBatchChecker_set_runCall (st : BlockCache) (chain : string) (t : Tip) :
  NewBatchChecker st chain t = set_runCall (NewBatchCommitter st chain t) false.
Proof. reflexivity. Qed.

Lemma set_runCall_idem (exe : executor) (run run' : bool) :
  set_runCall (set_runCall exe run) run' = set_runCall exe run'.
Proof. reflexivity. Qed.

(** C8. For a SendTx, the check path ([runCall] false) and the commit path
    ([runCall] true) from the same prior state return the same result and
    leave the same block cache (and the same event cache); in particular
    the checker and the committer made over the same state agree. When the
    result is a success, the sequence of each input account has advanced by
    exactly one, in both paths. *)
Theorem SendTx_check_commit_parity (exe : executor) (tx : SendTx) :
  let check := Execute (set_runCall exe false) (TxSend tx) in
  let commit := Execute (set_runCall exe true) (TxSend tx) in
  check.1 = commit.1 /\
  blockCache check.2 = blockCache commit.2 /\
  eventCache check.2 = eventCache commit.2 /\
  (forall st chain t,
     (Execute (NewBatchChecker st chain t) (TxSend tx)).1 =
     (Execute (NewBatchCommitter st chain t) (TxSend tx)).1) /\
  (wf_cache (blockCache exe) -> wf_SendTx tx -> commit.1 = Ok tt ->
   Forall (fun i => exists acc acc1 acc2,
             accounts (blockCache exe) !! in_Address i = Some acc /\
             accounts (blockCache check.2) !! in_Address i = Some acc1 /\
             accounts (blockCache commit.2) !! in_Address i = Some acc2 /\
             acc_Sequence acc1 = acc_Sequence acc + 1 /\
             acc_Sequence acc2 = acc_Sequence acc + 1)
          (send_Inputs tx)).
Proof.
  cbv zeta. rewrite !Execute_TxSend, !ExecuteSendTx_runCall.
  destruct (ExecuteSendTx tx exe) as [r exe'] eqn:Hexec. cbn [fst snd].
  split; [destruct r; reflexivity|].
  split; [destruct r; reflexivity|].
  split; [destruct r; reflexivity|].
  split.
  { intros st chain t. rewrite NewBatchChecker_set_runCall.
    rewrite !Execute_TxSend, ExecuteSendTx_runCall.
    destruct (ExecuteSendTx tx (NewBatchCommitter st chain t)) as [[] ?];
      reflexivity. }
  intros Hwf Htx Hok. destruct r as [fees| |]; try discriminate. cbn.
  destruct (ExecuteSendTx_Ok _ _ _ _ Hwf Htx Hexec) as (Hins & _).
  eapply Forall_impl; [exact Hins|].
  intros i (acc & acc' & Hc & Hc' & Hseq & _). exists acc, acc', acc'. auto.
Qed.

(** ** SendTx: the totals *)

Lemma uint64_add_l (a b : Z) : uint64 (uint64 a + b) = uint64 (a + b).
Proof. unfold uint64. apply Zplus_mod_idemp_l. Qed.

Lemma validateOutputs_from_total (outs : list TxOutput) :
  forall total total' : Z,
  validateOutputs_from total outs = Ok total' ->
  uint64 total' = uint64 (total + sum_outputs outs).
Proof.
  induction outs as [|o outs IH]; intros total total'; cbn.
  - intros [= <-]. rewrite Z.add_0_r. reflexivity.
  - destruct (TxOutput_ValidateBasic o); [discriminate|].
    intros Hrest. rewrite (IH _ _ Hrest), uint64_add_l.
    f_equal. fold (sum_outputs outs). lia.
Qed.

Lemma validateInputs_from_total (accs : gmap N Account)
  (signBytes : list Byte.byte) (ins : list TxInput) :
  forall total total' : Z,
  validateInputs_from total accs signBytes ins = Ok total' ->
  uint64 total' = uint64 (total + sum_inputs ins).
Proof.
  induction ins as [|i ins IH]; intros total total'; cbn.
  - intros [= <-]. rewrite Z.add_0_r. reflexivity.
  - destruct (accs !! in_Address i) as [acc|]; [|discriminate].
    destruct (validateInput acc signBytes i); [discriminate|].
    intros Hrest. rewrite (IH _ _ Hrest), uint64_add_l.
    f_equal. fold (sum_inputs ins). lia.
Qed.

Lemma validateOutputs_from_range (outs : list TxOutput) :
  forall total total' : Z,
  is_uint64 total ->
  validateOutputs_from total outs = Ok total' -> is_uint64 total'.
Proof.
  induction outs as [|o outs IH]; intros total total' Htotal; cbn.
  - intros [= <-]. assumption.
  - destruct (TxOutput_ValidateBasic o); [discriminate|].
    apply IH, uint64_range.
Qed.

Lemma validateInputs_from_range (accs : gmap N Account)
  (signBytes : list Byte.byte) (ins : list TxInput) :
  forall total total' : Z,
  is_uint64 total ->
  validateInputs_from total accs signBytes ins = Ok total' -> is_uint64 total'.
Proof.
  induction ins as [|i ins IH]; intros total total' Htotal; cbn.
  - intros [= <-]. assumption.
  - destruct (accs !! in_Address i) as [acc|]; [|discriminate].
    destruct (validateInput acc signBytes i); [discriminate|].
    apply IH, uint64_range.
Qed.

Lemma same_input_sum (ins ins' : list TxInput) :
  Forall2 same_input ins ins' -> sum_inputs ins' = sum_inputs ins.
Proof.
  induction 1 as [|i i' l l' (_ & Hamt & _) _ IH]; cbn; [reflexivity|].
  fold (sum_inputs l). fold (sum_inputs l'). rewrite Hamt, IH. reflexivity.
Qed.

(** What the check [outTotal > inTotal] of the source compares: the two
    sums modulo [2^64]. The fee booked in the local variable [fees] is
    their difference. *)
Lemma ExecuteSendTx_totals (exe exe' : executor) (tx : SendTx) (fees : Z) :
  ExecuteSendTx tx exe = (Ok fees, exe') ->
  uint64 (sum_outputs (send_Outputs tx)) <=
    uint64 (sum_inputs (send_Inputs tx)) /\
  fees = uint64 (sum_inputs (send_Inputs tx)) -
         uint64 (sum_outputs (send_Outputs tx)).
Proof.
  intros Hexec.
  apply ExecuteSendTx_inv in Hexec
    as (accs0 & ins' & accs1 & accs2 & accs3 & inTotal & outTotal & Hget &
        _ & _ & Hin & Hout & Hle & -> & _).
  apply getInputs_from_Ok in Hget as (_ & _ & Hsame & _).
  assert (Hzero : is_uint64 0) by (unfold is_uint64; lia).
  pose proof (validateInputs_from_range _ _ _ _ _ Hzero Hin) as Hrin.
  pose proof (validateOutputs_from_range _ _ _ Hzero Hout) as Hrout.
  apply validateInputs_from_total in Hin.
  apply validateOutputs_from_total in Hout.
  rewrite (uint64_id _ Hrin), Z.add_0_l, (same_input_sum _ _ Hsame) in Hin.
  rewrite (uint64_id _ Hrout), Z.add_0_l in Hout.
  apply Z.ltb_ge in Hle. rewrite <- Hin, <- Hout.
  split; [assumption|].
  unfold is_uint64 in *. rewrite Z.add_0_l.
  rewrite !uint64_id; unfold is_uint64; try lia.
  rewrite uint64_id; unfold is_uint64; lia.
Qed.

(** When neither sum overflows [uint64], a SendTx whose outputs exceed its
    inputs does not succeed, and the fee of a successful one is the sum of
    the inputs minus the sum of the outputs. *)
Lemma ExecuteSendTx_totals_no_overflow (exe exe' : executor) (tx : SendTx)
  (fees : Z) :
  is_uint64 (sum_inputs (send_Inputs tx)) ->
  is_uint64 (sum_outputs (send_Outputs tx)) ->
  ExecuteSendTx tx exe = (Ok fees, exe') ->
  sum_outputs (send_Outputs tx) <= sum_inputs (send_Inputs tx) /\
  fees = sum_inputs (send_Inputs tx) - sum_outputs (send_Outputs tx).
Proof.
  intros Hin Hout Hexec.
  apply ExecuteSendTx_totals in Hexec.
  rewrite (uint64_id _ Hin), (uint64_id _ Hout) in Hexec. exact Hexec.
Qed.
(** ** CallTx *)


(** A CallTx either stops in validation, leaving the executor as it was, or
    debits the fee, increments the sequence of the caller, writes the
    caller back and goes on with the call (commit path) or with the debit
    of the value (check path). *)
Lemma ExecuteCallTx_inv (exe exe' : executor) (tx : CallTx) (r : Res unit) :
  ExecuteCallTx tx exe = (r, exe') ->
  (r <> Ok tt /\ exe' = exe) \/
  (exists inAcc bound input',
     accounts (blockCache exe) !! in_Address (call_Input tx) = Some inAcc /\
     checkInputPubKey inAcc (call_Input tx) = Ok (bound, input') /\
     let tx' := mkCallTx input' (call_Address tx) (call_GasLimit tx)
                         (call_Fee tx) (call_Data tx) in
     validateInput bound (SignBytes (chainID exe) (TxCall tx')) input' = None /\
     call_Fee tx <= in_Amount input' /\
     let value := uint64 (in_Amount input' - call_Fee tx) in
     let debited := SubtractFromBalance (IncSequence bound) (call_Fee tx) in
     let exe1 := set_blockCache exe (UpdateAccount (blockCache exe) debited) in
     if runCall exe
     then runCallTx tx' debited (callee_of (blockCache exe) tx) value exe1
            = (r, exe')
     else r = Ok tt /\
          exe' = set_blockCache exe1
                   (UpdateAccount (blockCache exe1)
                      (let acc := SubtractFromBalance debited value in
                       if bool_decide (call_Address tx = None)
                       then IncSequence acc else acc))).
Proof.
  unfold ExecuteCallTx, callee_of. exec_unfold.
  unfold GetMutableAccount, GetAccount, check.
  destruct (accounts (blockCache exe) !! in_Address (call_Input tx))
    as [inAcc|] eqn:Hin; cbv beta iota zeta.
  2:{ intros [= <- <-]; left; split; [discriminate|reflexivity]. }
  destruct (checkInputPubKey inAcc (call_Input tx)) as [[bound input']| |]
    eqn:Hbound.
  all: destruct (call_Address tx) as [address|] eqn:Haddr;
    [rewrite bool_decide_eq_false_2 by discriminate
    |rewrite bool_decide_eq_true_2 by reflexivity];
    cbv beta iota zeta.
  all: cbn [call_Input call_Address call_Fee call_GasLimit call_Data fst snd].
  all: repeat (exec_step;
    cbn [call_Input call_Address call_Fee call_GasLimit call_Data fst snd]).
  all: try (intros [= <- <-]; left; split; [discriminate|reflexivity]).
  all: intros Hrest; right; exists inAcc, bound, input'.
  all: (split; [reflexivity|]; split; [exact Hbound|]; split; [assumption|]).
  all: (split; [apply Z.ltb_ge; assumption|]).
  all: cbn [runCall set_blockCache] in *.
  all: try exact Hrest.
  all: try congruence.
  all: injection Hrest as <- <-; split; reflexivity.
Qed.


Lemma callFailed_intro (exe exe' : executor) (events : list Event) :
  eventCache exe' = eventCache exe ++ events ->
  Exists (fun e => exception_of e <> None) events ->
  callFailed exe exe'.
Proof.
  intros Hevents. unfold callFailed.
  rewrite Hevents, drop_app_length. trivial.
Qed.

Lemma callFailed_elim (exe exe' : executor) (events : list Event) :
  eventCache exe' = eventCache exe ++ events ->
  callFailed exe exe' ->
  Exists (fun e => exception_of e <> None) events.
Proof.
  intros Hevents. unfold callFailed.
  rewrite Hevents, drop_app_length. trivial.
Qed.

Lemma vm_events_no_exception (events : list (string * list Byte.byte)) :
  ~ Exists (fun e => exception_of e <> None)
      (map (fun ev => EventVM ev.1 ev.2) events).
Proof.
  rewrite Exists_exists. intros (e & He & Hex).
  apply list_elem_of_In, in_map_iff in He as (ev & <- & _). apply Hex. reflexivity.
Qed.


(** The commit path of a CallTx returns no error. Either the call fails,
    and the block cache is left as it is, or it succeeds, and the Tx cache
    is synced into the block cache, with the caller and the callee as the
    VM leaves them. *)
Lemma runCallTx_inv (exe exe' : executor) (tx : CallTx) (inAcc : Account)
  (outAcc : option Account) (value : Z) (r : Res unit) :
  runCallTx tx inAcc outAcc value exe = (r, exe') ->
  ((exists msg, r = Panic msg) /\ exe' = exe) \/
  (r = Ok tt /\ callFailed exe exe' /\ blockCache exe' = blockCache exe) \/
  (r = Ok tt /\ ~ callFailed exe exe' /\
   exists caller callee code,
     call_parties exe tx inAcc outAcc = Ok (caller, callee, code) /\
     let t := tip exe in
     let res :=
       vm_Call (mkParams (LastBlockHeight t) (LeftPadWord256 (LastBlockHash t))
                         (LastBlockTime t) GasLimit)
               (acc_Address caller) (TxHash (chainID exe) (TxCall tx))
               (TxCache_UpdateAccount
                  (TxCache_UpdateAccount (NewTxCache (blockCache exe)) caller)
                  callee)
               caller callee code (call_Data tx) value (call_GasLimit tx) in
     res_err res = None /\
     blockCache exe' =
       TxCache_Sync
         (TxCache_UpdateAccount
            (TxCache_UpdateAccount (res_cache res) (res_caller res))
            (if bool_decide (call_Address tx = None)
             then SetCode (res_callee res) (res_ret res)
             else res_callee res))
         (blockCache exe)).
Proof.
  unfold runCallTx, call_parties. exec_unfold.
  destruct (call_Address tx) as [address|] eqn:Haddr;
    [rewrite bool_decide_eq_false_2 by discriminate
    |rewrite bool_decide_eq_true_2 by reflexivity];
    cbv beta iota zeta; cbn [negb andb].
  - destruct outAcc as [callee|]; cbv beta iota zeta.
    + destruct (bool_decide (length (acc_Code callee) = 0%nat)) eqn:Hcode;
        cbv beta iota zeta; cbn [fst snd].
      * intros [= <- <-]. right. left. split; [reflexivity|].
        split; [|reflexivity].
        eapply callFailed_intro.
        { cbn [eventCache Fire]. rewrite <- app_assoc. reflexivity. }
        apply Exists_cons_hd. cbn. discriminate.
      * destruct (res_err _) as [err|] eqn:Herr; cbv beta iota zeta;
          cbn [fst snd]; intros [= <- <-]; right.
        -- left. split; [reflexivity|]. split; [|reflexivity].
           eapply callFailed_intro.
           { cbn [eventCache Fire]. rewrite <- !app_assoc. reflexivity. }
           apply Exists_app. right. apply Exists_cons_hd. cbn. discriminate.
        -- right. split; [reflexivity|]. split.
           { intros Hfailed. eapply callFailed_elim in Hfailed.
             2:{ cbn [eventCache Fire set_blockCache]. rewrite <- !app_assoc.
                 reflexivity. }
             apply Exists_app in Hfailed as [Hvm|Hown].
             - exact (vm_events_no_exception _ Hvm).
             - apply Exists_cons in Hown as [Hhd|Htl]; [apply Hhd; reflexivity|].
               apply Exists_cons in Htl as [Hhd|Htl]; [apply Hhd; reflexivity|].
               apply Exists_nil in Htl as []. }
           eexists _, _, _. split; [reflexivity|]. cbv zeta.
           split; [exact Herr|]. reflexivity.
    + intros [= <- <-]. right. left. split; [reflexivity|].
      split; [|reflexivity].
      eapply callFailed_intro.
      { cbn [eventCache Fire]. rewrite <- app_assoc. reflexivity. }
      apply Exists_cons_hd. cbn. discriminate.
  - unfold GlobalAccountPermissions, GlobalPermissionsAccount.
    destruct (GetAccount (state exe) GlobalPermissionsAddress) as [global|]
      eqn:Hglobal; cbn [res_bind]; cbv beta iota zeta;
      [|intros [= <- <-]; left; split; [eauto|reflexivity]].
    cbn [fst snd].
    destruct (res_err _) as [err|] eqn:Herr; cbv beta iota zeta;
      cbn [fst snd]; intros [= <- <-]; right.
    + left. split; [reflexivity|]. split; [|reflexivity].
      eapply callFailed_intro.
      { cbn [eventCache Fire]. rewrite <- !app_assoc. reflexivity. }
      apply Exists_app. right. apply Exists_cons_hd. cbn. discriminate.
    + right. split; [reflexivity|]. split.
      { intros Hfailed. eapply callFailed_elim in Hfailed.
        2:{ cbn [eventCache Fire set_blockCache exec_ret]. rewrite <- !app_assoc.
            reflexivity. }
        apply Exists_app in Hfailed as [Hvm|Hown].
        - exact (vm_events_no_exception _ Hvm).
        - apply Exists_cons in Hown as [Hhd|Htl]; [apply Hhd; reflexivity|].
          apply Exists_nil in Htl as []. }
      eexists _, _, _. split; [reflexivity|]. cbv zeta.
      split; [exact Herr|]. reflexivity.
Qed.


Lemma callFailed_same_events (exe0 exe exe' : executor) :
  eventCache exe0 = eventCache exe ->
  callFailed exe0 exe' <-> callFailed exe exe'.
Proof. unfold callFailed. intros ->. reflexivity. Qed.

Lemma not_callFailed_refl (exe : executor) : ~ callFailed exe exe.
Proof.
  unfold callFailed. rewrite drop_all. intros H. apply Exists_nil in H as [].
Qed.

(** The caller once [checkInputPubKey] and the fee debit are through. *)
Lemma debited_caller (cache : BlockCache) (inAcc bound : Account)
  (i i' : TxInput) (signBytes : list Byte.byte) (fee : Z) :
  wf_cache cache -> is_uint64 fee ->
  accounts cache !! in_Address i = Some inAcc ->
  checkInputPubKey inAcc i = Ok (bound, i') ->
  validateInput bound signBytes i' = None ->
  fee <= in_Amount i' ->
  let debited := SubtractFromBalance (IncSequence bound) fee in
  acc_Address debited = in_Address i /\
  acc_Sequence debited = acc_Sequence inAcc + 1 /\
  acc_Balance debited = acc_Balance inAcc - fee /\
  in_Amount i' = in_Amount i /\
  in_Amount i <= acc_Balance inAcc /\
  wf_account inAcc.
Proof.
  intros Hwf Hfee Hin Hbound Hvalid Hle debited.
  destruct (wf_cache_lookup _ _ _ Hwf Hin) as (Haddr & Hacc).
  pose proof Hacc as (Hb & Hs0 & Hs2).
  apply checkInputPubKey_Ok in Hbound
    as ((Ha & Hseq & Hbal & _) & (_ & Hamt & _)).
  apply validateInput_None in Hvalid as (_ & _ & _ & Hcover).
  unfold is_uint64 in *. subst debited. cbn. rewrite Ha, Hseq, Hbal.
  repeat split; try assumption; try lia.
  - apply uint64_id. unfold is_uint64. lia.
  - apply uint64_id. unfold is_uint64. lia.
Qed.

(** The commit path of a CallTx whose call fails: nil is returned, and the
    block cache is the one before the transaction with the caller written
    back, its sequence incremented and the fee debited. *)
Lemma CallTx_commit_failure (exe exe' : executor) (tx : CallTx)
  (r : Res unit) :
  wf_cache (blockCache exe) -> is_uint64 (call_Fee tx) ->
  runCall exe = true ->
  ExecuteCallTx tx exe = (r, exe') ->
  callFailed exe exe' ->
  r = Ok tt /\
  exists acc debited,
    accounts (blockCache exe) !! in_Address (call_Input tx) = Some acc /\
    acc_Address debited = in_Address (call_Input tx) /\
    acc_Sequence debited = acc_Sequence acc + 1 /\
    acc_Balance debited = acc_Balance acc - call_Fee tx /\
    blockCache exe' = UpdateAccount (blockCache exe) debited.
Proof.
  intros Hwf Hfee Hrun Hexec Hfailed.
  apply ExecuteCallTx_inv in Hexec
    as [[_ ->]|(inAcc & bound & input' & Hin & Hbound & Hvalid & Hle & Hrest)].
  { destruct (not_callFailed_refl _ Hfailed). }
  cbv zeta in Hrest. rewrite Hrun in Hrest.
  destruct (debited_caller _ _ _ _ _ _ _ Hwf Hfee Hin Hbound Hvalid Hle)
    as (Haddr & Hseq & Hbal & _).
  apply runCallTx_inv in Hrest
    as [[_ ->]|[(-> & _ & Hcache)|(_ & Hnot & _)]].
  - exfalso. eapply not_callFailed_refl, callFailed_same_events; [|exact Hfailed].
    reflexivity.
  - split; [reflexivity|]. eexists _, _.
    split; [exact Hin|]. split; [exact Haddr|]. split; [exact Hseq|].
    split; [exact Hbal|]. exact Hcache.
  - exfalso. apply Hnot. eapply callFailed_same_events; [|exact Hfailed].
    reflexivity.
Qed.


(** The check path of a CallTx: the fee and the value, that is the amount of
    the input, are debited, and the sequence of the caller advances by one,
    or by two when the transaction creates a contract. *)
Lemma CallTx_check_path (exe exe' : executor) (tx : CallTx) :
  wf_cache (blockCache exe) -> is_uint64 (call_Fee tx) ->
  runCall exe = false ->
  Execute exe (TxCall tx) = (Ok tt, exe') ->
  exists acc acc',
    accounts (blockCache exe) !! in_Address (call_Input tx) = Some acc /\
    accounts (blockCache exe') !! in_Address (call_Input tx) = Some acc' /\
    acc_Sequence acc' =
      acc_Sequence acc +
        match call_Address tx with Some _ => 1 | None => 2 end /\
    acc_Balance acc' = acc_Balance acc - in_Amount (call_Input tx).
Proof.
  intros Hwf Hfee Hrun Hexec.
  change (ExecuteCallTx tx exe = (Ok tt, exe')) in Hexec.
  apply ExecuteCallTx_inv in Hexec
    as [[Hr _]|(inAcc & bound & input' & Hin & Hbound & Hvalid & Hle & Hrest)];
    [contradiction|].
  cbv zeta in Hrest. rewrite Hrun in Hrest. destruct Hrest as [_ ->].
  destruct (debited_caller _ _ _ _ _ _ _ Hwf Hfee Hin Hbound Hvalid Hle)
    as (Haddr & Hseq & Hbal & Hamt & Hcover & (Hb & Hs0 & Hs2)).
  set (debited := SubtractFromBalance (IncSequence bound) (call_Fee tx)) in *.
  set (value := uint64 (in_Amount input' - call_Fee tx)).
  assert (Hvalue : value = in_Amount (call_Input tx) - call_Fee tx).
  { subst value. rewrite Hamt. apply uint64_id.
    unfold is_uint64 in *. lia. }
  exists inAcc. eexists. split; [exact Hin|].
  cbn [blockCache set_blockCache UpdateAccount accounts].
  assert (Hkey : acc_Address
            (if bool_decide (call_Address tx = None)
             then IncSequence (SubtractFromBalance debited value)
             else SubtractFromBalance debited value)
          = in_Address (call_Input tx)).
  { destruct (bool_decide _); exact Haddr. }
  rewrite Hkey. split; [apply lookup_insert_eq|].
  unfold is_uint64 in *.
  destruct (call_Address tx) as [address|];
    [rewrite bool_decide_eq_false_2 by discriminate
    |rewrite bool_decide_eq_true_2 by reflexivity].
  - split; [exact Hseq|].
    change (uint64 (acc_Balance debited - value) =
            acc_Balance inAcc - in_Amount (call_Input tx)).
    rewrite Hbal, Hvalue, uint64_id; unfold is_uint64; lia.
  - split.
    + change (uint64 (acc_Sequence debited + 1) = acc_Sequence inAcc + 2).
      rewrite Hseq, uint64_id; unfold is_uint64; lia.
    + change (uint64 (acc_Balance debited - value) =
              acc_Balance inAcc - in_Amount (call_Input tx)).
      rewrite Hbal, Hvalue, uint64_id; unfold is_uint64; lia.
Qed.


Lemma TxCache_Sync_caller (cache : TxCache) (backend : BlockCache)
  (caller callee : Account) :
  acc_Address callee <> acc_Address caller ->
  accounts (TxCache_Sync
              (TxCache_UpdateAccount (TxCache_UpdateAccount cache caller)
                                     callee) backend)
    !! acc_Address caller = Some caller.
Proof.
  intros Hne. cbn. rewrite lookup_merge.
  rewrite lookup_insert_ne, lookup_insert_eq by assumption.
  destruct (accounts backend !! acc_Address caller); reflexivity.
Qed.

(** C6, as the code has it. A contract-creating CallTx whose call succeeds
    in the commit path leaves the sequence of the caller at its sequence
    before the transaction plus two: the fee debit increments it once,
    [DeriveNewAccount] increments it once more on the caller object, and the
    sync of the Tx cache writes that object to the block cache, which
    [Commit] writes to the state. From sequence 0 the caller ends at 2. *)
Theorem CallTx_create_sequence (exe exe' : executor) (tx : CallTx) :
  wf_cache (blockCache exe) -> is_uint64 (call_Fee tx) ->
  vm_keeps_caller ->
  (forall a sequence, NewContractAddress a sequence <> a) ->
  runCall exe = true -> call_Address tx = None ->
  Execute exe (TxCall tx) = (Ok tt, exe') ->
  ~ callFailed exe exe' ->
  exists acc acc',
    accounts (blockCache exe) !! in_Address (call_Input tx) = Some acc /\
    accounts (state (Commit exe')) !! in_Address (call_Input tx) = Some acc' /\
    acc_Sequence acc' = acc_Sequence acc + 2.
Proof.
  intros Hwf Hfee Hvm Hnew Hrun Hcreate Hexec Hok.
  change (ExecuteCallTx tx exe = (Ok tt, exe')) in Hexec.
  apply ExecuteCallTx_inv in Hexec
    as [[Hr _]|(inAcc & bound & input' & Hin & Hbound & Hvalid & Hle & Hrest)];
    [contradiction|].
  cbv zeta in Hrest. rewrite Hrun in Hrest.
  destruct (debited_caller _ _ _ _ _ _ _ Hwf Hfee Hin Hbound Hvalid Hle)
    as (Haddr & Hseq & _ & _ & _ & (_ & Hs0 & Hs2)).
  set (debited := SubtractFromBalance (IncSequence bound) (call_Fee tx)) in *.
  apply runCallTx_inv in Hrest
    as [[[msg [=]] _]|[(_ & Hfailed & _)|(_ & _ & Hsync)]].
  { exfalso. apply Hok. eapply callFailed_same_events; [|exact Hfailed].
    reflexivity. }
  destruct Hsync as (caller & callee & code & Hparties & Hsync).
  cbv zeta in Hsync. destruct Hsync as (Herr & Hcache).
  pose proof (Hvm _ _ _ _ _ _ _ _ _ _ Herr) as Hkeeps. cbv zeta in Hkeeps.
  match type of Herr with res_err ?r = None => set (res := r) in * end.
  destruct Hkeeps as (Hca & Hcs & Hce).
  unfold call_parties in Hparties. cbn [call_Address] in Hparties.
  rewrite Hcreate in Hparties.
  destruct (GlobalAccountPermissions _) as [perms| |]; cbn [res_bind] in Hparties;
    try discriminate.
  injection Hparties as Hcaller Hcallee _.
  assert (Hcaddr : acc_Address caller = in_Address (call_Input tx))
    by (rewrite <- Hcaller; exact Haddr).
  assert (Hcseq : acc_Sequence caller = acc_Sequence inAcc + 2).
  { rewrite <- Hcaller.
    change (uint64 (acc_Sequence debited + 1) = acc_Sequence inAcc + 2).
    rewrite Hseq, uint64_id; unfold is_uint64; lia. }
  assert (Hceaddr : acc_Address callee <> acc_Address caller).
  { rewrite <- Hcallee, <- Hcaller. cbn. apply Hnew. }
  exists inAcc, (res_caller res). split; [exact Hin|].
  cbn [Commit state]. rewrite Hcache. split.
  - rewrite <- Hcaddr, <- Hca. apply TxCache_Sync_caller.
    rewrite Hca. destruct (bool_decide _); cbn [acc_Address SetCode];
      rewrite Hce; exact Hceaddr.
  - rewrite Hcs. exact Hcseq.
Qed.

(** ** NameTx *)

(** A NameTx either stops with an error or a panic, leaving the executor as
    it was, or it updates the name registry, increments the sequence of the
    input account and debits the value, the amount less the fee. *)
Lemma ExecuteNameTx_inv (exe exe' : executor) (tx : NameTx) (r : Res unit) :
  ExecuteNameTx tx exe = (r, exe') ->
  (r <> Ok tt /\ exe' = exe) \/
  (r = Ok tt /\
   exists inAcc bound input',
     accounts (blockCache exe) !! in_Address (name_Input tx) = Some inAcc /\
     hasNamePermission (blockCache exe) inAcc = Ok true /\
     checkInputPubKey inAcc (name_Input tx) = Ok (bound, input') /\
     let tx' := mkNameTx input' (name_Name tx) (name_Data tx) (name_Fee tx) in
     validateInput bound (SignBytes (chainID exe) (TxName tx')) input' = None /\
     name_Fee tx <= in_Amount input' /\
     let value := uint64 (in_Amount input' - name_Fee tx) in
     let costPerBlock :=
       NameCostPerBlock (NameBaseCost (name_Name tx) (name_Data tx)) in
     let h := LastBlockHeight (tip exe) in
     costPerBlock <> 0 /\
     accounts (blockCache exe') =
       <[acc_Address bound := SubtractFromBalance (IncSequence bound) value]>
         (accounts (blockCache exe)) /\
     storages (blockCache exe') = storages (blockCache exe) /\
     match names (blockCache exe) !! name_Name tx with
     | None =>
         MinNameRegistrationPeriod <= value / costPerBlock /\
         names (blockCache exe') =
           <[name_Name tx :=
               mkNameRegEntry (name_Name tx) (in_Address input') (name_Data tx)
                              (uint64 (h + value / costPerBlock))]>
             (names (blockCache exe))
     | Some entry =>
         (h < entry_Expires entry -> entry_Owner entry = in_Address input') /\
         if (value =? 0) && bool_decide (String.length (name_Data tx) = 0%nat)
         then names (blockCache exe') =
                delete (entry_Name entry) (names (blockCache exe))
         else if h <? entry_Expires entry
         then
           let oldCredit :=
             uint64 (uint64 (entry_Expires entry - h) *
                     NameBaseCost (entry_Name entry) (entry_Data entry)) in
           let credit := uint64 (oldCredit + value) in
           MinNameRegistrationPeriod <= credit / costPerBlock /\
           names (blockCache exe') =
             <[entry_Name entry :=
                 mkNameRegEntry (entry_Name entry) (entry_Owner entry)
                                (name_Data tx)
                                (uint64 (h + credit / costPerBlock))]>
               (names (blockCache exe))
         else
           MinNameRegistrationPeriod <= value / costPerBlock /\
           names (blockCache exe') =
             <[entry_Name entry :=
                 mkNameRegEntry (entry_Name entry) (in_Address input')
                                (name_Data tx)
                                (uint64 (h + value / costPerBlock))]>
               (names (blockCache exe))
     end).
Proof.
  unfold ExecuteNameTx. exec_unfold.
  unfold GetMutableAccount, GetAccount, GetNameRegEntry, check, divide.
  destruct (accounts (blockCache exe) !! in_Address (name_Input tx))
    as [inAcc|] eqn:Hin; cbv beta iota zeta.
  2:{ intros [= <- <-]; left; split; [discriminate|reflexivity]. }
  destruct (hasNamePermission (blockCache exe) inAcc) as [[|]| |] eqn:Hperm;
    cbn [negb]; cbv beta iota zeta.
  2-4: intros [= <- <-]; left; split; [discriminate|reflexivity].
  destruct (checkInputPubKey inAcc (name_Input tx)) as [[bound input']| |]
    eqn:Hbound; cbv beta iota zeta.
  2-3: intros [= <- <-]; left; split; [discriminate|reflexivity].
  cbn [name_Input name_Name name_Data name_Fee fst snd].
  destruct (validateInput bound _ input') as [err|] eqn:Hvalid;
    cbv beta iota zeta.
  1: intros [= <- <-]; left; split; [discriminate|reflexivity].
  destruct (in_Amount input' <? name_Fee tx) eqn:Hfee; cbv beta iota zeta.
  1: intros [= <- <-]; left; split; [discriminate|reflexivity].
  apply Z.ltb_ge in Hfee.
  destruct (NameTx_ValidateStrings _) as [err|] eqn:Hstrings;
    cbv beta iota zeta.
  1: intros [= <- <-]; left; split; [discriminate|reflexivity].
  set (value := uint64 (in_Amount input' - name_Fee tx)).
  set (costPerBlock := NameCostPerBlock _).
  destruct (costPerBlock =? 0) eqn:Hcost; cbv beta iota zeta.
  1: intros [= <- <-]; left; split; [discriminate|reflexivity].
  apply Z.eqb_neq in Hcost.
  destruct (names (blockCache exe) !! name_Name tx) as [entry|] eqn:Hentry;
    cbv beta iota zeta.
  - destruct (LastBlockHeight (tip exe) <? entry_Expires entry) eqn:Hexp;
      cbv beta iota zeta.
    + destruct (decide (entry_Owner entry ≠ in_Address input')) as [Hown|Hown];
        cbv beta iota zeta.
      1: intros [= <- <-]; left; split; [discriminate|reflexivity].
      apply dec_stable in Hown.
      destruct ((value =? 0) && _) eqn:Hdel; cbv beta iota zeta.
      * intros [= <- <-]. right. split; [reflexivity|].
        exists inAcc, bound, input'. cbv zeta. fold value costPerBlock.
        rewrite Hdel, ?Hexp.
        repeat split; auto.
      * destruct (_ <? MinNameRegistrationPeriod) eqn:Hmin; cbv beta iota zeta.
        1: intros [= <- <-]; left; split; [discriminate|reflexivity].
        apply Z.ltb_ge in Hmin.
        intros [= <- <-]. right. split; [reflexivity|].
        exists inAcc, bound, input'. cbv zeta. fold value costPerBlock.
        rewrite Hdel, ?Hexp.
        repeat split; auto.
    + destruct ((value =? 0) && _) eqn:Hdel; cbv beta iota zeta.
      * intros [= <- <-]. right. split; [reflexivity|].
        exists inAcc, bound, input'. cbv zeta. fold value costPerBlock.
        rewrite Hdel, ?Hexp. apply Z.ltb_ge in Hexp.
        repeat split; auto; lia.
      * destruct (_ <? MinNameRegistrationPeriod) eqn:Hmin; cbv beta iota zeta.
        1: intros [= <- <-]; left; split; [discriminate|reflexivity].
        apply Z.ltb_ge in Hmin.
        intros [= <- <-]. right. split; [reflexivity|].
        exists inAcc, bound, input'. cbv zeta. fold value costPerBlock.
        rewrite Hdel, ?Hexp. apply Z.ltb_ge in Hexp.
        repeat split; auto; lia.
  - destruct (_ <? MinNameRegistrationPeriod) eqn:Hmin; cbv beta iota zeta.
    1: intros [= <- <-]; left; split; [discriminate|reflexivity].
    apply Z.ltb_ge in Hmin.
    intros [= <- <-]. right. split; [reflexivity|].
    exists inAcc, bound, input'. cbv zeta. fold value costPerBlock.
    repeat split; auto.
Qed.


(** The debit of a NameTx: the sequence advances by one and the value, the
    amount less the fee, leaves the balance; the fee stays. *)
Lemma NameTx_debit (exe exe' : executor) (tx : NameTx) :
  wf_cache (blockCache exe) -> is_uint64 (name_Fee tx) ->
  Execute exe (TxName tx) = (Ok tt, exe') ->
  exists acc acc',
    accounts (blockCache exe) !! in_Address (name_Input tx) = Some acc /\
    accounts (blockCache exe') !! in_Address (name_Input tx) = Some acc' /\
    acc_Sequence acc' = acc_Sequence acc + 1 /\
    acc_Balance acc' =
      acc_Balance acc - (in_Amount (name_Input tx) - name_Fee tx).
Proof.
  intros Hwf Hfee Hexec.
  change (ExecuteNameTx tx exe = (Ok tt, exe')) in Hexec.
  apply ExecuteNameTx_inv in Hexec
    as [[Hr _]|(_ & inAcc & bound & input' & Hin & _ & Hbound & Hrest)];
    [contradiction|].
  cbv zeta in Hrest.
  destruct Hrest as (Hvalid & Hle & _ & Haccounts & _).
  destruct (debited_caller _ _ _ _ _ _ _ Hwf Hfee Hin Hbound Hvalid Hle)
    as (Haddr & Hseq & _ & Hamt & Hcover & (Hb & Hs0 & Hs2)).
  apply checkInputPubKey_Ok in Hbound as ((Ha & _ & Hbal & _) & _).
  change (acc_Address bound = in_Address (name_Input tx)) in Haddr.
  exists inAcc. eexists. split; [exact Hin|].
  rewrite Haccounts, Haddr. split; [apply lookup_insert_eq|].
  split; [exact Hseq|].
  change (uint64 (acc_Balance bound -
                  uint64 (in_Amount input' - name_Fee tx)) =
          acc_Balance inAcc - (in_Amount (name_Input tx) - name_Fee tx)).
  unfold is_uint64 in *.
  rewrite Hbal, Hamt, (uint64_id (_ - name_Fee tx)) by (unfold is_uint64; lia).
  apply uint64_id. unfold is_uint64. lia.
Qed.


(** C10. A NameTx with value 0 (the amount is the fee) and empty data that
    names an entry which has expired (its expiry is not above the height
    of the last block) succeeds and removes the entry, once the input has
    passed validation: the sender has the Name permission, its key is known
    or bound, the input is valid and the strings are. Neither the owner of
    the entry nor [MinNameRegistrationPeriod] is looked at: the statement
    constrains neither. *)
Theorem NameTx_removes_expired_entry (exe : executor) (tx : NameTx)
  (inAcc bound : Account) (input' : TxInput) (entry : NameRegEntry) :
  let tx' := mkNameTx input' (name_Name tx) (name_Data tx) (name_Fee tx) in
  accounts (blockCache exe) !! in_Address (name_Input tx) = Some inAcc ->
  hasNamePermission (blockCache exe) inAcc = Ok true ->
  checkInputPubKey inAcc (name_Input tx) = Ok (bound, input') ->
  validateInput bound (SignBytes (chainID exe) (TxName tx')) input' = None ->
  NameTx_ValidateStrings tx' = None ->
  NameCostPerBlock (NameBaseCost (name_Name tx) (name_Data tx)) <> 0 ->
  in_Amount (name_Input tx) = name_Fee tx ->
  name_Data tx = EmptyString ->
  names (blockCache exe) !! name_Name tx = Some entry ->
  entry_Name entry = name_Name tx ->
  entry_Expires entry <= LastBlockHeight (tip exe) ->
  exists exe',
    Execute exe (TxName tx) = (Ok tt, exe') /\
    names (blockCache exe') !! name_Name tx = None /\
    (forall name, name <> name_Name tx ->
       names (blockCache exe') !! name = names (blockCache exe) !! name).
Proof.
  intros tx' Hin Hperm Hbound Hvalid Hstrings Hcost Hvalue Hdata Hentry Hname
    Hexpired.
  pose proof (checkInputPubKey_Ok _ _ _ _ Hbound) as (_ & (_ & Hamt & _)).
  change (Execute exe (TxName tx)) with (ExecuteNameTx tx exe).
  unfold ExecuteNameTx. exec_unfold.
  unfold GetMutableAccount, GetAccount, GetNameRegEntry, check, divide.
  rewrite Hin. cbv beta iota zeta. rewrite Hperm. cbn [negb].
  cbv beta iota zeta. rewrite Hbound. cbv beta iota zeta.
  cbn [name_Input name_Name name_Data name_Fee fst snd].
  fold tx'. rewrite Hvalid. cbv beta iota zeta.
  rewrite Hamt, Hvalue, Z.ltb_irrefl. rewrite Hstrings. cbv beta iota zeta.
  rewrite Z.sub_diag. change (uint64 0) with 0.
  apply Z.eqb_neq in Hcost. rewrite Hcost. cbv beta iota zeta.
  rewrite Hentry. cbv beta iota zeta.
  apply Z.ltb_ge in Hexpired. rewrite Hexpired. cbv beta iota zeta.
  rewrite Hdata. cbn [andb Z.eqb String.length bool_decide].
  rewrite bool_decide_eq_true_2 by reflexivity. cbv beta iota zeta.
  eexists. split; [reflexivity|].
  cbn [blockCache set_blockCache Fire UpdateAccount RemoveNameRegEntry names].
  rewrite Hname. split; [apply lookup_delete_eq|].
  intros name Hne. apply lookup_delete_ne. congruence.
Qed.

(** ** PermissionsTx *)

Lemma mutatePermissions_address (cache : BlockCache) (address : Address)
  (mutator : AccountPermissions -> Res AccountPermissions) (acc : Account) :
  wf_cache cache ->
  mutatePermissions cache address mutator = Ok acc ->
  acc_Address acc = address.
Proof.
  intros Hwf. unfold mutatePermissions, GetAccount.
  destruct (accounts cache !! address) as [account|] eqn:Hacc; [|discriminate].
  destruct (mutator _) as [perms| |]; cbn; [|discriminate..].
  intros [= <-]. cbn. apply (wf_cache_lookup _ _ _ Hwf Hacc).
Qed.

(** A PermissionsTx either stops with an error or a panic, leaving the
    executor as it was, or it writes the debited input account and then the
    account with the mutated permissions. *)
Lemma ExecutePermissionsTx_inv (exe exe' : executor) (tx : PermissionsTx)
  (r : Res unit) :
  wf_cache (blockCache exe) ->
  ExecutePermissionsTx tx exe = (r, exe') ->
  (r <> Ok tt /\ exe' = exe) \/
  (r = Ok tt /\
   exists inAcc bound input' permAcc,
     accounts (blockCache exe) !! in_Address (perm_Input tx) = Some inAcc /\
     checkInputPubKey inAcc (perm_Input tx) = Ok (bound, input') /\
     let tx' := mkPermissionsTx input' (perm_PermArgs tx) in
     validateInput bound (SignBytes (chainID exe) (TxPermissions tx')) input'
       = None /\
     acc_Address permAcc = perm_target tx /\
     blockCache exe' =
       UpdateAccount
         (UpdateAccount (blockCache exe)
            (SubtractFromBalance (IncSequence bound) (in_Amount input')))
         permAcc).
Proof.
  intros Hwf. unfold ExecutePermissionsTx. exec_unfold.
  unfold GetMutableAccount, GetAccount, check.
  destruct (accounts (blockCache exe) !! in_Address (perm_Input tx))
    as [inAcc|] eqn:Hin; cbv beta iota zeta.
  2:{ intros [= <- <-]; left; split; [discriminate|reflexivity]. }
  destruct (HasPermission (blockCache exe) inAcc _) as [[|]| |] eqn:Hperm;
    cbn [negb]; cbv beta iota zeta.
  2-4: intros [= <- <-]; left; split; [discriminate|reflexivity].
  destruct (checkInputPubKey inAcc (perm_Input tx)) as [[bound input']| |]
    eqn:Hbound; cbv beta iota zeta.
  2-3: intros [= <- <-]; left; split; [discriminate|reflexivity].
  cbn [perm_Input perm_PermArgs fst snd].
  destruct (validateInput bound _ input') as [err|] eqn:Hvalid;
    cbv beta iota zeta.
  1: intros [= <- <-]; left; split; [discriminate|reflexivity].
  match goal with
  | |- context [match ?m with (Ok _) => _ | _ => _ end] =>
      destruct m as [permAcc| |] eqn:Hmutate
  end; cbv beta iota zeta.
  2-3: intros [= <- <-]; left; split; [discriminate|reflexivity].
  intros [= <- <-]. right. split; [reflexivity|].
  exists inAcc, bound, input', permAcc.
  split; [reflexivity|]. split; [exact Hbound|]. split; [exact Hvalid|].
  split; [|reflexivity].
  unfold perm_target. cbv zeta.
  repeat (destruct (decide _) as [?|?] in Hmutate; try discriminate);
    repeat (destruct (decide _) as [?|?]; try congruence);
    eapply mutatePermissions_address; eassumption.
Qed.

(** The debit of a PermissionsTx whose target is not the input account:
    the sequence advances by one and the amount leaves the balance. (When
    the target is the input account the write of [permAcc] replaces the
    debited account.) *)
Lemma PermissionsTx_debit (exe exe' : executor) (tx : PermissionsTx) :
  wf_cache (blockCache exe) -> is_uint64 (in_Amount (perm_Input tx)) ->
  perm_target tx <> in_Address (perm_Input tx) ->
  Execute exe (TxPermissions tx) = (Ok tt, exe') ->
  exists acc acc',
    accounts (blockCache exe) !! in_Address (perm_Input tx) = Some acc /\
    accounts (blockCache exe') !! in_Address (perm_Input tx) = Some acc' /\
    acc_Sequence acc' = acc_Sequence acc + 1 /\
    acc_Balance acc' = acc_Balance acc - in_Amount (perm_Input tx).
Proof.
  intros Hwf Hamount Hother Hexec.
  change (ExecutePermissionsTx tx exe = (Ok tt, exe')) in Hexec.
  apply ExecutePermissionsTx_inv in Hexec
    as [[Hr _]|(_ & inAcc & bound & input' & permAcc & Hin & Hbound & Hrest)];
    [contradiction| |exact Hwf].
  cbv zeta in Hrest. destruct Hrest as (Hvalid & Htarget & Hcache).
  destruct (wf_cache_lookup _ _ _ Hwf Hin) as (Haddr & Hb & Hs0 & Hs2).
  pose proof (checkInputPubKey_Ok _ _ _ _ Hbound)
    as ((Ha & Hseq & Hbal & _) & (_ & Hamt & _)).
  apply validateInput_None in Hvalid as (_ & _ & _ & Hcover).
  exists inAcc. eexists. split; [exact Hin|].
  rewrite Hcache. cbn [UpdateAccount accounts].
  rewrite lookup_insert_ne by congruence.
  change (acc_Address (SubtractFromBalance (IncSequence bound)
                                           (in_Amount input')))
    with (acc_Address bound).
  rewrite Ha, Haddr. split; [apply lookup_insert_eq|].
  unfold is_uint64 in *. split.
  - change (uint64 (acc_Sequence bound + 1) = acc_Sequence inAcc + 1).
    rewrite Hseq. apply uint64_id. unfold is_uint64. lia.
  - change (uint64 (acc_Balance bound - in_Amount input') =
            acc_Balance inAcc - in_Amount (perm_Input tx)).
    rewrite Hbal, Hamt in *. apply uint64_id. unfold is_uint64. lia.
Qed.

(** ** The debit of the input accounts *)


(** ** Further properties of the executor *)

Lemma same_setting_refl (exe : executor) : same_setting exe exe.
Proof. repeat split. Qed.

Lemma ExecuteSendTx_setting (exe exe' : executor) (tx : SendTx) (r : Res Z) :
  ExecuteSendTx tx exe = (r, exe') -> same_setting exe exe'.
Proof.
  unfold ExecuteSendTx. exec_unfold.
  repeat exec_step; intros [= <- <-]; repeat split.
Qed.

Lemma runCallTx_setting (exe exe' : executor) (tx : CallTx) (inAcc : Account)
  (outAcc : option Account) (value : Z) (r : Res unit) :
  runCallTx tx inAcc outAcc value exe = (r, exe') -> same_setting exe exe'.
Proof.
  unfold runCallTx. exec_unfold.
  destruct (call_Address tx) as [address|] eqn:Haddr;
    [rewrite bool_decide_eq_false_2 by discriminate
    |rewrite bool_decide_eq_true_2 by reflexivity];
    cbv beta iota zeta; cbn [negb andb].
  - destruct outAcc as [callee|]; cbv beta iota zeta.
    + destruct (bool_decide (length (acc_Code callee) = 0%nat));
        cbv beta iota zeta; cbn [fst snd].
      * intros [= <- <-]. repeat split.
      * destruct (res_err _); cbv beta iota zeta; cbn [fst snd];
          intros [= <- <-]; repeat split.
    + intros [= <- <-]. repeat split.
  - destruct (GlobalAccountPermissions (state exe)) as [perms| |];
      cbv beta iota zeta; cbn [fst snd]; try (intros [= <- <-]; repeat split).
    destruct (res_err _); cbv beta iota zeta; cbn [fst snd];
      intros [= <- <-]; repeat split.
Qed.

Lemma ExecuteCallTx_setting (exe exe' : executor) (tx : CallTx) (r : Res unit) :
  ExecuteCallTx tx exe = (r, exe') -> same_setting exe exe'.
Proof.
  intros Hexec.
  apply ExecuteCallTx_inv in Hexec
    as [[_ ->]|(inAcc & bound & input' & _ & _ & _ & _ & Hrest)];
    [apply same_setting_refl|].
  cbv zeta in Hrest. destruct (runCall exe).
  - apply runCallTx_setting in Hrest. exact Hrest.
  - destruct Hrest as [_ ->]. repeat split.
Qed.

Lemma ExecuteNameTx_setting (exe exe' : executor) (tx : NameTx) (r : Res unit) :
  ExecuteNameTx tx exe = (r, exe') -> same_setting exe exe'.
Proof.
  unfold ExecuteNameTx. exec_unfold.
  unfold GetMutableAccount, GetAccount, GetNameRegEntry, check, divide.
  repeat exec_step; intros [= <- <-]; repeat split.
Qed.

Lemma ExecutePermissionsTx_failure (exe exe' : executor) (tx : PermissionsTx)
  (r : Res unit) :
  ExecutePermissionsTx tx exe = (r, exe') -> r <> Ok tt -> exe' = exe.
Proof.
  unfold ExecutePermissionsTx. exec_unfold.
  unfold GetMutableAccount, GetAccount, check.
  destruct (accounts (blockCache exe) !! in_Address (perm_Input tx))
    as [inAcc|]; cbv beta iota zeta; [|intros [= <- <-]; reflexivity].
  destruct (HasPermission (blockCache exe) inAcc _) as [[|]| |];
    cbn [negb]; cbv beta iota zeta; try (intros [= <- <-]; reflexivity).
  destruct (checkInputPubKey inAcc (perm_Input tx)) as [[bound input']| |];
    cbv beta iota zeta; try (intros [= <- <-]; reflexivity).
  cbn [perm_Input perm_PermArgs fst snd].
  destruct (validateInput bound _ input'); cbv beta iota zeta;
    [intros [= <- <-]; reflexivity|].
  match goal with
  | |- context [match ?m with (Ok _) => _ | _ => _ end] =>
      destruct m as [permAcc| |]
  end; cbv beta iota zeta; intros [= <- <-] Hr;
    try reflexivity; contradiction.
Qed.

Lemma ExecutePermissionsTx_setting (exe exe' : executor)
  (tx : PermissionsTx) (r : Res unit) :
  ExecutePermissionsTx tx exe = (r, exe') -> same_setting exe exe'.
Proof.
  intros Hexec.
  assert (Hcases : r = Ok tt \/ r <> Ok tt)
    by (destruct r as [[]| |]; [left; reflexivity|right; discriminate..]).
  destruct Hcases as [->|Hr].
  - revert Hexec. unfold ExecutePermissionsTx. exec_unfold.
    unfold GetMutableAccount, GetAccount, check.
    destruct (accounts (blockCache exe) !! in_Address (perm_Input tx))
      as [inAcc|]; cbv beta iota zeta; [|discriminate].
    destruct (HasPermission (blockCache exe) inAcc _) as [[|]| |];
      cbn [negb]; cbv beta iota zeta; try discriminate.
    destruct (checkInputPubKey inAcc (perm_Input tx)) as [[bound input']| |];
      cbv beta iota zeta; try discriminate.
    cbn [perm_Input perm_PermArgs fst snd].
    destruct (validateInput bound _ input'); cbv beta iota zeta;
      [discriminate|].
    match goal with
    | |- context [match ?m with (Ok _) => _ | _ => _ end] =>
        destruct m as [permAcc| |]
    end; cbv beta iota zeta; intros [= <-]; repeat split.
  - rewrite (ExecutePermissionsTx_failure _ _ _ _ Hexec Hr).
    apply same_setting_refl.
Qed.

(** [Execute] writes the block cache and the event cache only. *)
Lemma Execute_setting (exe exe' : executor) (tx : Tx) (r : Res unit) :
  Execute exe tx = (r, exe') -> same_setting exe exe'.
Proof.
  destruct tx as [tx|tx|tx|tx].
  - rewrite Execute_TxSend.
    destruct (ExecuteSendTx tx exe) as [r0 exe0] eqn:Hsend.
    apply ExecuteSendTx_setting in Hsend.
    destruct r0; intros [= <- <-]; exact Hsend.
  - apply ExecuteCallTx_setting.
  - apply ExecuteNameTx_setting.
  - apply ExecutePermissionsTx_setting.
Qed.

(** X1. An error of [Execute] leaves the executor untouched, whatever the
    transaction family: every error is returned before the first write to
    the block cache and before the first event. *)
Theorem Execute_error_changes_nothing (exe exe' : executor) (tx : Tx)
  (e : Error) :
  Execute exe tx = (Err e, exe') -> exe' = exe.
Proof.
  destruct tx as [tx|tx|tx|tx].
  - rewrite Execute_TxSend.
    destruct (ExecuteSendTx tx exe) as [r0 exe0] eqn:Hsend.
    destruct r0; intros [= <-]; try subst.
    eapply ExecuteSendTx_failure; [exact Hsend|discriminate].
  - intros Hexec. change (ExecuteCallTx tx exe = (Err e, exe')) in Hexec.
    apply ExecuteCallTx_inv in Hexec
      as [[_ ->]|(inAcc & bound & input' & _ & _ & _ & _ & Hrest)];
      [reflexivity|].
    cbv zeta in Hrest. destruct (runCall exe).
    + apply runCallTx_inv in Hrest
        as [[[msg [=]] _]|[([=] & _)|([=] & _)]].
    + destruct Hrest as [[=] _].
  - intros Hexec. change (ExecuteNameTx tx exe = (Err e, exe')) in Hexec.
    apply ExecuteNameTx_inv in Hexec as [[_ ->]|([=] & _)]. reflexivity.
  - intros Hexec. eapply ExecutePermissionsTx_failure; [exact Hexec|].
    discriminate.
Qed.

(** X2. [Execute] never writes the backing state, and [Reset] after
    [Execute] gives the executor that [Reset] gives before it: what a
    transaction did to the block cache and the event cache is gone, until
    [Commit] is called. *)
Theorem Reset_discards_Execute (exe exe' : executor) (tx : Tx) (r : Res unit) :
  Execute exe tx = (r, exe') ->
  state exe' = state exe /\ Reset exe' = Reset exe.
Proof.
  intros Hexec.
  apply Execute_setting in Hexec as (Hchain & Htip & Hrun & Hstate & Hfired).
  split; [exact Hstate|]. unfold Reset.
  rewrite Hchain, Htip, Hrun, Hstate, Hfired. reflexivity.
Qed.

(** *** SendTx *)

(** [HasPermission] reads the permissions of the account only. *)
Lemma HasPermission_permissions (cache : BlockCache) (acc acc' : Account)
  (perm : Z) :
  acc_Permissions acc' = acc_Permissions acc ->
  HasPermission cache acc' perm = HasPermission cache acc perm.
Proof. unfold HasPermission. intros ->. reflexivity. Qed.

Lemma allHavePermission_true (cache : BlockCache) (perm : Z)
  (accs : list (N * Account)) :
  allHavePermission cache accs perm = Ok true ->
  Forall (fun p => HasPermission cache p.2 perm = Ok true) accs.
Proof.
  induction accs as [|[a acc] accs IH]; cbn; [constructor|].
  destruct (HasPermission cache acc perm) as [[|]| |] eqn:Hhas; cbn;
    try discriminate.
  intros Hrest. constructor; [exact Hhas|auto].
Qed.

Lemma allHavePermission_lookup (cache : BlockCache) (perm : Z)
  (accs : gmap N Account) (a : N) (acc : Account) :
  allHavePermission cache (map_to_list accs) perm = Ok true ->
  accs !! a = Some acc ->
  HasPermission cache acc perm = Ok true.
Proof.
  intros Hall Hacc. apply allHavePermission_true in Hall.
  rewrite Forall_forall in Hall.
  apply (Hall (a, acc)). apply elem_of_map_to_list. exact Hacc.
Qed.

(** The addresses of a successful SendTx are pairwise distinct. *)
Lemma ExecuteSendTx_NoDup (exe exe' : executor) (tx : SendTx) (fees : Z) :
  ExecuteSendTx tx exe = (Ok fees, exe') ->
  NoDup ((in_Address <$> send_Inputs tx) ++ (out_Address <$> send_Outputs tx)).
Proof.
  intros Hexec.
  apply ExecuteSendTx_inv in Hexec
    as (accs0 & ins' & accs1 & accs2 & accs3 & inTotal & outTotal & Hget &
        _ & Hout & _).
  apply getInputs_from_Ok in Hget as (Hnodup & _ & _ & _ & Hins).
  apply getOrMakeOutputs_from_Ok in Hout as (Hnodup' & Hfresh & _).
  rewrite Forall_forall in Hins. rewrite Forall_forall in Hfresh.
  apply NoDup_app. split; [exact Hnodup|]. split; [|exact Hnodup'].
  intros a (i & -> & Hi)%list_elem_of_fmap (o & Heq & Ho)%list_elem_of_fmap.
  destruct (Hins i Hi) as (acc & acc' & _ & Hl & _).
  specialize (Hfresh o Ho). rewrite <- Heq in Hfresh. congruence.
Qed.

(** X3. A SendTx that succeeds names every address once: no address is
    the address of two inputs, of two outputs, or of an input and an
    output. *)
Theorem SendTx_addresses_distinct (exe exe' : executor) (tx : SendTx) :
  Execute exe (TxSend tx) = (Ok tt, exe') ->
  NoDup ((in_Address <$> send_Inputs tx) ++ (out_Address <$> send_Outputs tx)).
Proof.
  rewrite Execute_TxSend.
  destruct (ExecuteSendTx tx exe) as [[fees| |] exe0] eqn:Hsend;
    try discriminate.
  intros _. exact (ExecuteSendTx_NoDup _ _ _ _ Hsend).
Qed.

(** The accounts a successful SendTx leaves in the block cache. *)
Lemma ExecuteSendTx_cache (exe exe' : executor) (tx : SendTx) (fees : Z) :
  wf_cache (blockCache exe) ->
  ExecuteSendTx tx exe = (Ok fees, exe') ->
  Forall (fun i => exists acc bound,
            accounts (blockCache exe) !! in_Address i = Some acc /\
            same_funds acc bound /\
            in_Amount i <= acc_Balance acc /\
            accounts (blockCache exe') !! in_Address i =
              Some (IncSequence (SubtractFromBalance bound (in_Amount i))))
         (send_Inputs tx) /\
  Forall (fun o => accounts (blockCache exe') !! out_Address o =
            Some (AddToBalance
                    (default (newAccount (out_Address o))
                             (accounts (blockCache exe) !! out_Address o))
                    (out_Amount o)))
         (send_Outputs tx) /\
  (forall a, a ∉ in_Address <$> send_Inputs tx ->
             a ∉ out_Address <$> send_Outputs tx ->
             accounts (blockCache exe') !! a = accounts (blockCache exe) !! a) /\
  storages (blockCache exe') = storages (blockCache exe) /\
  names (blockCache exe') = names (blockCache exe).
Proof.
  intros Hwf Hexec.
  apply ExecuteSendTx_inv in Hexec
    as (accs0 & ins' & accs1 & accs2 & accs3 & inTotal & outTotal & Hget &
        _ & Hout & Hvalid & _ & _ & _ & Hadjin & Hadjout & ->).
  cbn [send_Inputs send_Outputs] in *.
  destruct (sendTx_accounts _ _ _ _ _ _ _ _ _ _ Hget Hout Hvalid Hadjin Hadjout)
    as (Hins & Houts & Hother).
  rewrite Forall_forall in Hins. rewrite Forall_forall in Houts.
  assert (Hkeys : map_Forall (fun a acc => acc_Address acc = a) accs3).
  { intros a acc Hacc.
    destruct (decide (a ∈ in_Address <$> send_Inputs tx)) as [Hi|Hi].
    - apply list_elem_of_fmap in Hi as (i & -> & Hi).
      destruct (Hins i Hi) as (acc0 & bound & Hc & Hf & _ & Hl).
      rewrite Hacc in Hl. injection Hl as ->. cbn.
      destruct Hf as (-> & _). apply (wf_cache_lookup _ _ _ Hwf Hc).
    - destruct (decide (a ∈ out_Address <$> send_Outputs tx)) as [Ho|Ho].
      + apply list_elem_of_fmap in Ho as (o & -> & Ho).
        rewrite (Houts o Ho) in Hacc. injection Hacc as <-. cbn.
        destruct (accounts (blockCache exe) !! out_Address o) as [acc0|] eqn:Hc;
          cbn; [|reflexivity].
        apply (wf_cache_lookup _ _ _ Hwf Hc).
      + rewrite Hother in Hacc by assumption. discriminate. }
  rewrite (UpdateAccount_fold _ _ Hkeys). cbn.
  split; [|split; [|split; [|split; reflexivity]]].
  - rewrite Forall_forall. intros i Hi.
    destruct (Hins i Hi) as (acc & bound & Hc & Hf & Hbal & Hl).
    exists acc, bound. split; [assumption|]. split; [assumption|].
    split; [assumption|]. apply lookup_union_Some_l; assumption.
  - rewrite Forall_forall. intros o Ho.
    apply lookup_union_Some_l, (Houts o Ho).
  - intros a Hi Ho. rewrite lookup_union_r; [reflexivity|auto].
Qed.

(** X4. What a successful SendTx leaves at the address of an output: the
    account the block cache had there with the amount added to its
    balance, in [uint64], and nothing else of it changed; at an address
    without an account, a new account with no public key, sequence 0, no
    code and no permission of its own, whose balance is the amount. *)
Theorem SendTx_output_accounts (exe exe' : executor) (tx : SendTx) :
  wf_cache (blockCache exe) ->
  Execute exe (TxSend tx) = (Ok tt, exe') ->
  Forall (fun o =>
            accounts (blockCache exe') !! out_Address o =
              match accounts (blockCache exe) !! out_Address o with
              | Some acc =>
                  Some (mkAccount (acc_Address acc) (acc_PublicKey acc)
                          (acc_Sequence acc)
                          (uint64 (acc_Balance acc + out_Amount o))
                          (acc_Code acc) (acc_StorageRoot acc)
                          (acc_Permissions acc))
              | None =>
                  Some (mkAccount (out_Address o) None 0
                          (uint64 (0 + out_Amount o)) [] []
                          ZeroAccountPermissions)
              end)
         (send_Outputs tx).
Proof.
  intros Hwf. rewrite Execute_TxSend.
  destruct (ExecuteSendTx tx exe) as [[fees| |] exe0] eqn:Hsend;
    try discriminate.
  intros [= <-].
  destruct (ExecuteSendTx_cache _ _ _ _ Hwf Hsend) as (_ & Houts & _).
  eapply Forall_impl; [exact Houts|]. intros o ->.
  destruct (accounts (blockCache exe) !! out_Address o); reflexivity.
Qed.

(** X5. A SendTx writes the accounts of its inputs and outputs and nothing
    else: whatever it returns, every other account, every storage slot and
    every name entry of the block cache is as before. *)
Theorem SendTx_touches_its_parties_only (exe exe' : executor) (tx : SendTx)
  (r : Res unit) :
  wf_cache (blockCache exe) ->
  Execute exe (TxSend tx) = (r, exe') ->
  (forall a, a ∉ in_Address <$> send_Inputs tx ->
             a ∉ out_Address <$> send_Outputs tx ->
             accounts (blockCache exe') !! a = accounts (blockCache exe) !! a) /\
  storages (blockCache exe') = storages (blockCache exe) /\
  names (blockCache exe') = names (blockCache exe).
Proof.
  intros Hwf. rewrite Execute_TxSend.
  destruct (ExecuteSendTx tx exe) as [r0 exe0] eqn:Hsend.
  destruct r0 as [fees| |]; intros [= <- <-].
  - destruct (ExecuteSendTx_cache _ _ _ _ Hwf Hsend) as (_ & _ & Hrest).
    exact Hrest.
  - rewrite (ExecuteSendTx_failure _ _ _ _ Hsend) by discriminate. auto.
  - rewrite (ExecuteSendTx_failure _ _ _ _ Hsend) by discriminate. auto.
Qed.

(** *** Permissions *)

Lemma ExecuteCallTx_permission (exe exe' : executor) (tx : CallTx) :
  ExecuteCallTx tx exe = (Ok tt, exe') ->
  exists acc,
    accounts (blockCache exe) !! in_Address (call_Input tx) = Some acc /\
    HasPermission (blockCache exe) acc
      match call_Address tx with
      | Some _ => permission_Call
      | None => permission_CreateContract
      end = Ok true.
Proof.
  unfold ExecuteCallTx. exec_unfold.
  unfold GetMutableAccount, GetAccount.
  unfold hasCreateContractPermission, hasCallPermission.
  destruct (accounts (blockCache exe) !! in_Address (call_Input tx))
    as [inAcc|]; cbv beta iota zeta; [|discriminate].
  destruct (call_Address tx) as [address|];
    [rewrite bool_decide_eq_false_2 by discriminate
    |rewrite bool_decide_eq_true_2 by reflexivity];
    cbv beta iota zeta.
  all: destruct (HasPermission (blockCache exe) inAcc _) as [[|]| |] eqn:Hperm;
    cbn [negb]; cbv beta iota zeta; try discriminate.
  all: intros _; eauto.
Qed.

Lemma ExecutePermissionsTx_permission (exe exe' : executor)
  (tx : PermissionsTx) :
  ExecutePermissionsTx tx exe = (Ok tt, exe') ->
  exists acc,
    accounts (blockCache exe) !! in_Address (perm_Input tx) = Some acc /\
    HasPermission (blockCache exe) acc (pa_PermFlag (perm_PermArgs tx))
      = Ok true.
Proof.
  unfold ExecutePermissionsTx. exec_unfold.
  unfold GetMutableAccount, GetAccount.
  destruct (accounts (blockCache exe) !! in_Address (perm_Input tx))
    as [inAcc|]; cbv beta iota zeta; [|discriminate].
  destruct (HasPermission (blockCache exe) inAcc _) as [[|]| |] eqn:Hperm;
    cbn [negb]; cbv beta iota zeta; try discriminate.
  intros _; eauto.
Qed.

Lemma ExecuteSendTx_permission (exe exe' : executor) (tx : SendTx) (fees : Z) :
  ExecuteSendTx tx exe = (Ok fees, exe') ->
  Forall (fun i => exists acc,
            accounts (blockCache exe) !! in_Address i = Some acc /\
            HasPermission (blockCache exe) acc permission_Send = Ok true)
         (send_Inputs tx).
Proof.
  intros Hexec.
  apply ExecuteSendTx_inv in Hexec
    as (accs0 & ins' & accs1 & accs2 & accs3 & inTotal & outTotal & Hget &
        Hsend & _).
  apply getInputs_from_Ok in Hget as (_ & _ & _ & _ & Hins).
  eapply Forall_impl; [exact Hins|].
  intros i (acc & acc' & Hacc & Hacc' & Hsame). exists acc.
  split; [exact Hacc|].
  rewrite <- (HasPermission_permissions _ acc acc')
    by (destruct Hsame as (_ & _ & _ & _ & _ & Hperm); exact Hperm).
  exact (allHavePermission_lookup _ _ _ _ _ Hsend Hacc').
Qed.

(** X6. [Execute] succeeds only for a sender that holds the permission of
    the transaction family, by its own setting or by the global one: Send
    for every input of a SendTx, Call or CreateContract for a CallTx, Name
    for a NameTx, and the permission flag itself for a PermissionsTx. *)
Theorem Execute_requires_permission (exe exe' : executor) (tx : Tx) :
  Execute exe tx = (Ok tt, exe') ->
  let has (i : TxInput) (perm : Z) :=
    exists acc, accounts (blockCache exe) !! in_Address i = Some acc /\
                HasPermission (blockCache exe) acc perm = Ok true in
  match tx with
  | TxSend tx => Forall (fun i => has i permission_Send) (send_Inputs tx)
  | TxCall tx =>
      has (call_Input tx)
          match call_Address tx with
          | Some _ => permission_Call
          | None => permission_CreateContract
          end
  | TxName tx => has (name_Input tx) permission_Name
  | TxPermissions tx =>
      has (perm_Input tx) (pa_PermFlag (perm_PermArgs tx))
  end.
Proof.
  intros Hexec. cbv zeta. destruct tx as [tx|tx|tx|tx].
  - rewrite Execute_TxSend in Hexec.
    destruct (ExecuteSendTx tx exe) as [[fees| |] exe0] eqn:Hsend;
      try discriminate.
    exact (ExecuteSendTx_permission _ _ _ _ Hsend).
  - exact (ExecuteCallTx_permission _ _ _ Hexec).
  - change (ExecuteNameTx tx exe = (Ok tt, exe')) in Hexec.
    apply ExecuteNameTx_inv in Hexec
      as [[Hr _]|(_ & inAcc & bound & input' & Hin & Hperm & _)];
      [contradiction|].
    exists inAcc. split; [exact Hin|exact Hperm].
  - exact (ExecutePermissionsTx_permission _ _ _ Hexec).
Qed.

Lemma getOrMakeOutputs_from_create (cache : BlockCache) (outs : list TxOutput) :
  forall accs accs' : gmap N Account,
  getOrMakeOutputs_from false cache accs outs = Ok accs' ->
  Exists (fun o => accounts cache !! out_Address o = None) outs ->
  forall a acc, accs !! a = Some acc ->
    HasPermission cache acc permission_CreateAccount = Ok true.
Proof.
  induction outs as [|o outs IH]; intros accs accs'; cbn.
  - intros _ Hex. apply Exists_nil in Hex as [].
  - destruct (accs !! out_Address o) eqn:Hfresh; [discriminate|].
    unfold GetMutableAccount, GetAccount.
    destruct (accounts cache !! out_Address o) as [known|] eqn:Hknown.
    + intros Hrest Hex a acc Hacc.
      apply Exists_cons in Hex as [Hhere|Hex]; [congruence|].
      apply (IH _ _ Hrest Hex a).
      rewrite lookup_insert_ne by congruence. exact Hacc.
    + unfold hasCreateAccountPermission.
      destruct (allHavePermission cache (map_to_list accs) _)
        as [[|]| |] eqn:Hall; cbn; try discriminate.
      intros _ _ a acc Hacc.
      exact (allHavePermission_lookup _ _ _ _ _ Hall Hacc).
Qed.

(** X7. A SendTx with an output at an address that has no account succeeds
    only if the account of every input holds the CreateAccount
    permission. *)
Theorem SendTx_creation_requires_permission (exe exe' : executor)
  (tx : SendTx) :
  Execute exe (TxSend tx) = (Ok tt, exe') ->
  Exists (fun o => accounts (blockCache exe) !! out_Address o = None)
         (send_Outputs tx) ->
  Forall (fun i => exists acc,
            accounts (blockCache exe) !! in_Address i = Some acc /\
            HasPermission (blockCache exe) acc permission_CreateAccount
              = Ok true)
         (send_Inputs tx).
Proof.
  rewrite Execute_TxSend.
  destruct (ExecuteSendTx tx exe) as [[fees| |] exe0] eqn:Hsend;
    try discriminate.
  intros _ Hnew.
  apply ExecuteSendTx_inv in Hsend
    as (accs0 & ins' & accs1 & accs2 & accs3 & inTotal & outTotal & Hget &
        _ & Hout & _).
  cbn [send_Outputs] in Hout.
  pose proof (getOrMakeOutputs_from_create _ _ _ _ Hout Hnew) as Hcreate.
  apply getInputs_from_Ok in Hget as (_ & _ & _ & _ & Hins).
  eapply Forall_impl; [exact Hins|].
  intros i (acc & acc' & Hacc & Hacc' & Hsame). exists acc.
  split; [exact Hacc|].
  rewrite <- (HasPermission_permissions _ acc acc')
    by (destruct Hsame as (_ & _ & _ & _ & _ & Hperm); exact Hperm).
  exact (Hcreate _ _ Hacc').
Qed.

(** *** Events *)










(** *** Panics of the SendTx case *)

Lemma HasPermission_panic (cache : BlockCache) (acc : Account) (perm : Z)
  (msg : string) :
  HasPermission cache acc perm = Panic msg -> msg ∈ permission_panics.
Proof.
  unfold HasPermission, HasPermission_nil, GlobalPermissionsAccount,
    permission_panics.
  destruct (permission_AllPermFlags <? perm).
  { intros [= <-]. set_solver. }
  destruct (Base_Get _ perm); [discriminate|].
  destruct (GetAccount cache GlobalPermissionsAddress) as [global|]; cbn.
  - destruct (Base_Get _ perm); [discriminate|]. intros [= <-]. set_solver.
  - intros [= <-]. set_solver.
Qed.

Lemma allHavePermission_panic (cache : BlockCache) (perm : Z) (msg : string)
  (accs : list (N * Account)) :
  allHavePermission cache accs perm = Panic msg -> msg ∈ permission_panics.
Proof.
  induction accs as [|[a acc] accs IH]; cbn; [discriminate|].
  destruct (HasPermission cache acc perm) as [[|]| |] eqn:Hhas; cbn;
    try discriminate.
  - exact IH.
  - intros [= <-]. exact (HasPermission_panic _ _ _ _ Hhas).
Qed.

Lemma getInputs_from_no_panic (cache : BlockCache) (ins : list TxInput)
  (msg : string) :
  forall accs, getInputs_from accs cache ins <> Panic msg.
Proof.
  induction ins as [|i ins IH]; intros accs; cbn; [discriminate|].
  destruct (accs !! in_Address i); [discriminate|].
  destruct (GetMutableAccount cache (in_Address i)) as [acc|]; [|discriminate].
  unfold checkInputPubKey.
  destruct (acc_PublicKey acc); cbn.
  - destruct (getInputs_from _ cache ins) as [[]| |] eqn:Hrest; cbn;
      try discriminate. intros [= ->]. exact (IH _ Hrest).
  - destruct (in_PubKey i); [|discriminate].
    destruct (decide _); [|discriminate]. cbn.
    destruct (getInputs_from _ cache ins) as [[]| |] eqn:Hrest; cbn;
      try discriminate. intros [= ->]. exact (IH _ Hrest).
Qed.

Lemma getOrMakeOutputs_from_panic (cache : BlockCache) (outs : list TxOutput)
  (msg : string) :
  forall checked accs,
  getOrMakeOutputs_from checked cache accs outs = Panic msg ->
  msg ∈ permission_panics.
Proof.
  induction outs as [|o outs IH]; intros checked accs; cbn; [discriminate|].
  destruct (accs !! out_Address o); [discriminate|].
  destruct (GetMutableAccount cache (out_Address o)) as [acc|]; [apply IH|].
  destruct checked; cbn; [apply IH|].
  unfold hasCreateAccountPermission.
  destruct (allHavePermission cache (map_to_list accs) _) as [[|]| |] eqn:Hall;
    cbn; try discriminate.
  - apply IH.
  - intros [= <-]. exact (allHavePermission_panic _ _ _ _ Hall).
Qed.

Lemma validateInputs_from_no_panic (accs : gmap N Account)
  (signBytes : list Byte.byte) (ins : list TxInput) (msg : string) :
  forall total,
  Forall (fun i => is_Some (accs !! in_Address i)) ins ->
  validateInputs_from total accs signBytes ins <> Panic msg.
Proof.
  induction ins as [|i ins IH]; intros total Hins; cbn; [discriminate|].
  apply Forall_cons in Hins as [[acc Hacc] Hins]. rewrite Hacc.
  destruct (validateInput acc signBytes i); [discriminate|]. apply IH, Hins.
Qed.

Lemma validateOutputs_from_no_panic (outs : list TxOutput) (msg : string) :
  forall total, validateOutputs_from total outs <> Panic msg.
Proof.
  induction outs as [|o outs IH]; intros total; cbn; [discriminate|].
  destruct (TxOutput_ValidateBasic o); [discriminate|]. apply IH.
Qed.

(** After validation, the debits go through: the accounts are there and
    the balances suffice. *)
Lemma adjustByInputs_total (ins : list TxInput) :
  forall accs : gmap N Account,
  NoDup (in_Address <$> ins) ->
  Forall (fun i => exists acc, accs !! in_Address i = Some acc /\
                               in_Amount i <= acc_Balance acc) ins ->
  exists accs', adjustByInputs accs ins = Ok accs' /\
                forall a, is_Some (accs !! a) -> is_Some (accs' !! a).
Proof.
  induction ins as [|i ins IH]; intros accs Hnodup Hins; cbn.
  - eauto.
  - apply Forall_cons in Hins as [(acc & Hacc & Hbal) Hins].
    cbn in Hnodup. apply NoDup_cons in Hnodup as [Hnotin Hnodup].
    rewrite Hacc. apply Z.ltb_ge in Hbal. rewrite Hbal.
    destruct (IH (<[in_Address i :=
                      IncSequence (SubtractFromBalance acc (in_Amount i))]>
                    accs) Hnodup) as (accs' & Hok & Hdom).
    + rewrite Forall_forall in Hins |- *. intros j Hj.
      destruct (Hins j Hj) as (acc' & Hacc' & Hbal').
      exists acc'. split; [|exact Hbal'].
      rewrite lookup_insert_ne; [exact Hacc'|].
      intros Heq. apply Hnotin. rewrite Heq.
      apply list_elem_of_fmap. eauto.
    + exists accs'. split; [exact Hok|].
      intros a Ha. apply Hdom. apply lookup_insert_is_Some'. auto.
Qed.

Lemma adjustByOutputs_total (outs : list TxOutput) :
  forall accs : gmap N Account,
  Forall (fun o => is_Some (accs !! out_Address o)) outs ->
  exists accs', adjustByOutputs accs outs = Ok accs'.
Proof.
  induction outs as [|o outs IH]; intros accs Houts; cbn; [eauto|].
  apply Forall_cons in Houts as [[acc Hacc] Houts]. rewrite Hacc.
  apply IH. eapply Forall_impl; [exact Houts|].
  intros o' Ho'. apply lookup_insert_is_Some'. auto.
Qed.

Lemma ExecuteSendTx_panic (exe exe' : executor) (tx : SendTx) (msg : string) :
  ExecuteSendTx tx exe = (Panic msg, exe') -> msg ∈ permission_panics.
Proof.
  unfold ExecuteSendTx. exec_unfold.
  destruct (getInputs (blockCache exe) (send_Inputs tx))
    as [[accs0 ins']| |] eqn:Hget; cbv beta iota zeta; [|discriminate|].
  2:{ destruct (getInputs_from_no_panic _ _ _ _ Hget). }
  cbn [fst snd send_Inputs send_Outputs].
  destruct (hasSendPermission (blockCache exe) accs0) as [[|]| |] eqn:Hsend;
    cbn [negb]; cbv beta iota zeta; try discriminate.
  2:{ intros [= <- _]. exact (allHavePermission_panic _ _ _ _ Hsend). }
  destruct (getOrMakeOutputs (blockCache exe) accs0 (send_Outputs tx))
    as [accs1| |] eqn:Hout; cbv beta iota zeta; [|discriminate|].
  2:{ intros [= <- _]. exact (getOrMakeOutputs_from_panic _ _ _ _ _ Hout). }
  apply getInputs_from_Ok in Hget as (Hnodup & _ & Hsame & _ & Hins).
  apply getOrMakeOutputs_from_Ok in Hout as (_ & Hfresh & Hother & Houts).
  pose proof (same_input_addresses _ _ Hsame) as Haddrs.
  rewrite Forall_forall in Hins. rewrite Forall_forall in Hfresh.
  assert (Hin1 : forall i', i' ∈ ins' -> is_Some (accs1 !! in_Address i')).
  { intros i' Hi'.
    assert (Hmem : in_Address i' ∈ in_Address <$> send_Inputs tx)
      by (rewrite <- Haddrs; apply list_elem_of_fmap; eauto).
    apply list_elem_of_fmap in Hmem as (i & Heq & Hi).
    destruct (Hins i Hi) as (acc & acc' & _ & Hl & _).
    rewrite Heq, Hother; [eauto|].
    intros (o & Heq' & Ho)%list_elem_of_fmap.
    specialize (Hfresh o Ho). rewrite <- Heq' in Hfresh. congruence. }
  destruct (validateInputs accs1 _ ins') as [inTotal| |] eqn:Hvalid;
    cbv beta iota zeta; [|discriminate|].
  2:{ exfalso. eapply validateInputs_from_no_panic; [|exact Hvalid].
      rewrite Forall_forall. exact Hin1. }
  destruct (validateOutputs (send_Outputs tx)) as [outTotal| |] eqn:Hvout;
    cbv beta iota zeta; [|discriminate|].
  2:{ destruct (validateOutputs_from_no_panic _ _ _ Hvout). }
  destruct (inTotal <? outTotal); cbv beta iota zeta; [discriminate|].
  apply validateInputs_from_Ok in Hvalid.
  destruct (adjustByInputs_total ins' accs1) as (accs2 & Hadjin & Hdom).
  { rewrite Haddrs. exact Hnodup. }
  { eapply Forall_impl; [exact Hvalid|].
    intros i' (acc & Hacc & Hval).
    apply validateInput_None in Hval as (_ & _ & _ & Hbal). eauto. }
  rewrite Hadjin. cbv beta iota zeta.
  destruct (adjustByOutputs_total (send_Outputs tx) accs2) as (accs3 & Hadjout).
  { eapply Forall_impl; [exact Houts|]. intros o Ho. apply Hdom. eexists. exact Ho. }
  rewrite Hadjout. cbv beta iota zeta. discriminate.
Qed.

(** X9. The only panics of a SendTx are those of the permission lookup.
    The panics of [validateInputs], [adjustByInputs] and [adjustByOutputs]
    (an account missing from the accounts, a balance below the amount) are
    out of reach: [getInputs] and [getOrMakeOutputs] have put every account
    there, the addresses are distinct and [validateInputs] has checked the
    balances. *)
Theorem SendTx_panics_in_permission_lookup_only (exe exe' : executor)
  (tx : SendTx) (msg : string) :
  Execute exe (TxSend tx) = (Panic msg, exe') ->
  msg ∈ permission_panics.
Proof.
  rewrite Execute_TxSend.
  destruct (ExecuteSendTx tx exe) as [[fees| |] exe0] eqn:Hsend;
    try discriminate.
  intros [= <- _]. exact (ExecuteSendTx_panic _ _ _ _ Hsend).
Qed.

(** X10. The check of a SendTx on the totals compares the sums of the
    amounts modulo [2^64]: a SendTx that succeeds has the sum of its
    outputs, taken modulo [2^64], at most the sum of its inputs, taken
    modulo [2^64]. When neither sum reaches [2^64], the outputs of a
    SendTx that succeeds sum to at most its inputs. *)
Theorem SendTx_totals (exe exe' : executor) (tx : SendTx) :
  Execute exe (TxSend tx) = (Ok tt, exe') ->
  uint64 (sum_outputs (send_Outputs tx))
    <= uint64 (sum_inputs (send_Inputs tx)) /\
  (is_uint64 (sum_inputs (send_Inputs tx)) ->
   is_uint64 (sum_outputs (send_Outputs tx)) ->
   sum_outputs (send_Outputs tx) <= sum_inputs (send_Inputs tx)).
Proof.
  rewrite Execute_TxSend.
  destruct (ExecuteSendTx tx exe) as [[fees| |] exe0] eqn:Hsend;
    try discriminate.
  intros _. pose proof (ExecuteSendTx_totals _ _ _ _ Hsend) as [Hle _].
  split; [exact Hle|]. intros Hin Hout.
  rewrite (uint64_id _ Hin), (uint64_id _ Hout) in Hle. exact Hle.
Qed.

(** *** Conservation *)

Lemma total_balance_app (cache : BlockCache) (l k : list Address) :
  total_balance cache (l ++ k) = total_balance cache l + total_balance cache k.
Proof.
  induction l as [|a l IH]; cbn; [reflexivity|].
  fold (total_balance cache (l ++ k)). fold (total_balance cache l). lia.
Qed.

Lemma total_balance_inputs (cache cache' : BlockCache) (ins : list TxInput) :
  Forall (fun i => balance_at cache' (in_Address i) =
                   balance_at cache (in_Address i) - in_Amount i) ins ->
  total_balance cache' (in_Address <$> ins) =
    total_balance cache (in_Address <$> ins) - sum_inputs ins.
Proof.
  induction 1 as [|i ins Hi _ IH]; cbn; [reflexivity|].
  fold (total_balance cache' (in_Address <$> ins)).
  fold (total_balance cache (in_Address <$> ins)). fold (sum_inputs ins).
  lia.
Qed.

Lemma total_balance_outputs (cache cache' : BlockCache) (outs : list TxOutput) :
  Forall (fun o => balance_at cache' (out_Address o) =
                   balance_at cache (out_Address o) + out_Amount o) outs ->
  total_balance cache' (out_Address <$> outs) =
    total_balance cache (out_Address <$> outs) + sum_outputs outs.
Proof.
  induction 1 as [|o outs Ho _ IH]; cbn; [reflexivity|].
  fold (total_balance cache' (out_Address <$> outs)).
  fold (total_balance cache (out_Address <$> outs)). fold (sum_outputs outs).
  lia.
Qed.

(** X11. A SendTx that succeeds moves funds and keeps none but the fee:
    when no credit wraps around (each output amount added to the balance
    at its address stays below [2^64]), the balances at the addresses of
    the transaction sum, afterwards, to what they summed to before less
    the sum of the inputs plus the sum of the outputs. *)
Theorem SendTx_conserves_funds (exe exe' : executor) (tx : SendTx) :
  wf_cache (blockCache exe) -> wf_SendTx tx ->
  Forall (fun o => 0 <= out_Amount o /\
                   balance_at (blockCache exe) (out_Address o) + out_Amount o
                     < 2 ^ 64)
         (send_Outputs tx) ->
  Execute exe (TxSend tx) = (Ok tt, exe') ->
  let parties :=
    (in_Address <$> send_Inputs tx) ++ (out_Address <$> send_Outputs tx) in
  total_balance (blockCache exe') parties =
    total_balance (blockCache exe) parties
    - (sum_inputs (send_Inputs tx) - sum_outputs (send_Outputs tx)).
Proof.
  intros Hwf Htx Hroom. rewrite Execute_TxSend.
  destruct (ExecuteSendTx tx exe) as [[fees| |] exe0] eqn:Hsend;
    try discriminate.
  intros [= <-]. cbv zeta.
  destruct (ExecuteSendTx_Ok _ _ _ _ Hwf Htx Hsend) as (Hins & Houts & _).
  rewrite !total_balance_app.
  rewrite (total_balance_inputs (blockCache exe) (blockCache exe0)).
  2:{ eapply Forall_impl; [exact Hins|].
      intros i (acc & acc' & Hacc & Hacc' & _ & Hbal).
      unfold balance_at. rewrite Hacc, Hacc'. exact Hbal. }
  rewrite (total_balance_outputs (blockCache exe) (blockCache exe0)); [lia|].
  rewrite Forall_forall in Houts. rewrite Forall_forall in Hroom.
  rewrite Forall_forall. intros o Ho.
  destruct (Houts o Ho) as (acc' & Hacc' & Hbal).
  destruct (Hroom o Ho) as (Hnonneg & Hlt).
  unfold balance_at in *. rewrite Hacc'. cbn [fmap option_fmap option_map default].
  rewrite Hbal. apply uint64_id. unfold is_uint64.
  destruct (accounts (blockCache exe) !! out_Address o) as [acc|] eqn:Hacc;
    cbn in *; [|lia].
  destruct (wf_cache_lookup _ _ _ Hwf Hacc) as (_ & Hb & _).
  unfold is_uint64 in Hb. lia.
Qed.

(** *** CallTx *)

Lemma runCallTx_no_error (exe : executor) (tx : CallTx) (inAcc : Account)
  (outAcc : option Account) (value : Z) (e : Error) :
  (runCallTx tx inAcc outAcc value exe).1 <> Err e.
Proof.
  destruct (runCallTx tx inAcc outAcc value exe) as [r exe'] eqn:Hrun.
  apply runCallTx_inv in Hrun as [[[msg ->] _]|[(-> & _)|(-> & _)]];
    discriminate.
Qed.

(** X12. The check path and the commit path reject the same CallTx with
    the same error: every error of a CallTx comes from the validation that
    the two paths share, and none from the call. *)
Theorem CallTx_rejection_parity (exe : executor) (tx : CallTx) (e : Error) :
  (Execute (set_runCall exe false) (TxCall tx)).1 = Err e <->
  (Execute (set_runCall exe true) (TxCall tx)).1 = Err e.
Proof.
  change (Execute ?x (TxCall tx)) with (ExecuteCallTx tx x).
  unfold ExecuteCallTx. exec_unfold.
  unfold GetMutableAccount, GetAccount, check.
  cbn [set_runCall blockCache chainID runCall].
  destruct (accounts (blockCache exe) !! in_Address (call_Input tx))
    as [inAcc|]; cbv beta iota zeta; [|reflexivity].
  destruct (call_Address tx) as [address|] eqn:Haddr;
    [rewrite bool_decide_eq_false_2 by discriminate
    |rewrite bool_decide_eq_true_2 by reflexivity];
    cbv beta iota zeta.
  all: cbn [call_Input call_Address call_Fee call_GasLimit call_Data fst snd].
  - destruct (hasCallPermission (blockCache exe) inAcc) as [[|]| |];
      cbn [negb]; cbv beta iota zeta; try reflexivity.
    destruct (checkInputPubKey inAcc (call_Input tx)) as [[bound input']| |];
      cbv beta iota zeta; try reflexivity.
    cbn [call_Input call_Address call_Fee call_GasLimit call_Data fst snd].
    destruct (validateInput bound _ input'); cbv beta iota zeta;
      [reflexivity|].
    destruct (in_Amount input' <? call_Fee tx); cbv beta iota zeta;
      [reflexivity|].
    destruct (RegisteredNativeContract address); cbv beta iota zeta;
      [reflexivity|].
    cbn [fst snd]. split; [discriminate|]. intros Herr.
    destruct (runCallTx_no_error _ _ _ _ _ _ Herr).
  - destruct (hasCreateContractPermission (blockCache exe) inAcc)
      as [[|]| |]; cbn [negb]; cbv beta iota zeta; try reflexivity.
    destruct (checkInputPubKey inAcc (call_Input tx)) as [[bound input']| |];
      cbv beta iota zeta; try reflexivity.
    cbn [call_Input call_Address call_Fee call_GasLimit call_Data fst snd].
    destruct (validateInput bound _ input'); cbv beta iota zeta;
      [reflexivity|].
    destruct (in_Amount input' <? call_Fee tx); cbv beta iota zeta;
      [reflexivity|].
    cbn [fst snd]. split; [discriminate|]. intros Herr.
    destruct (runCallTx_no_error _ _ _ _ _ _ Herr).
Qed.

(** X13. In the check path a CallTx that succeeds writes the account of
    the caller and nothing else: the callee receives nothing, no contract
    account is made, no storage slot and no name entry changes. *)
Theorem CallTx_check_path_touches_caller_only (exe exe' : executor)
  (tx : CallTx) :
  wf_cache (blockCache exe) ->
  runCall exe = false ->
  Execute exe (TxCall tx) = (Ok tt, exe') ->
  (forall a, a <> in_Address (call_Input tx) ->
             accounts (blockCache exe') !! a = accounts (blockCache exe) !! a) /\
  storages (blockCache exe') = storages (blockCache exe) /\
  names (blockCache exe') = names (blockCache exe).
Proof.
  intros Hwf Hrun Hexec.
  change (ExecuteCallTx tx exe = (Ok tt, exe')) in Hexec.
  apply ExecuteCallTx_inv in Hexec
    as [[Hr _]|(inAcc & bound & input' & Hin & Hbound & _ & _ & Hrest)];
    [contradiction|].
  cbv zeta in Hrest. rewrite Hrun in Hrest. destruct Hrest as [_ ->].
  destruct (wf_cache_lookup _ _ _ Hwf Hin) as (Haddr & _).
  apply checkInputPubKey_Ok in Hbound as ((Ha & _) & _).
  cbn [blockCache set_blockCache UpdateAccount accounts storages names].
  split; [|split; reflexivity].
  intros a Hne.
  assert (Hkey : forall value,
            acc_Address
              (if bool_decide (call_Address tx = None)
               then IncSequence
                      (SubtractFromBalance
                         (SubtractFromBalance (IncSequence bound) (call_Fee tx))
                         value)
               else SubtractFromBalance
                      (SubtractFromBalance (IncSequence bound) (call_Fee tx))
                      value)
            = in_Address (call_Input tx)).
  { intros value. destruct (bool_decide _); cbn; congruence. }
  rewrite Hkey. rewrite lookup_insert_ne by congruence.
  apply lookup_insert_ne. cbn. congruence.
Qed.

(** X14. A CallTx to the address of a registered native contract never
    succeeds, and leaves the executor as it was. *)
Theorem CallTx_to_native_contract_is_rejected (exe exe' : executor)
  (tx : CallTx) (address : Address) (r : Res unit) :
  call_Address tx = Some address ->
  RegisteredNativeContract address = true ->
  Execute exe (TxCall tx) = (r, exe') ->
  r <> Ok tt /\ exe' = exe.
Proof.
  intros Haddr Hnative.
  change (Execute exe (TxCall tx)) with (ExecuteCallTx tx exe).
  unfold ExecuteCallTx. exec_unfold.
  unfold GetMutableAccount, GetAccount, check.
  rewrite Haddr, bool_decide_eq_false_2 by discriminate.
  cbv beta iota zeta.
  destruct (accounts (blockCache exe) !! in_Address (call_Input tx))
    as [inAcc|]; cbv beta iota zeta;
    [|intros [= <- <-]; split; [discriminate|reflexivity]].
  destruct (hasCallPermission (blockCache exe) inAcc) as [[|]| |];
    cbn [negb]; cbv beta iota zeta;
    try (intros [= <- <-]; split; [discriminate|reflexivity]).
  destruct (checkInputPubKey inAcc (call_Input tx)) as [[bound input']| |];
    cbv beta iota zeta;
    try (intros [= <- <-]; split; [discriminate|reflexivity]).
  cbn [call_Input call_Address call_Fee call_GasLimit call_Data fst snd].
  destruct (validateInput bound _ input'); cbv beta iota zeta;
    [intros [= <- <-]; split; [discriminate|reflexivity]|].
  destruct (in_Amount input' <? call_Fee tx); cbv beta iota zeta;
    [intros [= <- <-]; split; [discriminate|reflexivity]|].
  rewrite Hnative. cbv beta iota zeta.
  intros [= <- <-]; split; [discriminate|reflexivity].
Qed.

(** *** NameTx *)

(** X15. A name entry that has not expired is out of reach of everyone but
    its owner: a NameTx on it from another address never succeeds and
    leaves the executor as it was. *)
Theorem NameTx_live_entry_is_protected (exe exe' : executor) (tx : NameTx)
  (entry : NameRegEntry) (r : Res unit) :
  names (blockCache exe) !! name_Name tx = Some entry ->
  LastBlockHeight (tip exe) < entry_Expires entry ->
  entry_Owner entry <> in_Address (name_Input tx) ->
  Execute exe (TxName tx) = (r, exe') ->
  r <> Ok tt /\ exe' = exe.
Proof.
  intros Hentry Hlive Hother Hexec.
  change (ExecuteNameTx tx exe = (r, exe')) in Hexec.
  apply ExecuteNameTx_inv in Hexec
    as [Hfail|(_ & inAcc & bound & input' & _ & _ & Hbound & Hrest)];
    [exact Hfail|].
  exfalso. cbv zeta in Hrest.
  destruct Hrest as (_ & _ & _ & _ & _ & Hnames).
  rewrite Hentry in Hnames. destruct Hnames as [Howner _].
  apply checkInputPubKey_Ok in Hbound as (_ & (Haddr & _)).
  apply Hother. rewrite <- Haddr. exact (Howner Hlive).
Qed.

(** X16. A NameTx on a name that has no entry succeeds only when its value,
    the amount less the fee, pays for at least [MinNameRegistrationPeriod]
    blocks. It then registers the name for the sender, with the data of the
    transaction, until the height of the last block plus the number of
    blocks paid for. *)
Theorem NameTx_registers_new_name (exe exe' : executor) (tx : NameTx) :
  names (blockCache exe) !! name_Name tx = None ->
  Execute exe (TxName tx) = (Ok tt, exe') ->
  let value := uint64 (in_Amount (name_Input tx) - name_Fee tx) in
  let blocks :=
    value / NameCostPerBlock (NameBaseCost (name_Name tx) (name_Data tx)) in
  MinNameRegistrationPeriod <= blocks /\
  names (blockCache exe') !! name_Name tx =
    Some (mkNameRegEntry (name_Name tx) (in_Address (name_Input tx))
                         (name_Data tx)
                         (uint64 (LastBlockHeight (tip exe) + blocks))).
Proof.
  intros Hnone Hexec.
  change (ExecuteNameTx tx exe = (Ok tt, exe')) in Hexec.
  apply ExecuteNameTx_inv in Hexec
    as [[Hr _]|(_ & inAcc & bound & input' & _ & _ & Hbound & Hrest)];
    [contradiction|].
  cbv zeta in Hrest. destruct Hrest as (_ & _ & _ & _ & _ & Hnames).
  rewrite Hnone in Hnames. destruct Hnames as [Hmin ->].
  apply checkInputPubKey_Ok in Hbound as (_ & (Haddr & Hamt & _)).
  cbv zeta. rewrite <- Hamt, <- Haddr. split; [exact Hmin|].
  apply lookup_insert_eq.
Qed.

(** X17. An entry that has expired can be taken over by anyone: a NameTx on
    it that succeeds, and that is not a deletion (its value is not 0 or its
    data is not empty), makes the sender the owner, whoever the owner was,
    with the data of the transaction and the number of blocks paid for,
    which is at least [MinNameRegistrationPeriod]; what was left of the old
    registration does not count. *)
Theorem NameTx_reclaims_expired_entry (exe exe' : executor) (tx : NameTx)
  (entry : NameRegEntry) :
  names (blockCache exe) !! name_Name tx = Some entry ->
  entry_Name entry = name_Name tx ->
  entry_Expires entry <= LastBlockHeight (tip exe) ->
  let value := uint64 (in_Amount (name_Input tx) - name_Fee tx) in
  let blocks :=
    value / NameCostPerBlock (NameBaseCost (name_Name tx) (name_Data tx)) in
  value <> 0 \/ name_Data tx <> EmptyString ->
  Execute exe (TxName tx) = (Ok tt, exe') ->
  MinNameRegistrationPeriod <= blocks /\
  names (blockCache exe') !! name_Name tx =
    Some (mkNameRegEntry (name_Name tx) (in_Address (name_Input tx))
                         (name_Data tx)
                         (uint64 (LastBlockHeight (tip exe) + blocks))).
Proof.
  intros Hentry Hname Hexpired value blocks Hupdate Hexec.
  change (ExecuteNameTx tx exe = (Ok tt, exe')) in Hexec.
  apply ExecuteNameTx_inv in Hexec
    as [[Hr _]|(_ & inAcc & bound & input' & _ & _ & Hbound & Hrest)];
    [contradiction|].
  cbv zeta in Hrest. destruct Hrest as (_ & _ & _ & _ & _ & Hnames).
  rewrite Hentry in Hnames. destruct Hnames as [_ Hnames].
  apply checkInputPubKey_Ok in Hbound as (_ & (Haddr & Hamt & _)).
  rewrite Hamt, Haddr in Hnames. fold value in Hnames.
  assert (Hdel : (value =? 0) &&
                 bool_decide (String.length (name_Data tx) = 0%nat) = false).
  { apply andb_false_iff. destruct Hupdate as [Hv|Hd].
    - left. apply Z.eqb_neq. exact Hv.
    - right. apply bool_decide_eq_false_2.
      destruct (name_Data tx); [congruence|discriminate]. }
  rewrite Hdel in Hnames.
  apply Z.ltb_ge in Hexpired. rewrite Hexpired in Hnames.
  destruct Hnames as [Hmin ->]. split; [exact Hmin|].
  rewrite Hname. apply lookup_insert_eq.
Qed.

(** X18. A NameTx writes the account of its sender and the entry of its
    name, and nothing else: whatever it returns, every other account,
    every storage slot and every other name entry is as before. *)
Theorem NameTx_touches_sender_and_name_only (exe exe' : executor)
  (tx : NameTx) (r : Res unit) :
  wf_cache (blockCache exe) ->
  (forall entry, names (blockCache exe) !! name_Name tx = Some entry ->
                 entry_Name entry = name_Name tx) ->
  Execute exe (TxName tx) = (r, exe') ->
  (forall a, a <> in_Address (name_Input tx) ->
             accounts (blockCache exe') !! a = accounts (blockCache exe) !! a) /\
  storages (blockCache exe') = storages (blockCache exe) /\
  (forall name, name <> name_Name tx ->
                names (blockCache exe') !! name
                  = names (blockCache exe) !! name).
Proof.
  intros Hwf Hkeyed Hexec.
  change (ExecuteNameTx tx exe = (r, exe')) in Hexec.
  apply ExecuteNameTx_inv in Hexec
    as [[_ ->]|(_ & inAcc & bound & input' & Hin & _ & Hbound & Hrest)];
    [auto|].
  cbv zeta in Hrest.
  destruct Hrest as (_ & _ & _ & Haccounts & Hstorages & Hnames).
  destruct (wf_cache_lookup _ _ _ Hwf Hin) as (Haddr & _).
  apply checkInputPubKey_Ok in Hbound as ((Ha & _) & _).
  split; [|split; [exact Hstorages|]].
  - intros a Hne. rewrite Haccounts. apply lookup_insert_ne. congruence.
  - intros name Hne.
    destruct (names (blockCache exe) !! name_Name tx) as [entry|] eqn:Hentry.
    + rewrite (Hkeyed entry eq_refl) in Hnames.
      destruct Hnames as [_ Hnames].
      destruct (_ && _).
      * rewrite Hnames. apply lookup_delete_ne. congruence.
      * destruct (_ <? _); destruct Hnames as [_ ->];
          apply lookup_insert_ne; congruence.
    + destruct Hnames as [_ ->]. apply lookup_insert_ne. congruence.
Qed.

(** X19. Extending a registration adds the blocks paid for. With the cost
    of a block the base cost (the two cost multipliers multiply to 1), a
    NameTx of the owner on its entry, not expired, with the data the entry
    has and a value [v], when it succeeds, moves the expiry of the entry
    forward by [v] divided by the cost of a block; the owner and the data
    stay. (No sum wraps around: the expiry and the credit stay below
    [2^64].) *)
Theorem NameTx_extension_adds_blocks (exe exe' : executor) (tx : NameTx)
  (entry : NameRegEntry) :
  let h := LastBlockHeight (tip exe) in
  let baseCost := NameBaseCost (name_Name tx) (name_Data tx) in
  let v := in_Amount (name_Input tx) - name_Fee tx in
  NameBlockCostMultiplier * NameByteCostMultiplier = 1 ->
  is_uint64 baseCost -> is_uint64 (name_Fee tx) ->
  is_uint64 (in_Amount (name_Input tx)) -> 0 <= h ->
  names (blockCache exe) !! name_Name tx = Some entry ->
  entry_Name entry = name_Name tx ->
  entry_Data entry = name_Data tx ->
  h < entry_Expires entry ->
  (entry_Expires entry - h) * baseCost + v < 2 ^ 64 ->
  entry_Expires entry + v / baseCost < 2 ^ 64 ->
  0 < v ->
  Execute exe (TxName tx) = (Ok tt, exe') ->
  names (blockCache exe') !! name_Name tx =
    Some (mkNameRegEntry (name_Name tx) (entry_Owner entry) (name_Data tx)
                         (entry_Expires entry + v / baseCost)).
Proof.
  intros h baseCost v Hmult Hbase Hfee Hamount Hh Hentry Hname Hdata Hlive
    Hcredit Hexpiry Hv Hexec.
  change (ExecuteNameTx tx exe = (Ok tt, exe')) in Hexec.
  apply ExecuteNameTx_inv in Hexec
    as [[Hr _]|(_ & inAcc & bound & input' & _ & _ & Hbound & Hrest)];
    [contradiction|].
  cbv zeta in Hrest. destruct Hrest as (_ & Hle & Hcost & _ & _ & Hnames).
  rewrite Hentry in Hnames. destruct Hnames as [_ Hnames].
  apply checkInputPubKey_Ok in Hbound as (_ & (_ & Hamt & _)).
  rewrite Hamt in Hnames, Hle. fold v in Hnames. fold h in Hnames.
  unfold is_uint64 in *.
  assert (Hvid : uint64 v = v) by (apply uint64_id; unfold is_uint64; lia).
  rewrite Hvid in Hnames.
  assert (Hnz : (v =? 0) = false) by (apply Z.eqb_neq; lia).
  rewrite Hnz in Hnames. cbn [andb] in Hnames.
  apply Z.ltb_lt in Hlive as Hlt. rewrite Hlt in Hnames.
  destruct Hnames as [_ ->]. rewrite Hname, Hdata.
  rewrite lookup_insert_eq. f_equal. f_equal.
  fold baseCost in Hcost |- *.
  assert (Hcpb : NameCostPerBlock baseCost = baseCost).
  { unfold NameCostPerBlock. rewrite Hmult, Z.mul_1_l. apply uint64_id.
    unfold is_uint64. lia. }
  rewrite Hcpb in *.
  assert (Hpos : 0 < baseCost) by lia.
  assert (Hleft : 0 <= (entry_Expires entry - h) * baseCost)
    by (apply Z.mul_nonneg_nonneg; lia).
  assert (Hdiv : 0 <= v / baseCost) by (apply Z.div_pos; lia).
  rewrite (uint64_id (entry_Expires entry - h)) by (unfold is_uint64; lia).
  rewrite (uint64_id ((entry_Expires entry - h) * baseCost))
    by (unfold is_uint64; lia).
  rewrite (uint64_id ((entry_Expires entry - h) * baseCost + v))
    by (unfold is_uint64; lia).
  rewrite Z.div_add_l by lia.
  rewrite uint64_id by (unfold is_uint64; lia). lia.
Qed.

(** *** PermissionsTx *)

Lemma mutatePermissions_Ok (cache : BlockCache) (address : Address)
  (mutator : AccountPermissions -> Res AccountPermissions) (acc : Account) :
  mutatePermissions cache address mutator = Ok acc ->
  exists account perms,
    accounts cache !! address = Some account /\
    acc = SetPermissions account perms.
Proof.
  unfold mutatePermissions, GetAccount.
  destruct (accounts cache !! address) as [account|]; [|discriminate].
  destruct (mutator _) as [perms| |]; cbn; [|discriminate..].
  intros [= <-]. eauto.
Qed.

(** What a successful PermissionsTx writes: the debited sender, then the
    target with its permissions mutated. *)
Lemma ExecutePermissionsTx_Ok (exe exe' : executor) (tx : PermissionsTx) :
  ExecutePermissionsTx tx exe = (Ok tt, exe') ->
  exists inAcc bound input' target perms,
    accounts (blockCache exe) !! in_Address (perm_Input tx) = Some inAcc /\
    checkInputPubKey inAcc (perm_Input tx) = Ok (bound, input') /\
    accounts (blockCache exe) !! perm_target tx = Some target /\
    blockCache exe' =
      UpdateAccount
        (UpdateAccount (blockCache exe)
           (SubtractFromBalance (IncSequence bound) (in_Amount input')))
        (SetPermissions target perms).
Proof.
  unfold ExecutePermissionsTx. exec_unfold.
  unfold GetMutableAccount, GetAccount, check.
  destruct (accounts (blockCache exe) !! in_Address (perm_Input tx))
    as [inAcc|] eqn:Hin; cbv beta iota zeta; [|discriminate].
  destruct (HasPermission (blockCache exe) inAcc _) as [[|]| |];
    cbn [negb]; cbv beta iota zeta; try discriminate.
  destruct (checkInputPubKey inAcc (perm_Input tx)) as [[bound input']| |]
    eqn:Hbound; cbv beta iota zeta; try discriminate.
  cbn [perm_Input perm_PermArgs fst snd].
  destruct (validateInput bound _ input'); cbv beta iota zeta;
    [discriminate|].
  match goal with
  | |- context [match ?m with (Ok _) => _ | _ => _ end] =>
      destruct m as [permAcc| |] eqn:Hmutate
  end; cbv beta iota zeta; try discriminate.
  intros [= <-].
  assert (exists target perms,
            accounts (blockCache exe) !! perm_target tx = Some target /\
            permAcc = SetPermissions target perms)
    as (target & perms & Htarget & ->).
  { unfold perm_target. cbv zeta.
    repeat (destruct (decide _) as [?|?] in Hmutate; try discriminate);
      repeat (destruct (decide _) as [?|?]; try congruence);
      eapply mutatePermissions_Ok; eassumption. }
  exists inAcc, bound, input', target, perms. auto.
Qed.

(** X20. The permission functions [HasBase] and [HasRole] are queries, not
    mutations: a PermissionsTx with one of these flags never succeeds and
    leaves the executor as it was. (For [HasRole] the flag is taken not to
    be the flag of [SetBase], [UnsetBase] or [SetGlobal], which the
    dispatcher tests first.) *)
Theorem PermissionsTx_rejects_queries (exe exe' : executor)
  (tx : PermissionsTx) (r : Res unit) :
  let flag := pa_PermFlag (perm_PermArgs tx) in
  flag = permission_HasBase \/
  (flag = permission_HasRole /\ flag <> permission_SetBase /\
   flag <> permission_UnsetBase /\ flag <> permission_SetGlobal) ->
  Execute exe (TxPermissions tx) = (r, exe') ->
  r <> Ok tt /\ exe' = exe.
Proof.
  intros flag Hflag Hexec.
  change (ExecutePermissionsTx tx exe = (r, exe')) in Hexec.
  assert (Hr : r <> Ok tt).
  { intros ->. revert Hexec.
    unfold ExecutePermissionsTx. exec_unfold.
    unfold GetMutableAccount, GetAccount, check.
    destruct (accounts (blockCache exe) !! in_Address (perm_Input tx))
      as [inAcc|]; cbv beta iota zeta; [|discriminate].
    destruct (HasPermission (blockCache exe) inAcc _) as [[|]| |];
      cbn [negb]; cbv beta iota zeta; try discriminate.
    destruct (checkInputPubKey inAcc (perm_Input tx)) as [[bound input']| |];
      cbv beta iota zeta; try discriminate.
    cbn [perm_Input perm_PermArgs fst snd].
    destruct (validateInput bound _ input'); cbv beta iota zeta;
      [discriminate|].
    fold flag.
    destruct Hflag as [Hbase|(Hrole & Hn1 & Hn2 & Hn3)].
    - rewrite (decide_True (P := flag = permission_HasBase)) by assumption.
      discriminate.
    - destruct (decide (flag = permission_HasBase)); [discriminate|].
      rewrite (decide_False (P := flag = permission_SetBase)) by assumption.
      rewrite (decide_False (P := flag = permission_UnsetBase)) by assumption.
      rewrite (decide_False (P := flag = permission_SetGlobal)) by assumption.
      rewrite (decide_True (P := flag = permission_HasRole)) by assumption.
      discriminate. }
  split; [exact Hr|]. exact (ExecutePermissionsTx_failure _ _ _ _ Hexec Hr).
Qed.

(** X21. A PermissionsTx whose target is its own sender does not charge
    the sender: the dispatcher writes the debited sender and then the
    target, which is the sender as the block cache had it with its
    permissions mutated. After a success the account of the sender has the
    sequence, the balance and the public key it had before. *)
Theorem PermissionsTx_on_sender_skips_debit (exe exe' : executor)
  (tx : PermissionsTx) :
  wf_cache (blockCache exe) ->
  perm_target tx = in_Address (perm_Input tx) ->
  Execute exe (TxPermissions tx) = (Ok tt, exe') ->
  exists acc acc',
    accounts (blockCache exe) !! in_Address (perm_Input tx) = Some acc /\
    accounts (blockCache exe') !! in_Address (perm_Input tx) = Some acc' /\
    acc_Sequence acc' = acc_Sequence acc /\
    acc_Balance acc' = acc_Balance acc /\
    acc_PublicKey acc' = acc_PublicKey acc.
Proof.
  intros Hwf Hself Hexec.
  apply ExecutePermissionsTx_Ok in Hexec
    as (inAcc & bound & input' & target & perms & Hin & _ & Htarget & ->).
  rewrite Hself, Hin in Htarget. injection Htarget as <-.
  destruct (wf_cache_lookup _ _ _ Hwf Hin) as (Haddr & _).
  exists inAcc, (SetPermissions inAcc perms). split; [exact Hin|].
  split; [|auto].
  cbn [UpdateAccount accounts].
  change (acc_Address (SetPermissions inAcc perms)) with (acc_Address inAcc).
  rewrite Haddr. apply lookup_insert_eq.
Qed.

(** X22. A PermissionsTx that succeeds has a target that exists, and
    changes nothing of it but its permissions: its sequence, balance,
    public key and code stay. Beside the sender and the target no account
    changes, and no storage slot and no name entry does. *)
Theorem PermissionsTx_changes_permissions_only (exe exe' : executor)
  (tx : PermissionsTx) :
  wf_cache (blockCache exe) ->
  Execute exe (TxPermissions tx) = (Ok tt, exe') ->
  (exists target target',
     accounts (blockCache exe) !! perm_target tx = Some target /\
     accounts (blockCache exe') !! perm_target tx = Some target' /\
     acc_Sequence target' = acc_Sequence target /\
     acc_Balance target' = acc_Balance target /\
     acc_PublicKey target' = acc_PublicKey target /\
     acc_Code target' = acc_Code target) /\
  (forall a, a <> in_Address (perm_Input tx) -> a <> perm_target tx ->
             accounts (blockCache exe') !! a = accounts (blockCache exe) !! a) /\
  storages (blockCache exe') = storages (blockCache exe) /\
  names (blockCache exe') = names (blockCache exe).
Proof.
  intros Hwf Hexec.
  apply ExecutePermissionsTx_Ok in Hexec
    as (inAcc & bound & input' & target & perms & Hin & Hbound & Htarget & ->).
  destruct (wf_cache_lookup _ _ _ Hwf Hin) as (Haddr & _).
  destruct (wf_cache_lookup _ _ _ Hwf Htarget) as (Haddr' & _).
  apply checkInputPubKey_Ok in Hbound as ((Ha & _) & _).
  cbn [UpdateAccount accounts storages names].
  change (acc_Address (SetPermissions target perms))
    with (acc_Address target).
  change (acc_Address (SubtractFromBalance (IncSequence bound)
                                           (in_Amount input')))
    with (acc_Address bound).
  rewrite Haddr', Ha, Haddr.
  split; [|split; [|split; reflexivity]].
  - exists target, (SetPermissions target perms).
    split; [exact Htarget|]. split; [apply lookup_insert_eq|]. auto.
  - intros a Hne Hne'. rewrite !lookup_insert_ne by congruence. reflexivity.
Qed.

(** *** Sequence numbers *)

Lemma bound_input_in_order (cache : BlockCache) (inAcc bound : Account)
  (i i' : TxInput) (signBytes : list Byte.byte) :
  accounts cache !! in_Address i = Some inAcc ->
  checkInputPubKey inAcc i = Ok (bound, i') ->
  validateInput bound signBytes i' = None ->
  input_in_order cache i.
Proof.
  intros Hin Hbound Hvalid.
  apply checkInputPubKey_Ok in Hbound
    as ((_ & Hseq & Hbal & _) & (_ & Hamt & Hs & _)).
  apply validateInput_None in Hvalid as (_ & _ & Hnext & Hcover).
  exists inAcc. rewrite <- Hseq, <- Hbal, <- Hamt, <- Hs. auto.
Qed.

Lemma ExecuteSendTx_in_order (exe exe' : executor) (tx : SendTx) (fees : Z) :
  ExecuteSendTx tx exe = (Ok fees, exe') ->
  Forall (input_in_order (blockCache exe)) (send_Inputs tx).
Proof.
  intros Hexec.
  apply ExecuteSendTx_inv in Hexec
    as (accs0 & ins' & accs1 & accs2 & accs3 & inTotal & outTotal & Hget &
        _ & Hout & Hvalid & _).
  cbn [send_Inputs send_Outputs] in *.
  apply getInputs_from_Ok in Hget as (_ & _ & Hsame & _ & Hins).
  apply getOrMakeOutputs_from_Ok in Hout as (_ & Hfresh & Hother & _).
  apply validateInputs_from_Ok in Hvalid.
  rewrite Forall_forall in Hins. rewrite Forall_forall in Hfresh.
  rewrite Forall_forall in Hvalid.
  rewrite Forall_forall. intros i Hi.
  destruct (same_input_elem_of _ _ _ Hsame Hi)
    as (i' & Hi' & Ha & Hamt & Hseq & _).
  destruct (Hins i Hi) as (acc & bound & Hc & Hl & (_ & Hs & Hb & _)).
  destruct (Hvalid i' Hi') as (acc1 & Hacc1 & Hval).
  rewrite Ha, Hother, Hl in Hacc1.
  2:{ intros (o & Heq & Ho)%list_elem_of_fmap.
      specialize (Hfresh o Ho). rewrite <- Heq in Hfresh. congruence. }
  injection Hacc1 as <-.
  apply validateInput_None in Hval as (_ & _ & Hnext & Hcover).
  exists acc. rewrite <- Hs, <- Hb, <- Hamt, <- Hseq. auto.
Qed.

Lemma Execute_inputs_in_order (exe exe' : executor) (tx : Tx) :
  Execute exe tx = (Ok tt, exe') ->
  Forall (input_in_order (blockCache exe)) (inputs_of tx).
Proof.
  intros Hexec. destruct tx as [tx|tx|tx|tx]; cbn [inputs_of].
  - rewrite Execute_TxSend in Hexec.
    destruct (ExecuteSendTx tx exe) as [[fees| |] exe0] eqn:Hsend;
      try discriminate.
    exact (ExecuteSendTx_in_order _ _ _ _ Hsend).
  - change (ExecuteCallTx tx exe = (Ok tt, exe')) in Hexec.
    apply ExecuteCallTx_inv in Hexec
      as [[Hr _]|(inAcc & bound & input' & Hin & Hbound & Hvalid & _)];
      [contradiction|].
    constructor; [|constructor].
    exact (bound_input_in_order _ _ _ _ _ _ Hin Hbound Hvalid).
  - change (ExecuteNameTx tx exe = (Ok tt, exe')) in Hexec.
    apply ExecuteNameTx_inv in Hexec
      as [[Hr _]|(_ & inAcc & bound & input' & Hin & _ & Hbound & Hvalid & _)];
      [contradiction|].
    constructor; [|constructor].
    exact (bound_input_in_order _ _ _ _ _ _ Hin Hbound Hvalid).
  - change (ExecutePermissionsTx tx exe = (Ok tt, exe')) in Hexec.
    revert Hexec. unfold ExecutePermissionsTx. exec_unfold.
    unfold GetMutableAccount, GetAccount, check.
    destruct (accounts (blockCache exe) !! in_Address (perm_Input tx))
      as [inAcc|] eqn:Hin; cbv beta iota zeta; [|discriminate].
    destruct (HasPermission (blockCache exe) inAcc _) as [[|]| |];
      cbn [negb]; cbv beta iota zeta; try discriminate.
    destruct (checkInputPubKey inAcc (perm_Input tx)) as [[bound input']| |]
      eqn:Hbound; cbv beta iota zeta; try discriminate.
    cbn [perm_Input perm_PermArgs fst snd].
    destruct (validateInput bound _ input') eqn:Hvalid; cbv beta iota zeta;
      [discriminate|].
    intros _. constructor; [|constructor].
    exact (bound_input_in_order _ _ _ _ _ _ Hin Hbound Hvalid).
Qed.

(** An input in order before is out of order once the sequence of its
    account has advanced by one or two. *)
Lemma input_out_of_order (cache cache' : BlockCache) (i : TxInput)
  (acc acc' : Account) (steps : Z) :
  wf_account acc -> 1 <= steps <= 2 ->
  accounts cache !! in_Address i = Some acc ->
  accounts cache' !! in_Address i = Some acc' ->
  acc_Sequence acc' = acc_Sequence acc + steps ->
  input_in_order cache i -> ~ input_in_order cache' i.
Proof.
  intros (_ & Hs0 & Hs2) Hsteps Hacc Hacc' Hseq
    (acc0 & Hacc0 & Hnext & _) (acc1 & Hacc1 & Hnext' & _).
  rewrite Hacc in Hacc0. injection Hacc0 as <-.
  rewrite Hacc' in Hacc1. injection Hacc1 as <-.
  rewrite Hnext, Hseq in Hnext'.
  rewrite (uint64_id (acc_Sequence acc + 1)) in Hnext'
    by (unfold is_uint64; lia).
  unfold uint64 in Hnext'.
  destruct (Z.eq_dec (acc_Sequence acc + steps + 1) (2 ^ 64)) as [Hwrap|Hno].
  - rewrite Hwrap, Z.mod_same in Hnext' by lia. lia.
  - rewrite Z.mod_small in Hnext' by lia. lia.
Qed.

(** X23. [Execute] succeeds only for inputs in order: each input of the
    transaction carries the sequence number of its account in the block
    cache plus one, and an amount that the balance of the account
    covers. *)
Theorem Execute_requires_next_sequence (exe exe' : executor) (tx : Tx) :
  Execute exe tx = (Ok tt, exe') ->
  Forall (input_in_order (blockCache exe)) (inputs_of tx).
Proof. apply Execute_inputs_in_order. Qed.

(** The sequence of the account of some input has advanced by one or two. *)
Lemma Execute_advances_sequence (exe exe' : executor) (tx : Tx) :
  wf_cache (blockCache exe) -> wf_Tx tx ->
  Execute exe tx = (Ok tt, exe') ->
  match tx with
  | TxSend tx => send_Inputs tx <> []
  | TxCall tx => runCall exe = false \/ callFailed exe exe'
  | TxName _ => True
  | TxPermissions tx => perm_target tx <> in_Address (perm_Input tx)
  end ->
  exists i steps, i ∈ inputs_of tx /\ 1 <= steps <= 2 /\
    exists acc acc',
      accounts (blockCache exe) !! in_Address i = Some acc /\
      accounts (blockCache exe') !! in_Address i = Some acc' /\
      acc_Sequence acc' = acc_Sequence acc + steps.
Proof.
  intros Hwf Htx Hexec Hcase.
  destruct tx as [tx|tx|tx|tx]; cbn [wf_Tx inputs_of] in *.
  - rewrite Execute_TxSend in Hexec.
    destruct (ExecuteSendTx tx exe) as [[fees| |] exe0] eqn:Hsend;
      try discriminate.
    injection Hexec as <-.
    destruct (ExecuteSendTx_Ok _ _ _ _ Hwf Htx Hsend) as (Hins & _).
    destruct (send_Inputs tx) as [|i ins]; [contradiction|].
    apply Forall_cons in Hins as [(acc & acc' & Hacc & Hacc' & Hseq & _) _].
    exists i, 1. split; [apply list_elem_of_here|]. split; [lia|]. eauto.
  - destruct (runCall exe) eqn:Hrun.
    + destruct Hcase as [|Hfailed]; [discriminate|].
      destruct (CallTx_commit_failure _ _ _ _ Hwf Htx Hrun Hexec Hfailed)
        as (_ & acc & debited & Hin & Haddr & Hseq & _ & Hcache).
      exists (call_Input tx), 1. split; [apply list_elem_of_here|].
      split; [lia|]. exists acc, debited. split; [exact Hin|].
      split; [|exact Hseq].
      rewrite Hcache. cbn [UpdateAccount accounts]. rewrite Haddr.
      apply lookup_insert_eq.
    + destruct (CallTx_check_path _ _ _ Hwf Htx Hrun Hexec)
        as (acc & acc' & Hacc & Hacc' & Hseq & _).
      exists (call_Input tx), (match call_Address tx with
                               | Some _ => 1 | None => 2 end).
      split; [apply list_elem_of_here|].
      split; [destruct (call_Address tx); lia|]. eauto.
  - destruct (NameTx_debit _ _ _ Hwf Htx Hexec)
      as (acc & acc' & Hacc & Hacc' & Hseq & _).
    exists (name_Input tx), 1. split; [apply list_elem_of_here|].
    split; [lia|]. eauto.
  - destruct (PermissionsTx_debit _ _ _ Hwf Htx Hcase Hexec)
      as (acc & acc' & Hacc & Hacc' & Hseq & _).
    exists (perm_Input tx), 1. split; [apply list_elem_of_here|].
    split; [lia|]. eauto.
Qed.

(** X24. No replay. A transaction that has succeeded does not succeed a
    second time on the executor it has left: the sequence of the account
    of an input has advanced, and the sequence number of the input is not
    the next one any more. This holds for a SendTx with an input, a NameTx,
    a PermissionsTx whose target is not its sender, and a CallTx in the
    check path or whose call has failed. *)
Theorem Execute_no_replay (exe exe' : executor) (tx : Tx) :
  wf_cache (blockCache exe) -> wf_Tx tx ->
  Execute exe tx = (Ok tt, exe') ->
  match tx with
  | TxSend tx => send_Inputs tx <> []
  | TxCall tx => runCall exe = false \/ callFailed exe exe'
  | TxName _ => True
  | TxPermissions tx => perm_target tx <> in_Address (perm_Input tx)
  end ->
  (Execute exe' tx).1 <> Ok tt.
Proof.
  intros Hwf Htx Hexec Hcase Hagain.
  destruct (Execute_advances_sequence _ _ _ Hwf Htx Hexec Hcase)
    as (i & steps & Hi & Hsteps & acc & acc' & Hacc & Hacc' & Hseq).
  destruct (Execute exe' tx) as [r exe''] eqn:Hexec'. cbn in Hagain. subst r.
  apply Execute_inputs_in_order in Hexec, Hexec'.
  rewrite Forall_forall in Hexec. rewrite Forall_forall in Hexec'.
  destruct (wf_cache_lookup _ _ _ Hwf Hacc) as (_ & Hwfacc).
  exact (input_out_of_order _ _ _ _ _ _ Hwfacc Hsteps Hacc Hacc' Hseq
           (Hexec i Hi) (Hexec' i Hi)).
Qed.

(** *** The helpers of package rpc *)

Section RpcProperties.

Context {rpc : Rpc}.

(** X25. [decodeAddressPermFlag] never returns the address it decodes:
    the decoded bytes are copied into the address only when the decoding
    has failed. When the address string decodes, the address returned is
    the zero address, whatever the string is, beside the flag (and the
    error) of the permission string. *)
Theorem decodeAddressPermFlag_returns_zero_address (addrS permFlagS : string) :
  (hex_DecodeString addrS).2 = None ->
  decodeAddressPermFlag addrS permFlagS =
    (ZeroAddress, (PermStringToFlag permFlagS).1,
     (PermStringToFlag permFlagS).2).
Proof.
  unfold decodeAddressPermFlag. cbv zeta. intros ->.
  destruct (PermStringToFlag permFlagS).2; reflexivity.
Qed.

(** X26. With a nonce on the command line, [checkCommon] reports neither a
    misformatted amount nor an address that does not convert: each of the
    two errors is assigned and then overwritten. For a key fetched by
    address, once the address string decodes, the key client answers and
    the nonce parses, the result has no error; its amount is the number
    [ParseUint] returns beside its error, its key the one of the address
    [AddressFromBytes] returns beside its error. *)
Theorem checkCommon_drops_errors_with_nonce (nodeClient : option NodeClient)
  (keyClient : KeyClient) (addr amtS nonceS : string) (addressBytes : Bytes)
  (pub : option Bytes) (nonce : Z) :
  amtS <> EmptyString -> addr <> EmptyString -> nonceS <> EmptyString ->
  hex_DecodeString addr = (addressBytes, None) ->
  key_PublicKey keyClient (AddressFromBytes addressBytes).1 = (pub, None) ->
  ParseUint nonceS = (nonce, None) ->
  checkCommon nodeClient keyClient EmptyString addr amtS nonceS =
    Ok (pub, (ParseUint amtS).1, nonce, None).
Proof.
  intros Hamt Haddr Hnonce Hhex Hkey Hparse.
  unfold checkCommon. cbv zeta.
  rewrite (bool_decide_eq_false_2 (amtS = EmptyString)) by assumption.
  rewrite (bool_decide_eq_true_2 (EmptyString = EmptyString)) by reflexivity.
  rewrite (bool_decide_eq_false_2 (addr = EmptyString)) by assumption.
  cbn [andb negb]. rewrite Hhex. cbn [fst snd]. rewrite Hkey. cbn [fst snd].
  rewrite (bool_decide_eq_false_2 (nonceS = EmptyString)) by assumption.
  rewrite Hparse. reflexivity.
Qed.

(** X27. The nonce [checkCommon] fetches is the one the executor expects.
    Without a nonce on the command line, a result without error carries
    the amount as parsed, without error, and the sequence of the account
    the node has at the address of the key, plus one; [validateInput]
    accepts, against that account, an input with this sequence number
    that is valid, signed and covered by the balance. *)
Theorem checkCommon_fetches_next_sequence (nodeClient : option NodeClient)
  (keyClient : KeyClient) (pubkey addr amtS : string) (pub : option Bytes)
  (amt nonce : Z) :
  checkCommon nodeClient keyClient pubkey addr amtS EmptyString =
    Ok (pub, amt, nonce, None) ->
  ParseUint amtS = (amt, None) /\
  exists node acc,
    nodeClient = Some node /\
    node_GetAccount node (PublicKey_Address pub) = (Some acc, None) /\
    nonce = uint64 (acc_Sequence acc + 1) /\
    forall signBytes i,
      in_Sequence i = nonce ->
      TxInput_ValidateBasic i = None ->
      VerifyBytes (acc_PublicKey acc) signBytes (in_Signature i) = true ->
      in_Amount i <= acc_Balance acc ->
      validateInput acc signBytes i = None.
Proof.
  unfold checkCommon. cbv zeta.
  destruct (bool_decide (amtS = EmptyString)); [discriminate|].
  rewrite (bool_decide_eq_true_2 (EmptyString = EmptyString)) by reflexivity.
  assert (Hfinish : forall pub0,
    match nodeClient with
    | Some node =>
        match (node_GetAccount node (PublicKey_Address pub0)).2 with
        | Some err2 => Ok (pub0, (ParseUint amtS).1, 0, Some err2)
        | None =>
            match (node_GetAccount node (PublicKey_Address pub0)).1 with
            | Some account =>
                Ok (pub0, (ParseUint amtS).1,
                    uint64 (acc_Sequence account + 1),
                    match (ParseUint amtS).2 with
                    | Some _ => Some (ErrOther "amt is misformatted")
                    | None => (ParseUint amtS).2
                    end)
            | None => Panic "nil pointer dereference"
            end
        end
    | None =>
        Ok (pub0, (ParseUint amtS).1, 0,
            Some (ErrOther "input must specify a nonce with the --nonce flag or use --node-addr (or BURROW_CLIENT_NODE_ADDR) to fetch the nonce from a node"))
    end = Ok (pub, amt, nonce, None) ->
    ParseUint amtS = (amt, None) /\
    exists node acc,
      nodeClient = Some node /\
      node_GetAccount node (PublicKey_Address pub) = (Some acc, None) /\
      nonce = uint64 (acc_Sequence acc + 1) /\
      forall signBytes i,
        in_Sequence i = nonce ->
        TxInput_ValidateBasic i = None ->
        VerifyBytes (acc_PublicKey acc) signBytes (in_Signature i) = true ->
        in_Amount i <= acc_Balance acc ->
        validateInput acc signBytes i = None).
  { intros pub0. destruct nodeClient as [node|]; [|discriminate].
    destruct (node_GetAccount node (PublicKey_Address pub0)) as [got err2]
      eqn:Hgot. cbn [fst snd].
    destruct err2; [discriminate|]. destruct got as [acc|]; [|discriminate].
    destruct (ParseUint amtS) as [parsed perr] eqn:Hparse. cbn [fst snd].
    destruct perr; [discriminate|]. intros [= <- <- <-].
    split; [reflexivity|]. exists node, acc.
    split; [reflexivity|]. split; [exact Hgot|]. split; [reflexivity|].
    intros signBytes i Hseq Hbasic Hsig Hcover.
    apply validateInput_None. auto. }
  destruct (bool_decide (pubkey = EmptyString)); cbn [andb negb].
  - destruct (bool_decide (addr = EmptyString)); [discriminate|].
    destruct (hex_DecodeString addr).2; [discriminate|].
    destruct (key_PublicKey keyClient _).2; [discriminate|].
    apply Hfinish.
  - destruct (negb (bool_decide (addr = EmptyString)) && _); [discriminate|].
    destruct (hex_DecodeString pubkey).2; [discriminate|].
    apply Hfinish.
Qed.

End RpcProperties.


End Properties.

(** * Concrete runs *)

Import Example Scenario.

(** The VM of [Example] keeps the address and the sequence of the caller,
    and the address of the callee, and a derived address is never the
    address it is derived from. *)
Lemma example_vm_keeps_caller : vm_keeps_caller.
Proof.
  intros params origin txHash cache caller callee code data value gas.
  cbn. unfold example_call.
  destruct (acc_Balance caller <? value); [discriminate|].
  destruct code as [|[] code]; cbn; intros; try discriminate; auto.
Qed.

Lemma example_NewContractAddress (a : N) (sequence : Z) :
  NewContractAddress a sequence <> a.
Proof. cbn. lia. Qed.

(** C7, on the input of [transfer]: account 1 passes [validateInput]. *)
Lemma validateInput_spec_witness :
  let acc := account 1 0 10000 in
  (0 <= acc_Sequence acc /\ acc_Sequence acc + 1 < 2 ^ 64) /\
  validateInput acc [] (input 1 600 1) = None.
Proof.
  split; [cbn; lia|].
  apply (validateInput_spec (account 1 0 10000) [] (input 1 600 1));
    [cbn; lia|cbn; lia|].
  repeat split; try reflexivity. cbn. lia.
Defined.

(** C4 as stated does not hold: the key of [input_with_key] is bound to the
    account [keyless], and the input comes back with its [PubKey] field
    still set. *)
Lemma checkInputPubKey_keeps_input_key :
  acc_PublicKey keyless = None /\
  checkInputPubKey keyless input_with_key =
    Ok (SetPublicKey keyless (Some (key 3)), input_with_key) /\
  in_PubKey input_with_key <> None.
Proof. split; [reflexivity|]. split; [reflexivity|discriminate]. Qed.

(** C4, on [keyless] and [input_with_key]: the step succeeds. *)
Lemma checkInputPubKey_spec_witness :
  acc_PublicKey keyless = None /\
  exists r, checkInputPubKey keyless input_with_key = Ok r.
Proof.
  split; [reflexivity|].
  apply (proj1 (checkInputPubKey_spec keyless input_with_key) eq_refl).
  exists (key 3). split; reflexivity.
Defined.

(** C9, on [stale_transfer]: the executor is as before. *)
Lemma SendTx_failure_updates_nothing_witness :
  let run := Execute committer (TxSend stale_transfer) in
  run.1 = Err (ErrTxInvalidSequence 7 1) /\
  run.2 = committer /\ blockCache run.2 = blockCache committer.
Proof.
  split; [vm_compute; reflexivity|].
  apply (SendTx_failure_updates_nothing committer _ stale_transfer
           (Err (ErrTxInvalidSequence 7 1)));
    [vm_compute; reflexivity|discriminate].
Defined.

(** C8, on [transfer]: both paths succeed and advance the sequence of
    account 1 by one. *)
Lemma SendTx_check_commit_parity_witness :
  let check := Execute (set_runCall committer false) (TxSend transfer) in
  let commit := Execute (set_runCall committer true) (TxSend transfer) in
  wf_cache (blockCache committer) /\ wf_SendTx transfer /\
  commit.1 = Ok tt /\
  Forall (fun i => exists acc acc1 acc2,
            accounts (blockCache committer) !! in_Address i = Some acc /\
            accounts (blockCache check.2) !! in_Address i = Some acc1 /\
            accounts (blockCache commit.2) !! in_Address i = Some acc2 /\
            acc_Sequence acc1 = acc_Sequence acc + 1 /\
            acc_Sequence acc2 = acc_Sequence acc + 1)
         (send_Inputs transfer).
Proof.
  assert (Hwf : wf_cache (blockCache committer))
    by (decide_by_computation).
  assert (Htx : wf_SendTx transfer)
    by (decide_by_computation).
  assert (Hok : (Execute (set_runCall committer true) (TxSend transfer)).1
                = Ok tt) by (vm_compute; reflexivity).
  split; [exact Hwf|]. split; [exact Htx|]. split; [exact Hok|].
  exact (proj2 (proj2 (proj2 (proj2
           (SendTx_check_commit_parity committer transfer)))) Hwf Htx Hok).
Defined.


(** C6 as stated does not hold: scenario S3 ends with the sequence of the
    caller at 2, not at 1. *)
Lemma create_sequence_is_two :
  let run := Execute committer (TxCall create) in
  run.1 = Ok tt /\ ~ callFailed committer run.2 /\
  acc_Sequence <$> accounts (state committer) !! 1%N = Some 0 /\
  acc_Sequence <$> accounts (state (Commit run.2)) !! 1%N = Some 2 /\
  acc_Balance <$> accounts (state (Commit run.2)) !! 1%N = Some 8000.
Proof.
  split; [vm_compute; reflexivity|].
  split; [decide_by_computation|].
  split; [vm_compute; reflexivity|]. split; vm_compute; reflexivity.
Qed.

(** C6, amended, on scenario S3. *)
Lemma CallTx_create_sequence_witness :
  exists acc acc',
    accounts (blockCache committer) !! in_Address (call_Input create)
      = Some acc /\
    accounts (state (Commit (Execute committer (TxCall create)).2))
      !! in_Address (call_Input create) = Some acc' /\
    acc_Sequence acc' = acc_Sequence acc + 2.
Proof.
  apply (CallTx_create_sequence committer).
  - decide_by_computation.
  - unfold is_uint64; cbn; lia.
  - exact example_vm_keeps_caller.
  - exact example_NewContractAddress.
  - reflexivity.
  - reflexivity.
  - vm_compute; reflexivity.
  - decide_by_computation.
Defined.


(** C10, on [old]: account 1, which does not own the entry, removes it. *)
Lemma NameTx_removes_expired_entry_witness :
  entry_Owner old <> in_Address (name_Input delete_old) /\
  exists exe',
    Execute registrar (TxName delete_old) = (Ok tt, exe') /\
    names (blockCache exe') !! name_Name delete_old = None /\
    (forall name, name <> name_Name delete_old ->
       names (blockCache exe') !! name = names (blockCache registrar) !! name).
Proof.
  split; [discriminate|].
  apply (NameTx_removes_expired_entry registrar delete_old
           (account 1 0 10000) (account 1 0 10000) (input 1 7 1) old).
  - reflexivity.
  - reflexivity.
  - reflexivity.
  - reflexivity.
  - reflexivity.
  - vm_compute; discriminate.
  - reflexivity.
  - reflexivity.
  - reflexivity.
  - reflexivity.
  - cbn; lia.
Defined.



(** C2, the divergence. The outputs of [inflating_transfer] sum to [2^64]
    against an input of 1, and [Execute] accepts the transaction: the
    totals are [uint64] sums, and the total of the outputs has wrapped
    around to 0. Account 1 pays 1, accounts 2 and 3 receive [2^63] each. *)
Theorem SendTx_outputs_exceed_inputs :
  let run := Execute committer (TxSend inflating_transfer) in
  sum_inputs (send_Inputs inflating_transfer) = 1 /\
  sum_outputs (send_Outputs inflating_transfer) = 2 ^ 64 /\
  run.1 = Ok tt /\
  acc_Balance <$> accounts (blockCache run.2) !! 1%N = Some 9999 /\
  acc_Balance <$> accounts (blockCache run.2) !! 2%N = Some (2 ^ 63) /\
  acc_Balance <$> accounts (blockCache run.2) !! 3%N = Some (2 ^ 63).
Proof. repeat split; vm_compute; reflexivity. Qed.

(** * Further concrete runs *)

Import Cases.

(** X1, on [underpaid_call]: the executor is as before. *)
Lemma Execute_error_changes_nothing_witness :
  let run := Execute committer (TxCall underpaid_call) in
  run.1 = Err ErrTxInsufficientFunds /\ run.2 = committer.
Proof.
  split; [vm_compute; reflexivity|].
  apply (Execute_error_changes_nothing committer _ (TxCall underpaid_call)
           ErrTxInsufficientFunds).
  vm_compute; reflexivity.
Defined.

(** X2, on [transfer]: the state is untouched and [Reset] forgets the
    transfer. *)
Lemma Reset_discards_Execute_witness :
  let run := Execute committer (TxSend transfer) in
  run.1 = Ok tt /\ blockCache run.2 <> blockCache committer /\
  state run.2 = state committer /\ Reset run.2 = Reset committer.
Proof.
  split; [vm_compute; reflexivity|]. split; [vm_compute; discriminate|].
  apply (Reset_discards_Execute committer _ (TxSend transfer) (Ok tt)).
  vm_compute; reflexivity.
Defined.

(** X3, on [transfer]. *)
Lemma SendTx_addresses_distinct_witness :
  NoDup ((in_Address <$> send_Inputs transfer) ++
         (out_Address <$> send_Outputs transfer)).
Proof.
  apply (SendTx_addresses_distinct committer
           (Execute committer (TxSend transfer)).2).
  vm_compute; reflexivity.
Defined.

(** X4, on [transfer_to_new]: address 7 gets a new account holding 600. *)
Lemma SendTx_output_accounts_witness :
  accounts (blockCache (Execute committer (TxSend transfer_to_new)).2) !! 7%N
  = Some (mkAccount 7 None 0 600 [] [] ZeroAccountPermissions).
Proof.
  assert (H := SendTx_output_accounts committer
                 (Execute committer (TxSend transfer_to_new)).2
                 transfer_to_new).
  apply Forall_cons in H as [H _]; [exact H| |].
  - decide_by_computation.
  - vm_compute; reflexivity.
Defined.

(** X5, on [transfer]: account 0 and the registries are untouched. *)
Lemma SendTx_touches_its_parties_only_witness :
  let exe' := (Execute committer (TxSend transfer)).2 in
  accounts (blockCache exe') !! 0%N = accounts (blockCache committer) !! 0%N /\
  storages (blockCache exe') = storages (blockCache committer) /\
  names (blockCache exe') = names (blockCache committer).
Proof.
  destruct (SendTx_touches_its_parties_only committer
              (Execute committer (TxSend transfer)).2 transfer (Ok tt))
    as (Hother & Hrest).
  - decide_by_computation.
  - vm_compute; reflexivity.
  - split; [|exact Hrest]. apply Hother; decide_by_computation.
Defined.

(** X6, on [grant]: account 1 holds [SetBase]. *)
Lemma Execute_requires_permission_witness :
  exists acc,
    accounts (blockCache committer) !! in_Address (perm_Input grant) = Some acc /\
    HasPermission (blockCache committer) acc
      (pa_PermFlag (perm_PermArgs grant)) = Ok true.
Proof.
  apply (Execute_requires_permission committer
           (Execute committer (TxPermissions grant)).2 (TxPermissions grant)).
  vm_compute; reflexivity.
Defined.

(** X7, on [transfer_to_new]: account 1 holds [CreateAccount]. *)
Lemma SendTx_creation_requires_permission_witness :
  Forall (fun i => exists acc,
            accounts (blockCache committer) !! in_Address i = Some acc /\
            HasPermission (blockCache committer) acc permission_CreateAccount
              = Ok true)
         (send_Inputs transfer_to_new).
Proof.
  apply (SendTx_creation_requires_permission committer
           (Execute committer (TxSend transfer_to_new)).2).
  - vm_compute; reflexivity.
  - apply Exists_cons_hd. reflexivity.
Defined.


(** X9, on [lawless]: the panic is the one of the missing global
    permissions account. *)
Lemma SendTx_panics_in_permission_lookup_only_witness :
  (Execute lawless (TxSend transfer)).1
    = Panic "Could not get GlobalPermission account" /\
  "Could not get GlobalPermission account"%string ∈ permission_panics.
Proof.
  split; [vm_compute; reflexivity|].
  apply (SendTx_panics_in_permission_lookup_only lawless
           (Execute lawless (TxSend transfer)).2 transfer).
  vm_compute; reflexivity.
Defined.

(** X10, on [transfer]. *)
Lemma SendTx_totals_witness :
  sum_outputs (send_Outputs transfer) <= sum_inputs (send_Inputs transfer).
Proof.
  apply (SendTx_totals committer (Execute committer (TxSend transfer)).2).
  - vm_compute; reflexivity.
  - decide_by_computation.
  - decide_by_computation.
Defined.

(** X11, on [transfer]: 10000 before, 10000 after, no fee. *)
Lemma SendTx_conserves_funds_witness :
  let exe' := (Execute committer (TxSend transfer)).2 in
  let parties := [1%N; 2%N] in
  total_balance (blockCache exe') parties =
    total_balance (blockCache committer) parties - (600 - 600).
Proof.
  apply (SendTx_conserves_funds committer
           (Execute committer (TxSend transfer)).2 transfer).
  - decide_by_computation.
  - decide_by_computation.
  - repeat constructor; vm_compute; congruence.
  - vm_compute; reflexivity.
Defined.

(** X12, on [underpaid_call]: both paths reject it. *)
Lemma CallTx_rejection_parity_witness :
  (Execute (set_runCall committer true) (TxCall underpaid_call)).1
    = Err ErrTxInsufficientFunds.
Proof.
  apply (CallTx_rejection_parity committer underpaid_call).
  vm_compute; reflexivity.
Defined.

(** X13, on [call_nobody] in the check path. *)
Lemma CallTx_check_path_touches_caller_only_witness :
  let exe' := (Execute checker (TxCall call_nobody)).2 in
  accounts (blockCache exe') !! 9%N = None /\
  storages (blockCache exe') = storages (blockCache checker) /\
  names (blockCache exe') = names (blockCache checker).
Proof.
  destruct (CallTx_check_path_touches_caller_only checker
              (Execute checker (TxCall call_nobody)).2 call_nobody)
    as (Hother & Hrest).
  - decide_by_computation.
  - reflexivity.
  - vm_compute; reflexivity.
  - split; [|exact Hrest]. rewrite Hother; [reflexivity|discriminate].
Defined.

(** X14, on [call_native]. *)
Lemma CallTx_to_native_contract_is_rejected_witness :
  let run := Execute (evm := native_evm) committer (TxCall call_native) in
  run.1 <> Ok tt /\ run.2 = committer.
Proof.
  apply (CallTx_to_native_contract_is_rejected (evm := native_evm)
           committer _ call_native 77%N).
  - reflexivity.
  - reflexivity.
  - vm_compute; reflexivity.
Defined.

(** X15, on [poach_site]. *)
Lemma NameTx_live_entry_is_protected_witness :
  let run := Execute registry (TxName poach_site) in
  run.1 <> Ok tt /\ run.2 = registry.
Proof.
  apply (NameTx_live_entry_is_protected registry _ poach_site site).
  - reflexivity.
  - decide_by_computation.
  - discriminate.
  - vm_compute; reflexivity.
Defined.

(** X16, on [register_blog]: 10 blocks, until height 20. *)
Lemma NameTx_registers_new_name_witness :
  names (blockCache (Execute registry (TxName register_blog)).2) !! "blog"%string
  = Some (mkNameRegEntry "blog" 2 "data" 20).
Proof.
  refine (proj2 (NameTx_registers_new_name registry
                   (Execute registry (TxName register_blog)).2 register_blog
                   _ _)).
  - reflexivity.
  - vm_compute; reflexivity.
Defined.

(** X17, on [reclaim_old]: the entry of account 2 is account 1's. *)
Lemma NameTx_reclaims_expired_entry_witness :
  names (blockCache (Execute registry (TxName reclaim_old)).2) !! "old"%string
  = Some (mkNameRegEntry "old" 1 "data" 20).
Proof.
  refine (proj2 (NameTx_reclaims_expired_entry registry
                   (Execute registry (TxName reclaim_old)).2 reclaim_old old
                   _ _ _ _ _)).
  - reflexivity.
  - reflexivity.
  - decide_by_computation.
  - left. vm_compute. discriminate.
  - vm_compute; reflexivity.
Defined.

(** X18, on [reclaim_old]: the entry [site] and account 2 are as before. *)
Lemma NameTx_touches_sender_and_name_only_witness :
  let exe' := (Execute registry (TxName reclaim_old)).2 in
  accounts (blockCache exe') !! 2%N = accounts (blockCache registry) !! 2%N /\
  names (blockCache exe') !! "site"%string
    = names (blockCache registry) !! "site"%string.
Proof.
  destruct (NameTx_touches_sender_and_name_only registry
              (Execute registry (TxName reclaim_old)).2 reclaim_old (Ok tt))
    as (Haccounts & _ & Hnames).
  - decide_by_computation.
  - intros entry [= <-]. reflexivity.
  - vm_compute; reflexivity.
  - split; [apply Haccounts|apply Hnames]; discriminate.
Defined.

(** X19, on [prolong_site]: from height 20 to height 30. *)
Lemma NameTx_extension_adds_blocks_witness :
  names (blockCache (Execute registry (TxName prolong_site)).2) !! "site"%string
  = Some (mkNameRegEntry "site" 1 "data" 30).
Proof.
  refine (NameTx_extension_adds_blocks registry
            (Execute registry (TxName prolong_site)).2 prolong_site site
            _ _ _ _ _ _ _ _ _ _ _ _ _).
  - reflexivity.
  - decide_by_computation.
  - decide_by_computation.
  - decide_by_computation.
  - decide_by_computation.
  - reflexivity.
  - reflexivity.
  - reflexivity.
  - decide_by_computation.
  - decide_by_computation.
  - decide_by_computation.
  - decide_by_computation.
  - vm_compute; reflexivity.
Defined.

(** X20, on [query]. *)
Lemma PermissionsTx_rejects_queries_witness :
  let run := Execute committer (TxPermissions query) in
  run.1 <> Ok tt /\ run.2 = committer.
Proof.
  apply (PermissionsTx_rejects_queries committer _ query).
  - left. reflexivity.
  - vm_compute; reflexivity.
Defined.

(** X21, on [grant_self]: sequence 0 and balance 10000 before and after. *)
Lemma PermissionsTx_on_sender_skips_debit_witness :
  let run := Execute committer (TxPermissions grant_self) in
  run.1 = Ok tt /\
  exists acc acc',
    accounts (blockCache committer) !! 1%N = Some acc /\
    accounts (blockCache run.2) !! 1%N = Some acc' /\
    acc_Sequence acc' = acc_Sequence acc /\
    acc_Balance acc' = acc_Balance acc /\
    acc_PublicKey acc' = acc_PublicKey acc.
Proof.
  split; [vm_compute; reflexivity|].
  apply (PermissionsTx_on_sender_skips_debit committer _ grant_self).
  - decide_by_computation.
  - reflexivity.
  - vm_compute; reflexivity.
Defined.

(** X22, on [grant]: account 0 and the registries are untouched. *)
Lemma PermissionsTx_changes_permissions_only_witness :
  let exe' := (Execute committer (TxPermissions grant)).2 in
  accounts (blockCache exe') !! 0%N = accounts (blockCache committer) !! 0%N /\
  storages (blockCache exe') = storages (blockCache committer) /\
  names (blockCache exe') = names (blockCache committer).
Proof.
  destruct (PermissionsTx_changes_permissions_only committer
              (Execute committer (TxPermissions grant)).2 grant)
    as (_ & Hother & Hrest).
  - decide_by_computation.
  - vm_compute; reflexivity.
  - split; [|exact Hrest]. apply Hother; discriminate.
Defined.

(** X23, on [transfer]. *)
Lemma Execute_requires_next_sequence_witness :
  Forall (input_in_order (blockCache committer)) (send_Inputs transfer).
Proof.
  apply (Execute_requires_next_sequence committer
           (Execute committer (TxSend transfer)).2 (TxSend transfer)).
  vm_compute; reflexivity.
Defined.

(** X24, on [prolong_site]: the second run is rejected. *)
Lemma Execute_no_replay_witness :
  let exe' := (Execute registry (TxName prolong_site)).2 in
  (Execute exe' (TxName prolong_site)).1 <> Ok tt.
Proof.
  apply (Execute_no_replay registry _ (TxName prolong_site)).
  - decide_by_computation.
  - decide_by_computation.
  - vm_compute; reflexivity.
  - exact I.
Defined.

Import RpcExample.

(** X25, on the address [0a]: it decodes, and the zero address comes
    back. *)
Lemma decodeAddressPermFlag_returns_zero_address_witness :
  hex_DecodeString "0a" = ([Byte.x0a], None) /\
  decodeAddressPermFlag "0a" "call" = (ZeroAddress, 4, None).
Proof.
  split; [reflexivity|].
  exact (decodeAddressPermFlag_returns_zero_address "0a" "call" eq_refl).
Defined.

(** X26, on the amount [12x] and the one-byte address [01]: no error. *)
Lemma checkCommon_drops_errors_with_nonce_witness :
  (ParseUint "12x").2 <> None /\
  (AddressFromBytes [Byte.x01]).2 <> None /\
  checkCommon None example_keys "" "01" "12x" "7"
    = Ok (Some (key 1), 0, 7, None).
Proof.
  split; [discriminate|]. split; [discriminate|].
  refine (checkCommon_drops_errors_with_nonce None example_keys
            "01" "12x" "7" [Byte.x01] (Some (key 1)) 7 _ _ _ _ _ _).
  - discriminate.
  - discriminate.
  - discriminate.
  - reflexivity.
  - reflexivity.
  - reflexivity.
Defined.

(** X27, on the key of account 1, which the node has at sequence 41: the
    nonce is 42. *)
Lemma checkCommon_fetches_next_sequence_witness :
  checkCommon (Some example_node) example_keys "" "01" "600" ""
    = Ok (Some (key 1), 600, 42, None) /\
  ParseUint "600" = (600, None).
Proof.
  assert (H : checkCommon (Some example_node) example_keys "" "01" "600" ""
              = Ok (Some (key 1), 600, 42, None)) by reflexivity.
  split; [exact H|].
  exact (proj1 (checkCommon_fetches_next_sequence (Some example_node)
                  example_keys "" "01" "600" (Some (key 1)) 600 42 H)).
Defined.
